(** * LiekoDB: the in-memory collection engine

    A shallow embedding of [QueryEngine] and [LocalAdapter] of liekodb.js
    (path resolution, filter evaluation, the query cache, the update
    applier, the primary and secondary indexes, insert / update / delete)
    together with the properties of the specification that were checked
    against it.

    Modelling conventions.
    - A JavaScript value met by the engine is a JSON tree ([value]);
      [undefined] is [None] in [option value].
    - Numbers are the integer-valued doubles, as [Z].  A sum is rounded
      as the engine rounds it ([to_double]).  The text of a number
      ([String(n)], [parseInt(n)]) is that of its digits, as it is for
      magnitudes below 1e21; from there on the engine writes an exponent,
      and the properties that depend on the text of an id or of an option
      are stated for strings and for numbers below that.
    - Strings are sequences of one-byte characters (ASCII text).
    - [===] and [Array.prototype.includes] compare arrays and objects by
      reference.  The two sides of every comparison of the engine come from
      different places (a request payload on one side, a stored document on
      the other), so they are different objects and the comparison of two
      arrays or two objects is [false].
    - Only own properties are looked up; members inherited from
      [Object.prototype], [Array.prototype] and the like are left out.
    - The documents handed to one insert are different objects.
    - An array or an object inside a document belongs to that one place:
      no two documents and no two fields share one.  An update that
      stores an array or an object of its payload in several documents
      makes them share it in the engine; the properties of update and
      updateById are stated for payloads of scalars, which keep the
      documents apart.
    - A write through a dotted path at an array index at or past the end
      of the array leaves holes in the engine; the model drops it, and
      the properties about dotted paths are stated for paths that run
      through objects.
    - The keys of a Map (ids, the values of indexed fields) are scalars:
      a key that is an array or an object is found by identity in the
      engine and by no lookup in the model.
    - An object is the list of its properties in the order they were
      added; keys that read as array indices are not moved to the front.
    - A thrown exception is the [Throw] case of [result]. *)

From Stdlib Require Import ZArith String Ascii List Bool Lia Arith.
From Stdlib Require Import Decimal DecimalString DecimalNat.
From Stdlib Require Import Permutation OrderedTypeEx.
Import ListNotations.

Local Open Scope string_scope.
Local Open Scope list_scope.

Set Implicit Arguments.

(* ------------------------------------------------------------------ *)
(** ** Values and results *)

#[local] Unset Elimination Schemes.

Inductive value : Type :=
| VNull
| VBool (b : bool)
| VNum (n : Z)
| VStr (s : string)
| VArr (elems : list value)
| VObj (fields : list (string * value)).

#[local] Set Elimination Schemes.

Inductive exn : Type :=
| TypeError
| Error (message : string).

Inductive result (A : Type) : Type :=
| Ok (a : A)
| Throw (e : exn).

Arguments Ok {A} a.
Arguments Throw {A} e.

Definition bind {A B} (r : result A) (k : A -> result B) : result B :=
  match r with
  | Ok a => k a
  | Throw e => Throw e
  end.

Notation "x <- r ;; k" := (bind r (fun x => k))
  (at level 61, r at next level, right associativity).

Definition is_array (v : value) : bool :=
  match v with VArr _ => true | _ => false end.

(** [typeof v === 'object' && v !== null && !Array.isArray(v)] *)
Definition is_plain_object (v : value) : bool :=
  match v with VObj _ => true | _ => false end.

(** ToBoolean *)
Definition truthy (v : value) : bool :=
  match v with
  | VNull => false
  | VBool b => b
  | VNum n => negb (n =? 0)%Z
  | VStr s => negb (s =? "")
  | VArr _ | VObj _ => true
  end.

Definition truthy_opt (v : option value) : bool :=
  match v with Some x => truthy x | None => false end.

(** [a === b] on defined values; on integers it agrees with the
    SameValueZero of [includes] and of [Map] keys. *)
Definition strict_eq (a b : value) : bool :=
  match a, b with
  | VNull, VNull => true
  | VBool x, VBool y => Bool.eqb x y
  | VNum x, VNum y => (x =? y)%Z
  | VStr x, VStr y => (x =? y)
  | _, _ => false
  end.

Definition strict_eq_opt (a b : option value) : bool :=
  match a, b with
  | None, None => true
  | Some x, Some y => strict_eq x y
  | _, _ => false
  end.

(** [arr.includes(x)] *)
Definition includes (arr : list value) (x : value) : bool :=
  existsb (fun e => strict_eq e x) arr.

(* ------------------------------------------------------------------ *)
(** ** Strings *)

Definition dot : ascii := "."%char.
Definition dollar : ascii := "$"%char.

(** [s.includes('.')] *)
Fixpoint includes_dot (s : string) : bool :=
  match s with
  | EmptyString => false
  | String c s' => if Ascii.eqb c dot then true else includes_dot s'
  end.

(** [s.startsWith('$')] *)
Definition starts_with_dollar (s : string) : bool :=
  match s with
  | String c _ => Ascii.eqb c dollar
  | EmptyString => false
  end.

(** [s.split('.')]: [split_dot_aux cur s] carries the segment being read. *)
Fixpoint split_dot_aux (cur : string) (s : string) : list string :=
  match s with
  | EmptyString => [cur]
  | String c s' =>
      if Ascii.eqb c dot then cur :: split_dot_aux "" s'
      else split_dot_aux (cur ++ String c "") s'
  end.

Definition split_dot (s : string) : list string := split_dot_aux "" s.

(** [parts.join('.')] *)
Fixpoint join_dot (parts : list string) : string :=
  match parts with
  | [] => ""
  | [p] => p
  | p :: rest => p ++ String dot (join_dot rest)
  end.

Definition is_digit (c : ascii) : bool :=
  let n := nat_of_ascii c in ((48 <=? n) && (n <=? 57))%nat.

Definition digit_val (c : ascii) : Z := Z.of_nat (nat_of_ascii c - 48).

(** The white space [parseInt] skips (the one-byte part of StrWhiteSpaceChar). *)
Definition is_space (c : ascii) : bool :=
  let n := nat_of_ascii c in (((9 <=? n) && (n <=? 13)) || (n =? 32))%nat.

Fixpoint skip_spaces (s : string) : string :=
  match s with
  | String c s' => if is_space c then skip_spaces s' else s
  | EmptyString => s
  end.

(** The longest prefix of decimal digits, read as a number; [None] when
    there is no digit. *)
Fixpoint read_digits (acc : option Z) (s : string) : option Z :=
  match s with
  | String c s' =>
      if is_digit c
      then read_digits
             (Some (10 * match acc with Some a => a | None => 0 end + digit_val c)%Z) s'
      else acc
  | EmptyString => acc
  end.

(** [parseInt(s, 10)]; [None] is [NaN]. *)
Definition parseInt10 (s : string) : option Z :=
  match skip_spaces s with
  | String "-" s' => option_map Z.opp (read_digits None s')
  | String "+" s' => read_digits None s'
  | s' => read_digits None s'
  end.

(** A canonical array index: decimal digits without a leading zero. *)
Definition canonical_index (s : string) : option nat :=
  match s with
  | EmptyString => None
  | String "0" EmptyString => Some 0
  | String "0" _ => None
  | _ =>
      if (fix all_digits (t : string) : bool :=
            match t with
            | EmptyString => true
            | String c t' => is_digit c && all_digits t'
            end) s
      then option_map Z.to_nat (read_digits None s)
      else None
  end.

Definition string_of_nat (n : nat) : string :=
  NilEmpty.string_of_uint (Nat.to_uint n).

Definition string_of_Z (z : Z) : string :=
  match z with
  | Z0 => "0"
  | Zpos _ => string_of_nat (Z.to_nat z)
  | Zneg _ => "-" ++ string_of_nat (Z.to_nat (Z.opp z))
  end.

(** The double nearest to the integer [z], ties going to the even
    significand: an integer of magnitude at most 2^53 is a double, and a
    larger double has 53 significant bits.  (An overflow to [Infinity]
    has no counterpart among the values.) *)
Definition to_double (z : Z) : Z :=
  let m := Z.abs z in
  if (m <=? 2 ^ 53)%Z then z
  else
    let e := (Z.log2 m - 52)%Z in
    let q := (m / 2 ^ e)%Z in
    let r := (m mod 2 ^ e)%Z in
    let half := (2 ^ (e - 1))%Z in
    let q' := if (r <? half)%Z then q
              else if (half <? r)%Z then (q + 1)%Z
              else if Z.even q then q else (q + 1)%Z in
    (Z.sgn z * (q' * 2 ^ e))%Z.

(* ------------------------------------------------------------------ *)
(** ** Property access *)

(** Own property of an object, first binding of the key. *)
Fixpoint lookup (k : string) (fields : list (string * value)) : option value :=
  match fields with
  | [] => None
  | (k', v) :: rest => if k' =? k then Some v else lookup k rest
  end.

(** [item[key]] for a value [item].  Reading a property of [null] throws;
    arrays and strings answer to their indices and to [length]. *)
Definition get_prop (item : value) (key : string) : result (option value) :=
  match item with
  | VNull => Throw TypeError
  | VObj fields => Ok (lookup key fields)
  | VArr elems =>
      if key =? "length" then Ok (Some (VNum (Z.of_nat (length elems))))
      else match canonical_index key with
           | Some i => Ok (nth_error elems i)
           | None => Ok None
           end
  | VStr s =>
      if key =? "length" then Ok (Some (VNum (Z.of_nat (String.length s))))
      else match canonical_index key with
           | Some i => Ok (option_map (fun c => VStr (String c "")) (String.get i s))
           | None => Ok None
           end
  | VBool _ | VNum _ => Ok None
  end.

(* ------------------------------------------------------------------ *)
(** ** QueryEngine.getValue *)

(** [idx = parseInt(p, 10); !isNaN(idx) && idx >= 0 && idx < cur.length] *)
Definition array_index (p : string) (len : nat) : option nat :=
  match parseInt10 p with
  | Some z => if (0 <=? z)%Z && (z <? Z.of_nat len)%Z then Some (Z.to_nat z) else None
  | None => None
  end.

(** [results.push(...v)] or [results.push(v)], for [v !== undefined]. *)
Definition collect (v : option value) : list value :=
  match v with
  | None => []
  | Some (VArr l) => l
  | Some x => [x]
  end.

(** The loop of [getValue] over [parts], from the value [cur].  The call
    [this.getValue(el, remainingPath)] on an element is written out: a
    remaining path of one segment has no dot and is read with [el[path]],
    a longer one is split again into the same segments
    (see [getValue_remaining]). *)
Fixpoint walk (cur : value) (parts : list string) {struct cur}
  : result (option value) :=
  match parts with
  | [] => Ok (Some cur)
  | p :: rest =>
      match cur with
      | VArr elems =>
          match array_index p (length elems) with
          | Some idx =>
              (fix at_index (l : list value) (k : nat) {struct l} :=
                 match l, k with
                 | [], _ => Ok None
                 | x :: _, O => walk x rest
                 | _ :: l', S k' => at_index l' k'
                 end) elems idx
          | None =>
              results <-
                (fix each (l : list value) : result (list value) :=
                   match l with
                   | [] => Ok []
                   | el :: l' =>
                       v <- match rest with
                            | [] => get_prop el p
                            | _ :: _ => walk el (p :: rest)
                            end ;;
                       tl <- each l' ;;
                       Ok (collect v ++ tl)
                   end) elems ;;
              Ok (match results with [] => None | _ :: _ => Some (VArr results) end)
          end
      | VObj fields =>
          (fix field (fs : list (string * value)) : result (option value) :=
             match fs with
             | [] => Ok None
             | (k, v) :: fs' => if k =? p then walk v rest else field fs'
             end) fields
      | VNull | VBool _ | VNum _ | VStr _ => Ok None
      end
  end.

Definition getValue (item : value) (path : string) : result (option value) :=
  if negb (includes_dot path) then get_prop item path
  else walk item (split_dot path).

(* ------------------------------------------------------------------ *)
(** ** What the JavaScript runtime supplies *)

(** The conversions and the regular expressions of the language are taken
    as an interface; the engine's own code is written over it. *)
Class JsRuntime : Type := {
  (** [x < y] for operands that are not two numbers or two strings
      (IsLessThan with its coercions); [None] is the undefined outcome. *)
  rt_less_than : value -> value -> option bool;
  (** ToNumber of a string, an array or an object; [None] is [NaN]. *)
  rt_to_number : value -> option Z;
  (** [new RegExp(pattern, flags)]: the compiled [test], or [None] when the
      constructor throws. *)
  rt_regexp : value -> value -> option (string -> bool);
  (** [n + v] for an array or an object [v] *)
  rt_plus : Z -> value -> value
}.

(** [String(v)] *)
Fixpoint js_String (v : value) : string :=
  match v with
  | VNull => "null"
  | VBool true => "true"
  | VBool false => "false"
  | VNum n => string_of_Z n
  | VStr s => s
  | VArr elems =>
      (fix join (l : list value) : string :=
         match l with
         | [] => ""
         | e :: l' =>
             ((match e with VNull => "" | _ => js_String e end)
              ++ (match l' with [] => "" | _ :: _ => "," ++ join l' end))%string
         end) elems
  | VObj _ => "[object Object]"
  end.

(** [hay.includes(needle)] on strings *)
Fixpoint string_includes (needle hay : string) : bool :=
  if String.prefix needle hay then true
  else match hay with
       | EmptyString => false
       | String _ hay' => string_includes needle hay'
       end.

(** [Object.entries(v)] of a value that is not [null] *)
Definition indexed {A} (f : A -> value) (l : list A) : list (string * value) :=
  map (fun p => (string_of_nat (fst p), f (snd p))) (combine (seq 0 (length l)) l).

Definition own_entries (v : value) : list (string * value) :=
  match v with
  | VObj fields => fields
  | VArr elems => indexed (fun e => e) elems
  | VStr s => indexed (fun c => VStr (String c "")) (list_ascii_of_string s)
  | VNull | VBool _ | VNum _ => []
  end.

Section Sequential.
Context {A : Type} (f : A -> result bool).

(** [l.every(f)] *)
Fixpoint every_r (l : list A) : result bool :=
  match l with
  | [] => Ok true
  | x :: l' => b <- f x ;; if b then every_r l' else Ok false
  end.

(** [l.some(f)] *)
Fixpoint some_r (l : list A) : result bool :=
  match l with
  | [] => Ok false
  | x :: l' => b <- f x ;; if b then Ok true else some_r l'
  end.
End Sequential.

Definition not_r (r : result bool) : result bool := b <- r ;; Ok (negb b).

Section Engine.
Context {rt : JsRuntime}.

Definition less_than (x y : value) : option bool :=
  match x, y with
  | VNum a, VNum b => Some (a <? b)%Z
  | VStr a, VStr b => Some (String.ltb a b)
  | _, _ => rt_less_than x y
  end.

(** [a > e], [a >= e], [a < e], [a <= e] *)
Definition js_gt (a e : value) : bool :=
  match less_than e a with Some b => b | None => false end.
Definition js_gte (a e : value) : bool :=
  match less_than a e with Some b => negb b | None => false end.
Definition js_lt (a e : value) : bool :=
  match less_than a e with Some b => b | None => false end.
Definition js_lte (a e : value) : bool :=
  match less_than e a with Some b => negb b | None => false end.

Definition to_number (v : value) : option Z :=
  match v with
  | VNum n => Some n
  | VNull => Some 0%Z
  | VBool b => Some (if b then 1 else 0)%Z
  | _ => rt_to_number v
  end.

(** [typeof v === 'number' && v % div === rem] *)
Definition mod_matches (div rem v : value) : bool :=
  match v, rem with
  | VNum n, VNum r =>
      match to_number div with
      | Some d => if (d =? 0)%Z then false else (Z.rem n d =? r)%Z
      | None => false
      end
  | _, _ => false
  end.

(** [expected.includes(v)]: arrays and strings have the method. *)
Definition expected_includes (expected v : value) : result bool :=
  match expected with
  | VArr l => Ok (includes l v)
  | VStr s => Ok (string_includes (js_String v) s)
  | _ => Throw TypeError
  end.

(** The array-or-scalar dispatch of every comparison operator:
    [Array.isArray(actual) ? actual.some(pred) : pred(actual)]. *)
Definition any_of (a : value) (pred : value -> bool) : bool :=
  match a with
  | VArr l => existsb pred l
  | _ => pred a
  end.

Definition any_of_r (a : value) (pred : value -> result bool) : result bool :=
  match a with
  | VArr l => some_r pred l
  | _ => pred a
  end.

(** One turn of the loop of [matchesOperators] on the entry
    [op, expected] of [ops]; [negated] is the value of
    [this.matchesOperators(actual, expected)] and [next] the outcome of
    the remaining turns. *)
Definition op_step (actual : option value) (ops : value)
           (op : string) (expected : value)
           (negated next : result bool) : result bool :=
  if op =? "$options" then next else
  match actual with
  | None =>
      if op =? "$exists" then
        match expected with
        | VBool true => Ok false
        | VBool false => Ok true
        | _ => next
        end
      else if op =? "$ne" then Ok true
      else Ok false
  | Some a =>
      if op =? "$eq" then
        if any_of a (fun v => strict_eq v expected) then next else Ok false
      else if op =? "$ne" then
        if any_of a (fun v => strict_eq v expected) then Ok false else next
      else if op =? "$gt" then
        if any_of a (fun v => js_gt v expected) then next else Ok false
      else if op =? "$gte" then
        if any_of a (fun v => js_gte v expected) then next else Ok false
      else if op =? "$lt" then
        if any_of a (fun v => js_lt v expected) then next else Ok false
      else if op =? "$lte" then
        if any_of a (fun v => js_lte v expected) then next else Ok false
      else if op =? "$in" then
        b <- any_of_r a (expected_includes expected) ;;
        if b then next else Ok false
      else if op =? "$nin" then
        b <- any_of_r a (expected_includes expected) ;;
        if b then Ok false else next
      else if op =? "$exists" then
        match expected with
        | VBool false => Ok false
        | _ => next
        end
      else if op =? "$not" then not_r negated
      else if op =? "$regex" then
        let flags :=
          match get_prop ops "$options" with
          | Ok (Some o) => if truthy o then o else VStr ""
          | _ => VStr ""
          end in
        match rt_regexp expected flags with
        | Some test =>
            if any_of a (fun v => test (js_String v)) then next else Ok false
        | None => Ok false
        end
      else if op =? "$mod" then
        match expected with
        | VArr [div; rem] =>
            if any_of a (mod_matches div rem) then next else Ok false
        | _ => Ok false
        end
      else next
  end.

(** QueryEngine.matchesOperators.  The entries of an array or of a
    string are its indices, which are never [$not]: the nested call is
    not reached on the characters of a string. *)
Fixpoint matchesOperators (actual : option value) (ops : value) {struct ops}
  : result bool :=
  match ops with
  | VNull => Throw TypeError
  | VObj fields =>
      (fix loop (fs : list (string * value)) : result bool :=
         match fs with
         | [] => Ok true
         | (op, expected) :: fs' =>
             op_step actual ops op expected
                     (matchesOperators actual expected) (loop fs')
         end) fields
  | VArr elems =>
      (fix loop (i : nat) (l : list value) : result bool :=
         match l with
         | [] => Ok true
         | expected :: l' =>
             op_step actual ops (string_of_nat i) expected
                     (matchesOperators actual expected) (loop (S i) l')
         end) 0 elems
  | VStr s =>
      fold_right
        (fun e next => op_step actual ops (fst e) (snd e) (Ok true) next)
        (Ok true) (own_entries ops)
  | VBool _ | VNum _ => Ok true
  end.

(** The test of one field-path key of a filter (the body of the loop of
    [matchesFilter]). *)
Definition field_test (item : value) (key : string) (expected : value)
  : result bool :=
  value <- getValue item key ;;
  if is_plain_object expected then matchesOperators value expected
  else match value with
       | Some (VArr l) => Ok (includes l expected)
       | _ => Ok (strict_eq_opt value (Some expected))
       end.

(** [for (const key of Object.keys(filter)) ...; return true] *)
Fixpoint keys_loop (item : value) (entries : list (string * value))
  : result bool :=
  match entries with
  | [] => Ok true
  | (key, expected) :: rest =>
      if starts_with_dollar key then keys_loop item rest
      else b <- field_test item key expected ;;
           if b then keys_loop item rest else Ok false
  end.

Section Clause.
Context {A : Type} (key : string) (found : value -> A).

(** [if (filter[key]) found(filter[key]) else otherwise] on the own
    properties [fs] of [filter]. *)
Fixpoint if_prop (fs : list (string * value)) (otherwise : A) : A :=
  match fs with
  | [] => otherwise
  | (k, v) :: fs' =>
      if k =? key then (if truthy v then found v else otherwise)
      else if_prop fs' otherwise
  end.
End Clause.

(** [clause.every(f)] and [clause.some(f)] exist on arrays only. *)
Definition on_array {A} (clause : value) (k : list value -> result A)
  : result A :=
  match clause with
  | VArr l => k l
  | _ => Throw TypeError
  end.

(** QueryEngine.matchesFilter *)
Fixpoint matchesFilter (item : value) (filter : value) {struct filter}
  : result bool :=
  if negb (truthy filter) then Ok true else
  match filter with
  | VObj fields =>
      if_prop "$and"
        (fun c => on_array c (every_r (matchesFilter item))) fields
      (if_prop "$or"
        (fun c => on_array c (some_r (matchesFilter item))) fields
      (if_prop "$nor"
        (fun c => not_r (on_array c (some_r (matchesFilter item)))) fields
      (if_prop "$not"
        (fun c => not_r (matchesFilter item c)) fields
      (keys_loop item fields))))
  | _ => keys_loop item (own_entries filter)
  end.

End Engine.

(** A runtime for closed examples; none of them reaches a coercion or a
    regular expression. *)
Definition example_runtime : JsRuntime :=
  {| rt_less_than := fun _ _ => None;
     rt_to_number := fun _ => None;
     rt_regexp := fun _ _ => None;
     rt_plus := fun n _ => VNum n |}.

(* ------------------------------------------------------------------ *)
(** ** Objects as ordered property lists *)

(** [obj[k] = v]: an existing property keeps its place, a new one goes
    last. *)
Fixpoint obj_set (k : string) (v : value) (fields : list (string * value))
  : list (string * value) :=
  match fields with
  | [] => [(k, v)]
  | (k', v') :: rest =>
      if k' =? k then (k, v) :: rest else (k', v') :: obj_set k v rest
  end.

(** [delete obj[k]] *)
Fixpoint obj_delete (k : string) (fields : list (string * value))
  : list (string * value) :=
  match fields with
  | [] => []
  | (k', v') :: rest =>
      if k' =? k then obj_delete k rest else (k', v') :: obj_delete k rest
  end.

(** [obj[k] = v] where [v] may be [undefined]; a property holding
    [undefined] is represented by its absence. *)
Definition obj_set_opt (k : string) (v : option value)
           (fields : list (string * value)) : list (string * value) :=
  match v with
  | Some x => obj_set k x fields
  | None => obj_delete k fields
  end.

(** [Object.assign(target, source)] on the property lists *)
Definition obj_assign (target source : list (string * value))
  : list (string * value) :=
  fold_left (fun acc kv => obj_set (fst kv) (snd kv) acc) source target.

(** [l[i] = x] for [i] within the list *)
Fixpoint list_set {A} (i : nat) (x : A) (l : list A) : list A :=
  match l, i with
  | [], _ => []
  | _ :: l', O => x :: l'
  | y :: l', S i' => y :: list_set i' x l'
  end.

(** [l.splice(i, 1)] *)
Fixpoint list_remove_at {A} (i : nat) (l : list A) : list A :=
  match l, i with
  | [], _ => []
  | _ :: l', O => l'
  | y :: l', S i' => y :: list_remove_at i' l'
  end.

(* ------------------------------------------------------------------ *)
(** ** JSON.stringify *)

Definition dquote : ascii := ascii_of_nat 34.
Definition backslash : ascii := ascii_of_nat 92.

Definition hex_digit (n : nat) : ascii :=
  if (n <? 10)%nat then ascii_of_nat (48 + n) else ascii_of_nat (87 + n).

Definition json_escape_char (c : ascii) : string :=
  let n := nat_of_ascii c in
  if Ascii.eqb c dquote then String backslash (String dquote "")
  else if Ascii.eqb c backslash then String backslash (String backslash "")
  else if (n =? 8)%nat then String backslash "b"
  else if (n =? 9)%nat then String backslash "t"
  else if (n =? 10)%nat then String backslash "n"
  else if (n =? 12)%nat then String backslash "f"
  else if (n =? 13)%nat then String backslash "r"
  else if (n <? 32)%nat then
    String backslash
      (String "u" (String "0" (String "0"
         (String (hex_digit (n / 16)) (String (hex_digit (n mod 16)) "")))))
  else String c "".

Fixpoint json_escape (s : string) : string :=
  match s with
  | EmptyString => ""
  | String c s' => (json_escape_char c ++ json_escape s')%string
  end.

Definition json_quote (s : string) : string :=
  String dquote (json_escape s ++ String dquote "")%string.

Fixpoint json_stringify (v : value) : string :=
  match v with
  | VNull => "null"
  | VBool true => "true"
  | VBool false => "false"
  | VNum n => string_of_Z n
  | VStr s => json_quote s
  | VArr elems =>
      ("[" ++
       (fix items (l : list value) : string :=
          match l with
          | [] => ""
          | e :: l' =>
              json_stringify e
              ++ (match l' with [] => "" | _ :: _ => "," ++ items l' end)
          end) elems
       ++ "]")%string
  | VObj fields =>
      ("{" ++
       (fix members (l : list (string * value)) : string :=
          match l with
          | [] => ""
          | (k, e) :: l' =>
              json_quote k ++ ":" ++ json_stringify e
              ++ (match l' with [] => "" | _ :: _ => "," ++ members l' end)
          end) fields
       ++ "}")%string
  end.

(* ------------------------------------------------------------------ *)
(** ** QueryEngine.applyUpdateToDoc *)

(** A document is the property list of its object. *)
Definition document : Type := list (string * value).

(** A mutation in place that may throw half-way: the object as the code
    left it, and the exception if one was thrown. *)
Definition mutated (A : Type) : Type := (A * option exn)%type.

Definition done {A} (a : A) : mutated A := (a, None).

Definition and_then {A} (m : mutated A) (k : A -> mutated A) : mutated A :=
  match m with
  | (a, None) => k a
  | (a, Some e) => (a, Some e)
  end.

(** [for (const [k, v] of entries) step(k, v)] *)
Fixpoint for_entries {A} (entries : list (string * value))
         (step : string -> value -> A -> mutated A) (a : A) : mutated A :=
  match entries with
  | [] => done a
  | (k, v) :: rest => and_then (step k v a) (for_entries rest step)
  end.

Inductive operation : Type :=
| OpSet | OpUnset | OpInc | OpPush | OpAddToSet | OpPull.

(** [typeof v === 'object'] *)
Definition typeof_object (v : value) : bool :=
  match v with VNull | VArr _ | VObj _ => true | _ => false end.

(** [current[key] = v] on the container reached by a dotted path.  On an
    array a write at an index of its elements replaces the element; any
    other write on an array (a name, [length], an index past the end)
    attaches what no JSON tree carries and is left out.  A property cannot
    be created on [null] or on a primitive (class bodies are strict code). *)
Definition container_set (current : value) (key : string) (v : value)
  : mutated value :=
  match current with
  | VObj fields => done (VObj (obj_set key v fields))
  | VArr elems =>
      match canonical_index key with
      | Some i => done (VArr (list_set i v elems))
      | None => done current
      end
  | _ => (current, Some TypeError)
  end.

(** [delete current[key]]; the hole left in an array reads back as [null]
    once the collection has been saved. *)
Definition container_delete (current : value) (key : string) : mutated value :=
  match current with
  | VObj fields => done (VObj (obj_delete key fields))
  | VArr elems =>
      match canonical_index key with
      | Some i => done (VArr (list_set i VNull elems))
      | None => done current
      end
  | VNull => (current, Some TypeError)
  | _ => done current
  end.

(** [for (const item of v)] *)
Definition iterate (v : value) : result (list value) :=
  match v with
  | VArr l => Ok l
  | VStr s => Ok (map (fun c => VStr (String c "")) (list_ascii_of_string s))
  | _ => Throw TypeError
  end.

Section Update.
Context {rt : JsRuntime}.

(** [n + v]; the sum of two numbers is the double nearest to it. *)
Definition js_plus (n : Z) (v : value) : value :=
  match v with
  | VNum m => VNum (to_double (n + m))
  | VStr s => VStr (string_of_Z n ++ s)
  | VNull => VNum n
  | VBool b => VNum (to_double (n + if b then 1 else 0))
  | _ => rt_plus n v
  end.

Definition number_or_zero (v : option value) : Z :=
  match v with Some (VNum n) => n | _ => 0%Z end.

Definition array_or_empty (v : option value) : list value :=
  match v with Some (VArr l) => l | _ => [] end.

Definition add_to_set (l : list value) (x : value) : list value :=
  if includes l x then l else l ++ [x].

(** The [switch (operation)] of [applyNestedOperation] on
    [current[lastPart]]. *)
Definition leaf_operation (current : value) (lastPart : string)
           (op : operation) (v : value) : mutated value :=
  match op with
  | OpSet => container_set current lastPart v
  | OpUnset => container_delete current lastPart
  | _ =>
      match get_prop current lastPart with
      | Throw e => (current, Some e)
      | Ok old =>
          match op with
          | OpInc => container_set current lastPart (js_plus (number_or_zero old) v)
          | OpPush => container_set current lastPart (VArr (array_or_empty old ++ [v]))
          | OpAddToSet =>
              container_set current lastPart (VArr (add_to_set (array_or_empty old) v))
          | OpPull =>
              match old with
              | Some (VArr l) =>
                  container_set current lastPart
                    (VArr (filter (fun item => negb (strict_eq item v)) l))
              | _ => done current
              end
          | _ => done current
          end
      end
  end.

(** [applyNestedOperation(obj, path, operation, value)] over the parts of
    the path: an intermediate [current[part]] that is [undefined] or not
    an object is replaced by [{}]. *)
Fixpoint applyNestedOperation (current : value) (parts : list string)
         (op : operation) (v : value) : mutated value :=
  match parts with
  | [] => done current
  | [lastPart] => leaf_operation current lastPart op v
  | part :: rest =>
      match get_prop current part with
      | Throw e => (current, Some e)
      | Ok child =>
          let next :=
            match child with
            | Some c => if typeof_object c then c else VObj []
            | None => VObj []
            end in
          let '(next', thrown) := applyNestedOperation next rest op v in
          match container_set current part next' with
          | (current', Some e) => (current', Some e)
          | (current', None) => (current', thrown)
          end
      end
  end.

Definition nested (op : operation) (k : string) (v : value) (doc : document)
  : mutated document :=
  match applyNestedOperation (VObj doc) (split_dot k) op v with
  | (VObj doc', thrown) => (doc', thrown)
  | (_, thrown) => (doc, thrown)
  end.

Definition set_step (k : string) (v : value) (doc : document) : mutated document :=
  if includes_dot k then nested OpSet k v doc
  else done (obj_set k v doc).

Definition unset_step (k : string) (_ : value) (doc : document) : mutated document :=
  if includes_dot k then nested OpUnset k VNull doc
  else done (obj_delete k doc).

Definition inc_step (k : string) (v : value) (doc : document) : mutated document :=
  if includes_dot k then nested OpInc k v doc
  else done (obj_set k (js_plus (number_or_zero (lookup k doc)) v) doc).

Definition push_step (k : string) (v : value) (doc : document) : mutated document :=
  if includes_dot k then nested OpPush k v doc
  else done (obj_set k (VArr (array_or_empty (lookup k doc) ++ [v])) doc).

Definition addToSet_step (k : string) (v : value) (doc : document)
  : mutated document :=
  if includes_dot k then nested OpAddToSet k v doc
  else
    let arr := array_or_empty (lookup k doc) in
    let each :=
      if truthy v && typeof_object v then
        match get_prop v "$each" with
        | Ok (Some e) => if truthy e then Some e else None
        | _ => None
        end
      else None in
    match each with
    | Some e =>
        match iterate e with
        | Ok items => done (obj_set k (VArr (fold_left add_to_set items arr)) doc)
        | Throw x => (obj_set k (VArr arr) doc, Some x)
        end
    | None => done (obj_set k (VArr (add_to_set arr v)) doc)
    end.

(** The callback of the [filter] of [$pull]: [true] keeps the item. *)
Definition pull_keeps (v item : value) : result bool :=
  if typeof_object v then
    p <- get_prop v "$in" ;;
    match p with
    | Some list =>
        if truthy list then b <- expected_includes list item ;; Ok (negb b)
        else Ok (negb (strict_eq item v))
    | None => Ok (negb (strict_eq item v))
    end
  else Ok (negb (strict_eq item v)).

Fixpoint filter_r {A} (f : A -> result bool) (l : list A) : result (list A) :=
  match l with
  | [] => Ok []
  | x :: l' =>
      b <- f x ;;
      rest <- filter_r f l' ;;
      Ok (if b then x :: rest else rest)
  end.

Definition pull_step (k : string) (v : value) (doc : document) : mutated document :=
  if includes_dot k then nested OpPull k v doc
  else
    match lookup k doc with
    | Some (VArr l) =>
        match filter_r (pull_keeps v) l with
        | Ok kept => done (obj_set k (VArr kept) doc)
        | Throw x => (doc, Some x)
        end
    | _ => done doc
    end.

(** [if (update.$op) for (... of Object.entries(update.$op)) step] *)
Definition stage (update : document) (name : string)
           (step : string -> value -> document -> mutated document)
           (doc : document) : mutated document :=
  match lookup name update with
  | Some payload =>
      if truthy payload then for_entries (own_entries payload) step doc
      else done doc
  | None => done doc
  end.

Definition has_key (k : string) (fields : document) : bool :=
  match lookup k fields with Some _ => true | None => false end.

Definition hasRootLevelOperators (update : document) : bool :=
  has_key "$set" update || has_key "$unset" update || has_key "$inc" update
  || has_key "$push" update || has_key "$pull" update
  || has_key "$addToSet" update.

(** QueryEngine.applyUpdateToDoc; [now] is [new Date().toISOString()]. *)
Definition applyUpdateToDoc (now : string) (doc : document)
           (update : option value) : mutated document :=
  let stamp d := done (obj_set "updatedAt" (VStr now) d) in
  match update with
  | None => done doc
  | Some u =>
      if negb (truthy u) then done doc else
      match u with
      | VObj ops =>
          if hasRootLevelOperators ops then
            and_then (stage ops "$set" set_step doc) (fun d =>
            and_then (stage ops "$unset" unset_step d) (fun d =>
            and_then (stage ops "$inc" inc_step d) (fun d =>
            and_then (stage ops "$push" push_step d) (fun d =>
            and_then (stage ops "$addToSet" addToSet_step d) (fun d =>
            and_then (stage ops "$pull" pull_step d) stamp)))))
          else stamp (obj_assign doc ops)
      | VArr _ => stamp (obj_assign doc (own_entries u))
      | _ => (doc, Some TypeError)
      end
  end.
End Update.

(* ------------------------------------------------------------------ *)
(** ** The collection: documents, idIndex and secondary indexes *)

(** A [Map]: its entries in insertion order, keys compared with
    SameValueZero ([strict_eq]; an array or an object used as a key is
    found again by no other object). *)
Section JsMap.
Context {V : Type}.

Fixpoint map_get (k : value) (m : list (value * V)) : option V :=
  match m with
  | [] => None
  | (k', v) :: rest => if strict_eq k' k then Some v else map_get k rest
  end.

Definition map_has (k : value) (m : list (value * V)) : bool :=
  match map_get k m with Some _ => true | None => false end.

Fixpoint map_set (k : value) (v : V) (m : list (value * V)) : list (value * V) :=
  match m with
  | [] => [(k, v)]
  | (k', v') :: rest =>
      if strict_eq k' k then (k', v) :: rest else (k', v') :: map_set k v rest
  end.

Fixpoint map_delete (k : value) (m : list (value * V)) : list (value * V) :=
  match m with
  | [] => []
  | (k', v') :: rest =>
      if strict_eq k' k then rest else (k', v') :: map_delete k rest
  end.
End JsMap.

(** The nested map of a secondary index: [Map]s down to the last field,
    whose entries are arrays of positions in [data]. *)
#[local] Unset Elimination Schemes.

Inductive index_node : Type :=
| Positions (ps : list nat)
| Level (children : list (value * index_node)).

#[local] Set Elimination Schemes.

Record index : Type := {
  ix_fields : list string;
  ix_orders : list value;
  ix_map : index_node
}.

(** A handle names a document object; [data] and the cached result lists
    hold handles, so that a document mutated in place is seen changed
    through both. *)
Definition handle : Type := nat.

Record collection : Type := {
  data : list handle;
  idIndex : list (value * nat);
  indexes : list (string * index);
  dirty : bool
}.

(** The adapter with the collection it serves and the QueryEngine's cache. *)
Record adapter : Type := {
  heap : list document;
  col : collection;
  queryCache : list (string * list handle);
  cacheHits : nat
}.

Definition empty_collection : collection :=
  {| data := []; idIndex := []; indexes := []; dirty := false |}.

Definition new_adapter : adapter :=
  {| heap := []; col := empty_collection; queryCache := []; cacheHits := 0 |}.

Definition deref (hp : list document) (h : handle) : document :=
  nth h hp [].

(** [col.data[i]] *)
Definition doc_at (a : adapter) (i : nat) : option document :=
  option_map (deref a.(heap)) (nth_error a.(col).(data) i).

(** The documents of the collection, in order *)
Definition documents (a : adapter) : list document :=
  map (deref a.(heap)) a.(col).(data).

Definition with_col (a : adapter) (c : collection) : adapter :=
  {| heap := a.(heap); col := c; queryCache := a.(queryCache);
     cacheHits := a.(cacheHits) |}.

Definition with_heap (a : adapter) (hp : list document) : adapter :=
  {| heap := hp; col := a.(col); queryCache := a.(queryCache);
     cacheHits := a.(cacheHits) |}.

Definition set_data (c : collection) (d : list handle) : collection :=
  {| data := d; idIndex := c.(idIndex); indexes := c.(indexes); dirty := c.(dirty) |}.

Definition set_idIndex (c : collection) (ix : list (value * nat)) : collection :=
  {| data := c.(data); idIndex := ix; indexes := c.(indexes); dirty := c.(dirty) |}.

Definition set_indexes (c : collection) (ixs : list (string * index)) : collection :=
  {| data := c.(data); idIndex := c.(idIndex); indexes := ixs; dirty := c.(dirty) |}.

(** [col.dirty = true; this._scheduleSave(name)] *)
Definition mark_dirty (c : collection) : collection :=
  {| data := c.(data); idIndex := c.(idIndex); indexes := c.(indexes); dirty := true |}.

(** The walk shared by [_updateIndexesOnInsert] and [createIndex]: the
    [for] loop over the fields of one index, then [node.push(docIdx)].
    [keys] are the values [doc[field]] still to be read.  The second
    component is [false] when a field was [undefined] and the walk
    returned early; the nodes it had created by then stay. *)
Fixpoint index_add (node : index_node) (keys : list (option value)) (docIdx : nat)
  : mutated (index_node * bool) :=
  match keys with
  | [] =>
      match node with
      | Positions ps => done (Positions (ps ++ [docIdx]), true)
      | Level _ => ((node, true), Some TypeError)
      end
  | None :: _ => done (node, false)
  | Some v :: keys' =>
      match node with
      | Positions _ => ((node, true), Some TypeError)
      | Level children =>
          let child :=
            match map_get v children with
            | Some c => c
            | None => match keys' with [] => Positions [] | _ :: _ => Level [] end
            end in
          let '((child', completed), thrown) := index_add child keys' docIdx in
          ((Level (map_set v child' children), completed), thrown)
      end
  end.

Definition doc_keys (doc : document) (fields : list string) : list (option value) :=
  map (fun f => lookup f doc) fields.

(** LocalAdapter._updateIndexesOnInsert: the [return] on an [undefined]
    field leaves the function, and the indexes after that one are not
    visited. *)
Fixpoint _updateIndexesOnInsert (ixs : list (string * index)) (doc : document)
         (docIdx : nat) : mutated (list (string * index)) :=
  match ixs with
  | [] => done []
  | (name, ix) :: rest =>
      let '((m, completed), thrown) :=
        index_add ix.(ix_map) (doc_keys doc ix.(ix_fields)) docIdx in
      let ix' := {| ix_fields := ix.(ix_fields); ix_orders := ix.(ix_orders);
                    ix_map := m |} in
      match thrown with
      | Some e => ((name, ix') :: rest, Some e)
      | None =>
          if completed then
            let '(rest', thrown') := _updateIndexesOnInsert rest doc docIdx in
            ((name, ix') :: rest', thrown')
          else done ((name, ix') :: rest)
      end
  end.

Fixpoint remove_first (x : nat) (l : list nat) : list nat :=
  match l with
  | [] => []
  | y :: l' => if (y =? x)%nat then l' else y :: remove_first x l'
  end.

Definition node_size (n : index_node) : nat :=
  match n with
  | Positions ps => length ps
  | Level children => length children
  end.

(** The walk and the clean-up loop of [_removeFromIndex] below [node].
    The boolean tells whether the clean-up loop is still running when it
    comes back to [node]: the array was emptied and every map below was
    deleted in turn. *)
Fixpoint index_remove (node : index_node) (keys : list (option value)) (docIdx : nat)
  : mutated (index_node * bool) :=
  match keys with
  | [] => done (node, false)
  | None :: _ => done (node, false)
  | Some v :: keys' =>
      match node with
      | Positions _ => ((node, false), Some TypeError)
      | Level children =>
          match map_get v children with
          | None => done (node, false)
          | Some child =>
              match keys' with
              | [] =>
                  match child with
                  | Positions ps =>
                      if existsb (Nat.eqb docIdx) ps then
                        match remove_first docIdx ps with
                        | [] => done (Level (map_delete v children), true)
                        | ps' => done (Level (map_set v (Positions ps') children), false)
                        end
                      else done (node, false)
                  | Level _ => done (node, false)
                  end
              | _ :: _ =>
                  let '((child', cleaning), thrown) := index_remove child keys' docIdx in
                  match thrown with
                  | Some e => ((Level (map_set v child' children), false), Some e)
                  | None =>
                      if cleaning && (node_size child' =? 0)%nat
                      then done (Level (map_delete v children), true)
                      else done (Level (map_set v child' children), false)
                  end
              end
          end
      end
  end.

(** LocalAdapter._removeFromIndex *)
Definition _removeFromIndex (ix : index) (doc : document) (docIdx : nat)
  : mutated index :=
  let '((m, _), thrown) := index_remove ix.(ix_map) (doc_keys doc ix.(ix_fields)) docIdx in
  ({| ix_fields := ix.(ix_fields); ix_orders := ix.(ix_orders); ix_map := m |}, thrown).

(* ------------------------------------------------------------------ *)
(** ** Response envelopes *)

Definition error_info (message : string) (code : Z) : value :=
  VObj [("message", VStr message); ("code", VNum code)].

Definition envelope (success : bool) (payload : value) (error : value) : value :=
  VObj [("success", VBool success); ("data", payload); ("error", error)].

(** The envelope of [find], which carries [total] as well. *)
Definition find_envelope (success : bool) (payload : value) (total : nat)
           (error : value) : value :=
  VObj [("success", VBool success); ("data", payload);
        ("total", VNum (Z.of_nat total)); ("error", error)].

(** [error.message || fallback]; the text an engine gives a TypeError is
    represented by its name. *)
Definition message_or (e : exn) (fallback : string) : string :=
  match e with
  | TypeError => "TypeError"
  | Error m => if m =? "" then fallback else m
  end.

Definition failure (e : exn) (fallback : string) (code : Z) : value :=
  envelope false VNull (error_info (message_or e fallback) code).

(** A property of a response object that may be [undefined] *)
Definition prop_opt (k : string) (v : option value) : list (string * value) :=
  match v with Some x => [(k, x)] | None => [] end.

Definition null_if_undefined (v : option value) : value :=
  match v with Some x => x | None => VNull end.

(* ------------------------------------------------------------------ *)
(** ** QueryEngine.applyFilters and count, with the query cache *)

Definition cacheSize : nat := 1000.

Fixpoint cache_get (k : string) (c : list (string * list handle))
  : option (list handle) :=
  match c with
  | [] => None
  | (k', r) :: rest => if k' =? k then Some r else cache_get k rest
  end.

(** [JSON.stringify(filter) + data.length] *)
Definition cacheKey (filter : value) (dataset : list handle) : string :=
  (json_stringify filter ++ string_of_nat (length dataset))%string.

(** [!filter || Object.keys(filter).length === 0] *)
Definition no_filter (filter : value) : bool :=
  negb (truthy filter) || (length (own_entries filter) =? 0)%nat.

Section Adapter.
Context {rt : JsRuntime}.

Definition matches (hp : list document) (filter : value) (h : handle)
  : result bool :=
  matchesFilter (VObj (deref hp h)) filter.

(** QueryEngine.applyFilters: the result list and the engine after the
    call.  A list found in the cache is returned as it was stored. *)
Definition applyFilters (a : adapter) (dataset : list handle) (filter : value)
  : adapter * result (list handle) :=
  if no_filter filter then (a, Ok dataset) else
  let key := cacheKey filter dataset in
  match cache_get key a.(queryCache) with
  | Some cached =>
      ({| heap := a.(heap); col := a.(col); queryCache := a.(queryCache);
          cacheHits := S a.(cacheHits) |}, Ok cached)
  | None =>
      match filter_r (matches a.(heap) filter) dataset with
      | Throw e => (a, Throw e)
      | Ok results =>
          let evicted :=
            if (cacheSize <=? length a.(queryCache))%nat
            then tl a.(queryCache) else a.(queryCache) in
          ({| heap := a.(heap); col := a.(col);
              queryCache := evicted ++ [(key, results)];
              cacheHits := a.(cacheHits) |}, Ok results)
      end
  end.

(** QueryEngine.count *)
Definition engine_count (a : adapter) (dataset : list handle) (filters : value)
  : adapter * result nat :=
  if no_filter filters then (a, Ok (length dataset)) else
  match applyFilters a dataset filters with
  | (a', Ok r) => (a', Ok (length r))
  | (a', Throw e) => (a', Throw e)
  end.

(** [if (filters && typeof filters !== 'object') throw new Error(...)] *)
Definition check_filters (filters : value) : result unit :=
  if truthy filters && negb (typeof_object filters)
  then Throw (Error "Filters must be an object") else Ok tt.

(** LocalAdapter.count *)
Definition count (a : adapter) (filters : value) : adapter * value :=
  match check_filters filters with
  | Throw e => (a, failure e "Failed to count documents" 500)
  | Ok _ =>
      match engine_count a a.(col).(data) filters with
      | (a', Ok n) => (a', envelope true (VNum (Z.of_nat n)) VNull)
      | (a', Throw e) => (a', failure e "Failed to count documents" 500)
      end
  end.

Definition validOperators : list string :=
  ["$eq"; "$ne"; "$gt"; "$gte"; "$lt"; "$lte"; "$in"; "$nin";
   "$exists"; "$regex"; "$and"; "$or"; "$not"].

Definition is_valid_operator (k : string) : bool :=
  existsb (String.eqb k) validOperators.

Definition invalid_operator_message (key : string) : string :=
  ("Invalid query operator: " ++ key ++ ". Valid operators: "
   ++ "$eq, $ne, $gt, $gte, $lt, $lte, $in, $nin, $exists, $regex, $and, $or, $not")%string.

(** The [validateFilter] closure of [find]: [for (const key in filter)],
    going into every value that is an object or an array. *)
Fixpoint validateFilter (filter : value) : result unit :=
  match filter with
  | VObj fields =>
      (fix each (fs : list (string * value)) : result unit :=
         match fs with
         | [] => Ok tt
         | (key, v) :: fs' =>
             if starts_with_dollar key && negb (is_valid_operator key)
             then Throw (Error (invalid_operator_message key))
             else
               _ <- (if truthy v && typeof_object v then validateFilter v
                     else Ok tt) ;;
               each fs'
         end) fields
  | VArr elems =>
      (fix each (l : list value) : result unit :=
         match l with
         | [] => Ok tt
         | v :: l' =>
             _ <- (if truthy v && typeof_object v then validateFilter v
                   else Ok tt) ;;
             each l'
         end) elems
  | _ => Ok tt
  end.

Definition find_failure (e : exn) : value :=
  find_envelope false (VArr []) 0
    (error_info (message_or e "An unexpected error occurred during find") 500).

(** LocalAdapter.find called with [options] left at its default [{}]:
    the sort, skip, limit and fields stages are each under
    [if (options.x)] and do not run, and no [pagination] is attached. *)
Definition find (a : adapter) (filters : value) : adapter * value :=
  match check_filters filters with
  | Throw e => (a, find_failure e)
  | Ok _ =>
      match validateFilter filters with
      | Throw e => (a, find_failure e)
      | Ok _ =>
          match applyFilters a a.(col).(data) filters with
          | (a', Throw e) => (a', find_failure e)
          | (a', Ok allResults) =>
              let total := length allResults in
              if (total =? 0)%nat then
                (a', find_envelope false (VArr []) 0
                       (error_info "No documents found matching the criteria" 404))
              else
                (a', find_envelope true
                       (VArr (map (fun h => VObj (deref a'.(heap) h)) allResults))
                       total VNull)
          end
      end
  end.
End Adapter.

(* ------------------------------------------------------------------ *)
(** ** LocalAdapter: insert *)

(** The running state of the loop of [insert]. *)
Record insert_loop : Type := {
  il_adapter : adapter;
  il_inserted : list handle;
  il_updated : list handle;
  il_sequence : nat;
  il_allIdsWereGenerated : bool
}.

Definition list_update {A} (i : nat) (f : A -> A) (l : list A) : list A :=
  match nth_error l i with
  | Some x => list_set i (f x) l
  | None => l
  end.

(** [`${prefix}_${sequence}`] *)
Definition sequential_id (prefix : string) (sequence : nat) : string :=
  (prefix ++ "_" ++ string_of_nat sequence)%string.

(** [doc.createdAt || now] *)
Definition createdAt_or (now : string) (doc : document) : value :=
  match lookup "createdAt" doc with
  | Some c => if truthy c then c else VStr now
  | None => VStr now
  end.

(** [!docId] for [docId = doc.id] *)
Definition idless (doc : document) : bool := negb (truthy_opt (lookup "id" doc)).

(** [sequence] after the turn of [doc]: [sequence++] for a document
    without id when ids are sequential. *)
Definition next_sequence (useSequentialIds : bool) (sequence : nat)
           (doc : document) : nat :=
  if idless doc && useSequentialIds then S sequence else sequence.

(** The [docId] of the turn of [doc]: [String(doc.id)], or the next
    sequential id, or the generated one. *)
Definition next_docId (prefix generated : string) (useSequentialIds : bool)
           (sequence : nat) (doc : document) : string :=
  match lookup "id" doc with
  | Some i =>
      if truthy i then js_String i
      else if useSequentialIds
           then sequential_id prefix (next_sequence useSequentialIds sequence doc)
           else generated
  | None =>
      if useSequentialIds
      then sequential_id prefix (next_sequence useSequentialIds sequence doc)
      else generated
  end.

(** The upsert branch on [existingDoc]:
    [originalCreatedAt = existingDoc.createdAt; Object.assign(existingDoc, doc);
     existingDoc.createdAt = originalCreatedAt; existingDoc.updatedAt = now] *)
Definition upsert_merge (now : string) (existingDoc doc : document) : document :=
  let originalCreatedAt := lookup "createdAt" existingDoc in
  obj_set "updatedAt" (VStr now)
    (obj_set_opt "createdAt" originalCreatedAt (obj_assign existingDoc doc)).

(** The fresh branch on [doc]: [doc.createdAt = doc.createdAt || now] *)
Definition stamp_created (now : string) (doc : document) : document :=
  obj_set "createdAt" (createdAt_or now doc) doc.

(** One turn of [for (let doc of toInsert)].  [now] is the time stamp
    taken on entry, [prefix] is [Date.now().toString(36)] and
    [generated] the value of [this.generateId()]. *)
Definition insert_step (now prefix generated : string) (useSequentialIds : bool)
           (st : insert_loop) (doc : document) : mutated insert_loop :=
  let a := st.(il_adapter) in
  let c := a.(col) in
  let sequence := next_sequence useSequentialIds st.(il_sequence) doc in
  let docId := next_docId prefix generated useSequentialIds st.(il_sequence) doc in
  let allGenerated := st.(il_allIdsWereGenerated) && idless doc in
  let doc := obj_set "id" (VStr docId) doc in
  match map_get (VStr docId) c.(idIndex) with
  | Some existingIndex =>
      match nth_error c.(data) existingIndex with
      | None =>
          ({| il_adapter := a; il_inserted := st.(il_inserted);
              il_updated := st.(il_updated); il_sequence := sequence;
              il_allIdsWereGenerated := allGenerated |}, Some TypeError)
      | Some h =>
          let merged := upsert_merge now (deref a.(heap) h) doc in
          done {| il_adapter := with_heap a (list_set h merged a.(heap));
                  il_inserted := st.(il_inserted);
                  il_updated := st.(il_updated) ++ [h];
                  il_sequence := sequence;
                  il_allIdsWereGenerated := allGenerated |}
      end
  | None =>
      let doc := stamp_created now doc in
      let h := length a.(heap) in
      let newIndex := length c.(data) in
      let '(ixs, thrown) := _updateIndexesOnInsert c.(indexes) doc newIndex in
      let c' :=
        {| data := c.(data) ++ [h];
           idIndex := map_set (VStr docId) newIndex c.(idIndex);
           indexes := ixs;
           dirty := c.(dirty) |} in
      let a' :=
        {| heap := a.(heap) ++ [doc]; col := c';
           queryCache := a.(queryCache); cacheHits := a.(cacheHits) |} in
      match thrown with
      | Some e =>
          ({| il_adapter := a'; il_inserted := st.(il_inserted);
              il_updated := st.(il_updated); il_sequence := sequence;
              il_allIdsWereGenerated := allGenerated |}, Some e)
      | None =>
          done {| il_adapter := a'; il_inserted := st.(il_inserted) ++ [h];
                  il_updated := st.(il_updated); il_sequence := sequence;
                  il_allIdsWereGenerated := allGenerated |}
      end
  end.

Fixpoint insert_loop_run (now prefix generated : string) (useSequentialIds : bool)
         (toInsert : list document) (st : insert_loop) : mutated insert_loop :=
  match toInsert with
  | [] => done st
  | doc :: rest =>
      and_then (insert_step now prefix generated useSequentialIds st doc)
               (insert_loop_run now prefix generated useSequentialIds rest)
  end.

Definition doc_id (hp : list document) (h : handle) : option value :=
  lookup "id" (deref hp h).

(** The [responseData] of [insert] *)
Definition insert_response (prefix : string) (useSequentialIds : bool)
           (st : insert_loop) : document :=
  let hp := st.(il_adapter).(heap) in
  let inserted := st.(il_inserted) in
  [("insertedCount", VNum (Z.of_nat (length inserted)));
   ("updatedCount", VNum (Z.of_nat (length st.(il_updated))))]
  ++ (if (0 <? length inserted)%nat then
        if (20 <? length inserted)%nat then
          prop_opt "firstId" (doc_id hp (hd 0 inserted))
          ++ prop_opt "lastId" (doc_id hp (last inserted 0))
          ++ (if st.(il_allIdsWereGenerated) && useSequentialIds
              then [("prefix", VStr (prefix ++ "_"))] else [])
        else
          [("insertedIds",
            VArr (map (fun h => null_if_undefined (doc_id hp h)) inserted))]
      else []).

(** [if (inserted.length > 0 || updated.length > 0) { col.dirty = true; ... }] *)
Definition touched (st : insert_loop) : adapter :=
  let a := st.(il_adapter) in
  if (0 <? length st.(il_inserted))%nat || (0 <? length st.(il_updated))%nat
  then with_col a (mark_dirty a.(col)) else a.

(** LocalAdapter.insert.  [toInsert] is the array [data], or [[data]]
    for a single document; the documents are objects. *)
Definition insert (now prefix generated : string) (a : adapter)
           (toInsert : list document) : adapter * value :=
  let useSequentialIds := (2 <=? length toInsert)%nat in
  let start :=
    {| il_adapter := a; il_inserted := []; il_updated := [];
       il_sequence := 0; il_allIdsWereGenerated := true |} in
  match insert_loop_run now prefix generated useSequentialIds toInsert start with
  | (st, Some e) => (st.(il_adapter), failure e "Failed to insert documents" 500)
  | (st, None) =>
      (touched st,
       envelope true (VObj (insert_response prefix useSequentialIds st)) VNull)
  end.

(* ------------------------------------------------------------------ *)
(** ** LocalAdapter: update, updateById *)

Section Writes.
Context {rt : JsRuntime}.

(** [ops.$set || ops.$inc || ops.$push || ops.$pull || ops.$unset ||
    ops.$addToSet ? ops : { $set: ops }]; reading a property of
    [undefined] or [null] throws. *)
Definition normalizedUpdate (updateOperations : option value) : result value :=
  match updateOperations with
  | None | Some VNull => Throw TypeError
  | Some u =>
      let has k :=
        match get_prop u k with Ok p => truthy_opt p | Throw _ => false end in
      if has "$set" || has "$inc" || has "$push" || has "$pull"
         || has "$unset" || has "$addToSet"
      then Ok u else Ok (VObj [("$set", u)])
  end.

(** The loop of [update] over the positions of [data] still to visit:
    the heap after it, the handles of the documents updated, and the
    exception that stopped it, if any. *)
Fixpoint update_loop (now : string) (filters update : value)
         (todo : list handle) (hp : list document) (updatedDocs : list handle)
  : mutated (list document * list handle) :=
  match todo with
  | [] => done (hp, updatedDocs)
  | h :: rest =>
      match matches hp filters h with
      | Throw e => ((hp, updatedDocs), Some e)
      | Ok false => update_loop now filters update rest hp updatedDocs
      | Ok true =>
          let '(doc', thrown) := applyUpdateToDoc now (deref hp h) (Some update) in
          match thrown with
          | Some e => ((list_set h doc' hp, updatedDocs), Some e)
          | None =>
              let doc'' := obj_set "updatedAt" (VStr now) doc' in
              update_loop now filters update rest
                          (list_set h doc'' hp) (updatedDocs ++ [h])
          end
      end
  end.

(** [returnType] is ['count'], ['ids'] or ['documents'] and [maxReturn]
    a count. *)
Definition update_response (returnType : string) (maxReturn : nat)
           (hp : list document) (updatedDocs : list handle) : document :=
  let truncation :=
    if (maxReturn <? length updatedDocs)%nat
    then [("truncated", VBool true);
          ("total", VNum (Z.of_nat (length updatedDocs)));
          ("maxReturn", VNum (Z.of_nat maxReturn))]
    else [] in
  [("updatedCount", VNum (Z.of_nat (length updatedDocs)))]
  ++ (if returnType =? "ids" then
        [("updatedIds",
          VArr (firstn maxReturn
                  (map (fun h => null_if_undefined (doc_id hp h)) updatedDocs)))]
        ++ truncation
      else if returnType =? "documents" then
        [("documents",
          VArr (firstn maxReturn (map (fun h => VObj (deref hp h)) updatedDocs)))]
        ++ truncation
      else []).

(** LocalAdapter.update *)
Definition update (now : string) (a : adapter) (filters : value)
           (updateOperations : option value) (returnType : string)
           (maxReturn : nat) : adapter * value :=
  match normalizedUpdate updateOperations with
  | Throw e => (a, failure e "Failed to update documents" 500)
  | Ok u =>
      match update_loop now filters u a.(col).(data) a.(heap) [] with
      | ((hp, _), Some e) =>
          (with_heap a hp, failure e "Failed to update documents" 500)
      | ((hp, updatedDocs), None) =>
          let a' := with_heap a hp in
          match updatedDocs with
          | [] =>
              (a', envelope false VNull
                     (error_info "No documents matched the filters" 404))
          | _ :: _ =>
              (with_col a' (mark_dirty a'.(col)),
               envelope true
                 (VObj (update_response returnType maxReturn hp updatedDocs))
                 VNull)
          end
      end
  end.

(** [col.data.findIndex(d => d.id === id)] *)
Fixpoint findIndex_id (hp : list document) (id : value) (l : list handle) (i : nat)
  : option nat :=
  match l with
  | [] => None
  | h :: l' =>
      if strict_eq_opt (doc_id hp h) (Some id) then Some i
      else findIndex_id hp id l' (S i)
  end.

(** LocalAdapter.updateById; [returnType] is ['id'] or ['document']. *)
Definition updateById (now : string) (a : adapter) (id : value)
           (updateOperations : option value) (returnType : string)
  : adapter * value :=
  let c := a.(col) in
  let docIndex :=
    match map_get id c.(idIndex) with
    | Some i => Some i
    | None => findIndex_id a.(heap) id c.(data) 0
    end in
  match docIndex with
  | None => (a, envelope false VNull (error_info "Document not found" 404))
  | Some i =>
      match nth_error c.(data) i with
      | None =>
          if truthy_opt updateOperations
          then (a, failure TypeError "Failed to update document" 400)
          else (with_col a (mark_dirty c),
                envelope true
                  (VObj [("updatedCount", VNum 1); ("updatedId", id)]) VNull)
      | Some h =>
          let '(doc', thrown) := applyUpdateToDoc now (deref a.(heap) h) updateOperations in
          let a' := with_heap a (list_set h doc' a.(heap)) in
          match thrown with
          | Some e => (a', failure e "Failed to update document" 400)
          | None =>
              (with_col a' (mark_dirty c),
               envelope true
                 (VObj ([("updatedCount", VNum 1); ("updatedId", id)]
                        ++ (if returnType =? "document"
                            then [("document", VObj doc')] else [])))
                 VNull)
          end
      end
  end.

(* ---------------------------------------------------------------- *)
(** ** LocalAdapter: delete, deleteById, createIndex *)

(** [col.data.forEach((doc, idx) => { if (doc.id) col.idIndex.set(doc.id, idx) })]
    from position [idx] on. *)
Fixpoint reindex_from (hp : list document) (l : list handle) (idx : nat)
         (ix : list (value * nat)) : list (value * nat) :=
  match l with
  | [] => ix
  | h :: l' =>
      reindex_from hp l' (S idx)
        (match doc_id hp h with
         | Some i => if truthy i then map_set i idx ix else ix
         | None => ix
         end)
  end.

(** LocalAdapter.delete *)
Definition delete (a : adapter) (filters : value) : adapter * value :=
  let c := a.(col) in
  match filter_r (matches a.(heap) filters) c.(data) with
  | Throw e => (a, failure e "Failed to delete documents" 500)
  | Ok matching =>
      match filter_r (fun h => not_r (matches a.(heap) filters h)) c.(data) with
      | Throw e => (a, failure e "Failed to delete documents" 500)
      | Ok kept =>
          let deleted := length c.(data) - length kept in
          if (0 <? deleted)%nat then
            (with_col a
               {| data := kept;
                  idIndex := reindex_from a.(heap) kept 0 [];
                  indexes := c.(indexes);
                  dirty := true |},
             envelope true (VObj [("deletedCount", VNum (Z.of_nat deleted))]) VNull)
          else
            (with_col a (set_data c kept),
             envelope false VNull
               (error_info "No documents matched the filters" 404))
      end
  end.

(** The loop of [deleteById] over the secondary indexes *)
Fixpoint remove_from_indexes (ixs : list (string * index)) (doc : document)
         (docIdx : nat) : mutated (list (string * index)) :=
  match ixs with
  | [] => done []
  | (name, ix) :: rest =>
      match _removeFromIndex ix doc docIdx with
      | (ix', Some e) => ((name, ix') :: rest, Some e)
      | (ix', None) =>
          let '(rest', thrown) := remove_from_indexes rest doc docIdx in
          ((name, ix') :: rest', thrown)
      end
  end.

(** LocalAdapter.deleteById *)
Definition deleteById (a : adapter) (id : value) : adapter * value :=
  let c := a.(col) in
  match map_get id c.(idIndex) with
  | None => (a, envelope false VNull (error_info "Document not found" 404))
  | Some docIdx =>
      let data' := list_remove_at docIdx c.(data) in
      let idIndex' := map_delete id c.(idIndex) in
      match nth_error c.(data) docIdx with
      | None =>
          match c.(indexes) with
          | [] =>
              (with_col a
                 {| data := data'; idIndex := idIndex'; indexes := [];
                    dirty := true |},
               envelope true
                 (VObj [("deletedCount", VNum 1); ("deletedId", id)]) VNull)
          | _ :: _ =>
              (with_col a
                 {| data := data'; idIndex := idIndex';
                    indexes := c.(indexes); dirty := c.(dirty) |},
               failure TypeError "Failed to delete document by ID" 500)
          end
      | Some h =>
          let doc := deref a.(heap) h in
          match remove_from_indexes c.(indexes) doc docIdx with
          | (ixs, Some e) =>
              (with_col a
                 {| data := data'; idIndex := idIndex'; indexes := ixs;
                    dirty := c.(dirty) |},
               failure e "Failed to delete document by ID" 500)
          | (ixs, None) =>
              (with_col a
                 {| data := data';
                    idIndex :=
                      reindex_from a.(heap) (skipn docIdx data') docIdx idIndex';
                    indexes := ixs;
                    dirty := true |},
               envelope true
                 (VObj [("deletedCount", VNum 1); ("deletedId", id)]) VNull)
          end
      end
  end.

(** The scan of [createIndex]: a document lacking a field is skipped. *)
Fixpoint index_scan (fields : list string) (hp : list document)
         (l : list handle) (docIdx : nat) (node : index_node)
  : mutated index_node :=
  match l with
  | [] => done node
  | h :: l' =>
      match index_add node (doc_keys (deref hp h) fields) docIdx with
      | ((node', _), Some e) => (node', Some e)
      | ((node', _), None) => index_scan fields hp l' (S docIdx) node'
      end
  end.

(** [fields.map(f => `${f}:${indexDef[f]}`).join('|')] *)
Fixpoint indexKey (indexDef : list (string * value)) : string :=
  match indexDef with
  | [] => ""
  | (f, o) :: rest =>
      (f ++ ":" ++ js_String o
       ++ match rest with [] => "" | _ :: _ => "|" ++ indexKey rest end)%string
  end.

Definition is_order (o : value) : bool :=
  strict_eq o (VNum 1) || strict_eq o (VNum (-1)).

(** LocalAdapter.createIndex *)
Definition createIndex (a : adapter) (indexDef : value) : adapter * value :=
  let c := a.(col) in
  match indexDef with
  | VNull => (a, failure TypeError "Failed to create index" 500)
  | _ =>
      let entries := own_entries indexDef in
      let fields := map fst entries in
      let orders := map snd entries in
      if (length fields =? 0)%nat then
        (a, envelope false VNull (error_info "Index definition cannot be empty" 400))
      else if negb (forallb is_order orders) then
        (a, envelope false VNull (error_info "Index order must be 1 or -1" 400))
      else if existsb (fun e => fst e =? indexKey entries) c.(indexes) then
        (a, envelope false VNull (error_info "Index already exists" 409))
      else
        match index_scan fields a.(heap) c.(data) 0 (Level []) with
        | (_, Some e) => (a, failure e "Failed to create index" 500)
        | (m, None) =>
            let ix := {| ix_fields := fields; ix_orders := orders; ix_map := m |} in
            (with_col a (set_indexes c (c.(indexes) ++ [(indexKey entries, ix)])),
             envelope true
               (VObj [("fields", VArr (map VStr fields));
                      ("orders", VArr orders);
                      ("size", VNum (Z.of_nat (node_size m)))])
               VNull)
        end
  end.
End Writes.

(* ================================================================== *)
(** * What the properties are stated with *)

Definition is_scalar (v : value) : bool :=
  match v with VArr _ | VObj _ => false | _ => true end.

(** Case analysis on the condition of the first conditional of the goal. *)
Ltac case_if :=
  match goal with
  | |- context [if ?c then _ else _] => destruct c
  end.

Definition dot_free (s : string) : bool := negb (includes_dot s).

(** The results of evaluating a sub-path on each element, in order, with
    arrays spread one level. *)
Fixpoint gather (f : value -> result (option value)) (l : list value)
  : result (list value) :=
  match l with
  | [] => Ok []
  | el :: l' => v <- f el ;; tl <- gather f l' ;; Ok (collect v ++ tl)
  end.

(** The same engine with an empty query cache: what it returns is computed
    from the documents as they are. *)
Definition clear_cache (a : adapter) : adapter :=
  {| heap := a.(heap); col := a.(col); queryCache := []; cacheHits := a.(cacheHits) |}.

(** For every document at position [i] with a defined id, [idIndex] maps
    the id to [i]; and [idIndex] has no other entry. *)
Definition idIndex_exact (a : adapter) : Prop :=
  (forall i d v, doc_at a i = Some d -> lookup "id" d = Some v ->
                 map_get v a.(col).(idIndex) = Some i)
  /\ (forall k i, In (k, i) a.(col).(idIndex) ->
                  exists d, doc_at a i = Some d /\ lookup "id" d = Some k).

(** The entries of an index: each stored position with the key tuple it
    is filed under. *)
Fixpoint index_entries (node : index_node) : list (list value * nat) :=
  match node with
  | Positions ps => map (fun p => ([], p)) ps
  | Level children =>
      (fix under (cs : list (value * index_node)) : list (list value * nat) :=
         match cs with
         | [] => []
         | (k, child) :: cs' =>
             map (fun e => (k :: fst e, snd e)) (index_entries child) ++ under cs'
         end) children
  end.

(** An index is consistent with [data] when every document whose indexed
    fields are all defined is filed exactly once, under its key tuple and
    at its position, and every entry is the key tuple and the position of
    a document of [data] (so a document lacking a field has no entry and
    every position is current). *)
Definition index_consistent (a : adapter) (ix : index) : Prop :=
  let entries := index_entries ix.(ix_map) in
  (forall i d ks,
      doc_at a i = Some d ->
      doc_keys d ix.(ix_fields) = map Some ks ->
      exists n, nth_error entries n = Some (ks, i)
                /\ forall m, nth_error entries m = Some (ks, i) -> m = n)
  /\ (forall ks p,
         In (ks, p) entries ->
         exists d, doc_at a p = Some d /\ doc_keys d ix.(ix_fields) = map Some ks).

Definition indexes_consistent (a : adapter) : Prop :=
  forall name ix, In (name, ix) a.(col).(indexes) -> index_consistent a ix.

(** Every handle of [data] names a document object. *)
Definition handles_valid (a : adapter) : Prop :=
  forall h, In h a.(col).(data) -> h < length a.(heap).

Definition well_formed (a : adapter) : Prop :=
  handles_valid a /\ idIndex_exact a.

(** The keys of an object are distinct. *)
Definition keys_distinct (doc : document) : Prop := NoDup (map fst doc).

(** What a turn that took the upsert branch did. *)
Definition upserted (now : string) (st st' : insert_loop) (doc : document) (docId : string) : Prop :=
  exists i h,
    map_get (VStr docId) st.(il_adapter).(col).(idIndex) = Some i
    /\ nth_error st.(il_adapter).(col).(data) i = Some h
    /\ st'.(il_adapter).(heap)
       = list_set h (upsert_merge now (deref st.(il_adapter).(heap) h)
                                  (obj_set "id" (VStr docId) doc))
                  st.(il_adapter).(heap)
    /\ st'.(il_adapter).(col) = st.(il_adapter).(col)
    /\ st'.(il_inserted) = st.(il_inserted)
    /\ st'.(il_updated) = st.(il_updated) ++ [h].

(** What a turn that took the fresh branch did. *)
Definition appended (now : string) (st st' : insert_loop) (doc : document) (docId : string) : Prop :=
  let h := length st.(il_adapter).(heap) in
  map_get (VStr docId) st.(il_adapter).(col).(idIndex) = None
  /\ st'.(il_adapter).(heap)
     = st.(il_adapter).(heap) ++ [stamp_created now (obj_set "id" (VStr docId) doc)]
  /\ st'.(il_adapter).(col).(data) = st.(il_adapter).(col).(data) ++ [h]
  /\ st'.(il_inserted) = st.(il_inserted) ++ [h]
  /\ st'.(il_updated) = st.(il_updated).

(** [doc] carries an id that [idIndex] knows. *)
Definition known_id (c : collection) (doc : document) : Prop :=
  exists supplied i,
    lookup "id" doc = Some supplied /\ truthy supplied = true
    /\ map_get (VStr (js_String supplied)) c.(idIndex) = Some i.

(** [doc] carries the id of a document of the collection. *)
Definition upserts (a : adapter) (doc : document) : Prop :=
  exists supplied i existing,
    lookup "id" doc = Some supplied /\ truthy supplied = true
    /\ doc_at a i = Some existing
    /\ lookup "id" existing = Some (VStr (js_String supplied)).

(** [String(doc.id)] for a document that brings an id *)
Definition supplied_id (doc : document) : string :=
  match lookup "id" doc with
  | Some v => js_String v
  | None => ""
  end.

(** [doc] brings the id of [existing]. *)
Definition addressed_to (existing doc : document) : bool :=
  match lookup "id" existing with
  | Some (VStr s) => truthy_opt (lookup "id" doc) && (supplied_id doc =? s)
  | _ => false
  end.

(** What the insert of [doc] does to the document [existing] of the
    collection: the merge when [doc] brings its id, nothing otherwise. *)
Definition apply_upsert (now : string) (existing doc : document) : document :=
  if addressed_to existing doc
  then upsert_merge now existing (obj_set "id" (VStr (supplied_id doc)) doc)
  else existing.

(** [sequence] when the turn of the [n]-th document starts *)
Definition sequence_before (useSequentialIds : bool) (docs : list document)
           (n : nat) (sequence : nat) : nat :=
  fold_left (next_sequence useSequentialIds) (firstn n docs) sequence.

(** The documents appended to [data] by an operation that led from [a] to
    [a']. *)
Definition appended_documents (a a' : adapter) : list document :=
  skipn (length (documents a)) (documents a').

(** [d] has the fields of [doc], apart from [id], [createdAt] and
    [updatedAt], which insert sets itself. *)
Definition carries (d doc : document) : Prop :=
  forall key v,
    key <> "id" -> key <> "createdAt" -> key <> "updatedAt" ->
    lookup key doc = Some v -> lookup key d = Some v.

(** ** Scenarios *)

Section Scenarios.
Context {rt : JsRuntime}.

Definition x_is (n : Z) : value := VObj [("x", VNum n)].

(** insert [{id: "a", x: 1}]; find [{x: 1}]; update [{x: 1}] with
    [{$set: {x: 2}}]. *)
Definition after_insert_find_update : adapter :=
  let a0 := fst (insert "t0" "p" "g" new_adapter [[("id", VStr "a"); ("x", VNum 1)]]) in
  let a1 := fst (find a0 (x_is 1)) in
  fst (update "t1" a1 (x_is 1) (Some (VObj [("$set", x_is 2)])) "count" 50).

(** insert [{id: "a", n: 1}] *)
Definition after_insert_a : adapter :=
  fst (insert "t0" "p" "g" new_adapter [[("id", VStr "a"); ("n", VNum 1)]]).

(** ... then updateById("a", [{$set: {id: "b"}}]) *)
Definition after_id_update : adapter :=
  fst (updateById "t1" after_insert_a (VStr "a")
         (Some (VObj [("$set", VObj [("id", VStr "b")])])) "id").

(** insert [{id: "a", x: 1}, {id: "b", x: 2}]; createIndex [{x: 1}] *)
Definition indexed_on_x : adapter :=
  let a0 := fst (insert "t0" "p" "g" new_adapter
                   [[("id", VStr "a"); ("x", VNum 1)];
                    [("id", VStr "b"); ("x", VNum 2)]]) in
  fst (createIndex a0 (VObj [("x", VNum 1)])).

Definition x_index (m : index_node) : index :=
  {| ix_fields := ["x"]; ix_orders := [VNum 1]; ix_map := m |}.
End Scenarios.

(* ------------------------------------------------------------------ *)
(** ** What the further properties are stated with *)

(** The filter [{$not: f}] *)
Definition not_clause (f : value) : value := VObj [("$not", f)].

(** The integers on which the arithmetic of doubles is exact *)
Definition safe_integer (z : Z) : Prop := (Z.abs z <= 2 ^ 53)%Z.

(** A document of plain field names (no dot) with scalar values *)
Definition plain_fields (v : value) : bool :=
  match v with
  | VObj fs => forallb (fun e => dot_free (fst e) && is_scalar (snd e)) fs
  | _ => false
  end.

(** An update that stores no array and no object in a document and
    writes through no dotted path: its operators are among [$set],
    [$unset], [$push], [$addToSet] and [$pull], each on plain field names
    with scalar values, and its other keys are plain field names with
    scalar values. *)
Definition simple_update (u : value) : bool :=
  match u with
  | VObj entries =>
      forallb
        (fun e =>
           if starts_with_dollar (fst e)
           then existsb (String.eqb (fst e))
                        ["$set"; "$unset"; "$push"; "$addToSet"; "$pull"]
                && plain_fields (snd e)
           else dot_free (fst e) && is_scalar (snd e))
        entries
  | _ => false
  end.

(** No array of [v] holds [null] as an element. *)
Fixpoint no_null_element (v : value) : bool :=
  match v with
  | VArr elems =>
      forallb (fun e => match e with VNull => false | _ => no_null_element e end) elems
  | VObj fields => forallb (fun kv => no_null_element (snd kv)) fields
  | _ => true
  end.

(** The path [parts] runs through objects from [cur]: each value it meets
    before its last segment is an object, or is absent or a primitive
    other than [null] (which a nested update replaces by [{}]). *)
Fixpoint path_clear (cur : value) (parts : list string) {struct parts} : bool :=
  match cur with
  | VObj fields =>
      match parts with
      | p :: ((_ :: _) as rest) =>
          match lookup p fields with
          | Some c => if typeof_object c then path_clear c rest else true
          | None => true
          end
      | _ => true
      end
  | _ => false
  end.

(** The update document [{op: {k: v}}] *)
Definition update_of (op k : string) (v : value) : value :=
  VObj [(op, VObj [(k, v)])].


(* ------------------------------------------------------------------ *)
(** ** LocalAdapter: findById *)

(** [col.data.find(d => d.id === id)] *)
Fixpoint find_id (hp : list document) (id : value) (l : list handle)
  : option document :=
  match l with
  | [] => None
  | h :: l' =>
      if strict_eq_opt (doc_id hp h) (Some id) then Some (deref hp h)
      else find_id hp id l'
  end.

(** LocalAdapter.findById: the document under [id] in idIndex, or else the
    first document whose id is [id]; the adapter is left as it is. *)
Definition findById (a : adapter) (id : value) : value :=
  let found :=
    match map_get id a.(col).(idIndex) with
    | Some i => doc_at a i
    | None => find_id a.(heap) id a.(col).(data)
    end in
  match found with
  | Some d => envelope true (VObj d) VNull
  | None => envelope false VNull (error_info "Document not found" 404)
  end.

(* ------------------------------------------------------------------ *)
(** ** The state the write operations keep *)

(** The ids the documents of [l] have, in order *)
Definition defined_ids (hp : list document) (l : list handle) : list value :=
  flat_map (fun h => match doc_id hp h with Some v => [v] | None => [] end) l.

(** The ids of the documents of [l] are scalars and truthy. *)
Definition usable_ids (hp : list document) (l : list handle) : Prop :=
  forall h v, In h l -> doc_id hp h = Some v ->
              truthy v = true /\ is_scalar v = true.

(** Every id a document has is truthy. *)
Definition ids_truthy (a : adapter) : Prop :=
  forall i d v, doc_at a i = Some d -> lookup "id" d = Some v -> truthy v = true.

(** Valid handles, an exact idIndex without a repeated key, and truthy
    ids. *)
Definition sound (a : adapter) : Prop :=
  well_formed a /\ NoDup (map fst a.(col).(idIndex)) /\ ids_truthy a.

(** The id a document brings to insert, if it brings one, has a string
    form that is not empty. *)
Definition clean_id (doc : document) : Prop :=
  forall v, lookup "id" doc = Some v -> truthy v = true -> js_String v <> "".

Section Vocabulary.
Context {rt : JsRuntime}.

(** What [update] makes of a document it matched: the update applied,
    and the time stamp set once more. *)
Definition updated_document (now : string) (u : value) (d : document)
  : document :=
  obj_set "updatedAt" (VStr now) (fst (applyUpdateToDoc now d (Some u))).

(** insert [{id: "a", x: 1}, {id: "b", x: 2}, {id: "c", x: 1}] *)
Definition three_documents : adapter :=
  fst (insert "t0" "p" "g" new_adapter
         [[("id", VStr "a"); ("x", VNum 1)];
          [("id", VStr "b"); ("x", VNum 2)];
          [("id", VStr "c"); ("x", VNum 1)]]).
End Vocabulary.


(* ------------------------------------------------------------------ *)
(** ** LiekoDB._validateCollectionName *)

(** [typeof v] *)
Definition js_typeof (v : option value) : string :=
  match v with
  | None => "undefined"
  | Some (VBool _) => "boolean"
  | Some (VNum _) => "number"
  | Some (VStr _) => "string"
  | Some VNull | Some (VArr _) | Some (VObj _) => "object"
  end.

Definition in_range (lo hi : nat) (c : ascii) : bool :=
  let n := nat_of_ascii c in ((lo <=? n) && (n <=? hi))%nat.

(** [a-zA-Z] *)
Definition is_letter (c : ascii) : bool :=
  in_range 97 122 c || in_range 65 90 c.

(** The class [[a-zA-Z0-9_-]] *)
Definition name_char (c : ascii) : bool :=
  is_letter c || is_digit c || Ascii.eqb c "_" || Ascii.eqb c "-".

(** The class [[0-9_-]] *)
Definition bad_start (c : ascii) : bool :=
  is_digit c || Ascii.eqb c "_" || Ascii.eqb c "-".

(** [\s], as far as one-byte characters go *)
Definition regex_space (c : ascii) : bool :=
  is_space c || (nat_of_ascii c =? 160)%nat.

(** The class of the last pattern: the double quote and the characters
    of [<>:|?] and the star *)
Definition reserved_char (c : ascii) : bool :=
  existsb (Ascii.eqb c) ["<"; ">"; ":"; dquote; "|"; "?"; "*"]%char.

(** [/^[a-zA-Z0-9_-]+$/.test(name)] *)
Definition validNameRegex (name : string) : bool :=
  negb (name =? "") && forallb name_char (list_ascii_of_string name).

(** [/^[0-9_-]/.test(name)] *)
Definition starts_badly (name : string) : bool :=
  match name with
  | String c _ => bad_start c
  | EmptyString => false
  end.

(** The five patterns of [invalidPatterns], in order: two dots in a row,
    a slash or a backslash, a leading dot, white space, a reserved
    character. *)
Definition invalidPatterns : list (string -> bool) :=
  [ string_includes "..";
    (fun name => existsb (fun c => Ascii.eqb c "/" || Ascii.eqb c backslash)
                         (list_ascii_of_string name));
    (fun name => match name with String "." _ => true | _ => false end);
    (fun name => existsb regex_space (list_ascii_of_string name));
    (fun name => existsb reserved_char (list_ascii_of_string name)) ].

Definition quoted (s : string) : string :=
  String dquote (s ++ String dquote "").

Definition not_a_string_message (name : option value) : string :=
  "Collection name must be a non-empty string, got: " ++ js_typeof name.

Definition too_long_message (name : string) : string :=
  "Collection name too long (" ++ string_of_nat (String.length name)
  ++ " > 64 characters)".

Definition invalid_name_message (name : string) : string :=
  "Invalid collection name: " ++ quoted name
  ++ ". Only alphanumeric characters, underscores (_) and hyphens (-) are allowed.".

Definition invalid_characters_message (name : string) : string :=
  "Collection name contains invalid characters: " ++ quoted name.

(** LiekoDB._validateCollectionName *)
Definition _validateCollectionName (name : option value) : result bool :=
  match name with
  | Some (VStr s) =>
      if negb (truthy (VStr s)) then Throw (Error (not_a_string_message name))
      else if (String.length s <? 1)%nat
      then Throw (Error "Collection name cannot be empty")
      else if (64 <? String.length s)%nat
      then Throw (Error (too_long_message s))
      else if negb (validNameRegex s)
      then Throw (Error (invalid_name_message s))
      else if starts_badly s
      then Throw (Error "Collection name cannot start with a number, underscore or hyphen")
      else if existsb (fun pattern => pattern s) invalidPatterns
      then Throw (Error (invalid_characters_message s))
      else Ok true
  | _ => Throw (Error (not_a_string_message name))
  end.

(* ------------------------------------------------------------------ *)
(** ** LocalAdapter._reorderDocumentFields *)

Definition reservedFields : list string := ["id"; "createdAt"; "updatedAt"].

(** [keys.sort()]: the default order is that of the code units of the
    strings.  The keys of an object are distinct, and the sorted list of
    distinct keys does not depend on the sorting algorithm. *)
Fixpoint insert_sorted (k : string) (l : list string) : list string :=
  match l with
  | [] => [k]
  | k' :: l' => if String.leb k k' then k :: l else k' :: insert_sorted k l'
  end.

Definition sort_keys (l : list string) : list string :=
  fold_right insert_sorted [] l.

(** [if (doc[key] !== undefined) orderedDoc[key] = doc[key]] *)
Definition copy_field (doc : document) (orderedDoc : document) (key : string)
  : document :=
  match lookup key doc with
  | Some v => obj_set key v orderedDoc
  | None => orderedDoc
  end.

(** LocalAdapter._reorderDocumentFields on a document: [id] first, the
    other fields in sorted order, [createdAt] and [updatedAt] last. *)
Definition _reorderDocumentFields (doc : document) : document :=
  let orderedDoc := copy_field doc [] "id" in
  let normalFields :=
    sort_keys (filter (fun key => negb (existsb (String.eqb key) reservedFields))
                      (map fst doc)) in
  let orderedDoc := fold_left (copy_field doc) normalFields orderedDoc in
  let orderedDoc := copy_field doc orderedDoc "createdAt" in
  copy_field doc orderedDoc "updatedAt".

(** Sorted by the order of [String.leb] *)
Fixpoint sorted (l : list string) : Prop :=
  match l with
  | [] => True
  | k :: l' => (forall x, In x l' -> String.leb k x = true) /\ sorted l'
  end.

(** The key [k] when [d] has it *)
Definition own_key (k : string) (d : document) : list string :=
  match lookup k d with Some _ => [k] | None => [] end.

(* ------------------------------------------------------------------ *)
(** ** What an index is to hold *)

(** The key tuple of a document for an index, when it has every field *)
Fixpoint all_some {A} (l : list (option A)) : option (list A) :=
  match l with
  | [] => Some []
  | None :: _ => None
  | Some x :: l' => option_map (cons x) (all_some l')
  end.

(** What the documents of [l], at the positions from [idx] on, are to be
    filed as: a document that has every field, under its key tuple and at
    its position. *)
Fixpoint filed (fields : list string) (hp : list document) (l : list handle)
         (idx : nat) : list (list value * nat) :=
  match l with
  | [] => []
  | h :: l' =>
      match all_some (doc_keys (deref hp h) fields) with
      | Some ks => [(ks, idx)]
      | None => []
      end ++ filed fields hp l' (S idx)
  end.

(** A node of an index over [n] fields: [n] levels of maps, then the
    arrays of positions. *)
Fixpoint shaped (n : nat) (node : index_node) {struct node} : Prop :=
  match node with
  | Positions _ => n = 0
  | Level children =>
      match n with
      | 0 => False
      | S n' =>
          (fix all (cs : list (value * index_node)) : Prop :=
             match cs with
             | [] => True
             | (_, c) :: cs' => shaped n' c /\ all cs'
             end) children
      end
  end.

(** The entries of a child, seen from its parent *)
Definition tag (k : value) (l : list (list value * nat)) : list (list value * nat) :=
  map (fun e => (k :: fst e, snd e)) l.

(* ------------------------------------------------------------------ *)
(** ** LocalAdapter: find with skip and limit, paginate *)

Section Paging.
Context {rt : JsRuntime}.

(** [if (options.skip) { if (options.skip < 0) throw ...; data = data.slice(options.skip) }]
    for an [options.skip] that is an integer or absent. *)
Definition skip_stage (skip : option Z) (data : list handle)
  : result (list handle) :=
  match skip with
  | Some n =>
      if truthy (VNum n) then
        if (n <? 0)%Z then Throw (Error "Skip cannot be negative")
        else Ok (skipn (Z.to_nat n) data)
      else Ok data
  | None => Ok data
  end.

(** The [options.limit] stage for an [options.limit] that is an integer
    or absent: such a limit is not ['all'], and [parseInt] of it is the
    integer itself as long as its text has no exponent (below 1e21). *)
Definition limit_stage (limit : option Z) (data : list handle)
  : result (list handle) :=
  match limit with
  | Some limitNum =>
      if truthy (VNum limitNum) then
        if (limitNum <? 0)%Z then Throw (Error "Limit cannot be negative")
        else Ok (firstn (Z.to_nat limitNum) data)
      else Ok data
  | None => Ok data
  end.

(** [Math.ceil(total / limit)] for a positive [limit] *)
Definition ceil_div (total limit : Z) : Z := ((total + limit - 1) / limit)%Z.

(** [response.pagination], attached when [options.limit] is truthy *)
Definition find_pagination (skip limit : option Z) (total returnedCount : nat)
  : list (string * value) :=
  match limit with
  | Some limitNum =>
      if truthy (VNum limitNum) then
        let skipNum := match skip with Some n => n | None => 0%Z end in
        [("pagination",
          VObj [("limit", VNum limitNum);
                ("skip", VNum skipNum);
                ("page", VNum (if (0 <? skipNum)%Z
                               then (skipNum / limitNum + 1)%Z else 1%Z));
                ("totalPages", VNum (ceil_div (Z.of_nat total) limitNum));
                ("hasMore", VBool (skipNum + Z.of_nat returnedCount
                                   <? Z.of_nat total)%Z)])]
      else []
  | None => []
  end.

(** What the model covers of a numeric option: an integer of magnitude
    at most [bound], or no option at all.  With such options every
    product, quotient and sum that find and paginate compute is exact in
    doubles, and [parseInt] of the number is the number. *)
Definition modelled (bound : Z) (x : option Z) : bool :=
  match x with
  | Some n => (Z.abs n <=? bound)%Z
  | None => true
  end.

(** LocalAdapter.find called with [options = { skip, limit }], each an
    integer or absent ([options.sort] and [options.fields] absent).
    [None] stands for an option beyond what the model covers. *)
Definition find_with (a : adapter) (filters : value) (skip limit : option Z)
  : option (adapter * value) :=
  if negb (modelled (2 ^ 52) skip && modelled (2 ^ 52) limit) then None else
  Some
  match check_filters filters with
  | Throw e => (a, find_failure e)
  | Ok _ =>
      match validateFilter filters with
      | Throw e => (a, find_failure e)
      | Ok _ =>
          match applyFilters a a.(col).(data) filters with
          | (a', Throw e) => (a', find_failure e)
          | (a', Ok allResults) =>
              match (data <- skip_stage skip allResults ;;
                     limit_stage limit data) with
              | Throw e => (a', find_failure e)
              | Ok data =>
                  let total := length allResults in
                  let returnedCount := length data in
                  if (total =? 0)%nat then
                    (a', find_envelope false (VArr []) 0
                           (error_info "No documents found matching the criteria" 404))
                  else
                    (a', VObj ([("success", VBool true);
                                ("data", VArr (map (fun h => VObj (deref a'.(heap) h)) data));
                                ("total", VNum (Z.of_nat total));
                                ("error", VNull)]
                               ++ find_pagination skip limit total returnedCount))
              end
          end
      end
  end.

(** [Math.max(1, parseInt(x) || fallback)] for an [x] that is an integer
    whose text has no exponent (below 1e21), or absent *)
Definition page_param (x : option Z) (fallback : Z) : Z :=
  Z.max 1 (match x with
           | Some n => if truthy (VNum n) then n else fallback
           | None => fallback
           end).

Definition out_of_range_message (page totalPages : Z) : string :=
  "Page " ++ string_of_Z page ++ " is out of range. Total pages: "
  ++ string_of_Z totalPages.

(** LocalAdapter.paginate called with [options = { page, limit }], each
    an integer or absent.  The [data] and the [total] of a find that
    succeeded are an array and a number.  [None] stands for an option
    beyond what the model covers. *)
Definition paginate (a : adapter) (filters : value) (page limit : option Z)
  : option (adapter * value) :=
  if negb (modelled (2 ^ 26) page && modelled (2 ^ 26) limit) then None else
  let page := page_param page 1 in
  let limit := page_param limit 10 in
  let skip := ((page - 1) * limit)%Z in
  match find_with a filters (Some skip) (Some limit) with
  | None => None
  | Some (a', findResult) =>
  Some
  match findResult with
  | VObj fields =>
      if negb (truthy_opt (lookup "success" fields)) then (a', findResult)
      else
        match lookup "data" fields, lookup "total" fields with
        | Some data, Some (VNum totalItems) =>
            let totalPages :=
              if (0 <? totalItems)%Z then ceil_div totalItems limit else 0%Z in
            let error :=
              if (totalItems =? 0)%Z
              then error_info "No documents found" 404
              else if (totalPages <? page)%Z && (0 <? totalPages)%Z
              then error_info (out_of_range_message page totalPages) 404
              else VNull in
            let pagination :=
              VObj [("page", VNum page);
                    ("limit", VNum limit);
                    ("skip", VNum skip);
                    ("total", VNum totalItems);
                    ("totalPages", VNum totalPages);
                    ("hasMore", VBool (page <? totalPages)%Z);
                    ("hasNext", VBool (page <? totalPages)%Z);
                    ("hasPrev", VBool (1 <? page)%Z);
                    ("nextPage", if (page <? totalPages)%Z
                                 then VNum (page + 1) else VNull);
                    ("prevPage", if (1 <? page)%Z
                                 then VNum (page - 1) else VNull);
                    ("startIndex", VNum (if (0 <? totalItems)%Z && (page <=? totalPages)%Z
                                         then skip + 1 else 0)%Z);
                    ("endIndex", VNum (if (page <=? totalPages)%Z
                                       then Z.min (skip + limit) totalItems
                                       else 0)%Z)] in
            (a', VObj [("success", VBool (negb (truthy error)));
                       ("data", data);
                       ("total", VNum totalItems);
                       ("pagination", pagination);
                       ("error", error)])
        | _, _ => (a', findResult)
        end
  | _ => (a', findResult)
  end
  end.
End Paging.

(** Page [p] (from 1) of size [size] of a list *)
Definition page_slice {A} (size p : nat) (l : list A) : list A :=
  firstn size (skipn ((p - 1) * size) l).
(* ------------------------------------------------------------------ *)
(** ** LocalAdapter.request and the methods of Collection *)

(** [s.split("/")]: [split_slash_aux cur s] carries the part being read. *)
Fixpoint split_slash_aux (cur : string) (s : string) : list string :=
  match s with
  | EmptyString => [cur]
  | String c s' =>
      if Ascii.eqb c "/" then cur :: split_slash_aux "" s'
      else split_slash_aux (cur ++ String c "") s'
  end.

(** [endpoint.split("/").filter(Boolean)] *)
Definition endpoint_parts (endpoint : string) : list string :=
  filter (fun part => negb (part =? "")) (split_slash_aux "" endpoint).

(** The method of the adapter that a request ends in, with its arguments *)
Inductive call : Type :=
| call_createIndex (indexDef : option value)
| call_find (payload : value)
| call_count (payload : value)
| call_paginate (filters options : option value)
| call_findById (id : string)
| call_insert (payload : value)
| call_updateById (id : string) (payload : value)
| call_update (payload : value)
| call_dropCollection
| call_deleteById (id : string)
| call_delete (payload : value).

(** LocalAdapter.request: the [collectionName] it sets and the call it
    returns the result of: the chain of tests of the source, taken
    apart by whether [param] is there ([param], a part that passed
    [filter(Boolean)], is truthy when it is). *)
Definition request (method endpoint : string) (payload : value)
  : result (option string * call) :=
  let parts := endpoint_parts endpoint in
  let collectionName := nth_error parts 1 in
  let param := nth_error parts 2 in
  match param with
  | Some p =>
      if (method =? "POST") && (p =? "indexes") then
        index <- get_prop payload "index" ;;
        Ok (collectionName, call_createIndex index)
      else if (method =? "GET") && (p =? "count") then
        Ok (collectionName, call_count payload)
      else if (method =? "GET") && (p =? "paginate") then
        filters <- get_prop payload "filters" ;;
        options <- get_prop payload "options" ;;
        Ok (collectionName, call_paginate filters options)
      else if method =? "GET" then Ok (collectionName, call_findById p)
      else if method =? "POST" then Ok (collectionName, call_insert payload)
      else if method =? "PATCH" then Ok (collectionName, call_updateById p payload)
      else if (method =? "DELETE") && (p =? "drop") then
        Ok (collectionName, call_dropCollection)
      else if method =? "DELETE" then Ok (collectionName, call_deleteById p)
      else Throw (Error ("Unsupported endpoint: " ++ method ++ " " ++ endpoint))
  | None =>
      if method =? "GET" then Ok (collectionName, call_find payload)
      else if method =? "POST" then Ok (collectionName, call_insert payload)
      else if method =? "PATCH" then Ok (collectionName, call_update payload)
      else if method =? "DELETE" then Ok (collectionName, call_delete payload)
      else Throw (Error ("Unsupported endpoint: " ++ method ++ " " ++ endpoint))
  end.

(** Collection.findById; the template literal puts [String(id)] into
    the endpoint. *)
Definition Collection_findById (name : string) (id options : value)
  : result (option string * call) :=
  request "GET" ("/collections/" ++ name ++ "/" ++ js_String id)
          (VObj [("options", options)]).

(** Collection.updateById with [options] left at its default [{}] *)
Definition Collection_updateById (name : string) (id update : value)
  : result (option string * call) :=
  request "PATCH" ("/collections/" ++ name ++ "/" ++ js_String id)
          (VObj [("update", update)]).

(** Collection.deleteById; the payload of the request is its default
    [{}]. *)
Definition Collection_deleteById (name : string) (id : value)
  : result (option string * call) :=
  if negb (truthy id)
  then Throw (Error "deleteById operation requires a valid document ID.")
  else request "DELETE" ("/collections/" ++ name ++ "/" ++ js_String id)
               (VObj []).

(** Collection.drop *)
Definition Collection_drop (name : string) : result (option string * call) :=
  request "DELETE" ("/collections/" ++ name) (VObj []).

(** The parameter [{ filters = {} }] of [find], [count] and [delete] *)
Definition filters_of (payload : value) : result value :=
  filters <- get_prop payload "filters" ;;
  Ok (match filters with Some f => f | None => VObj [] end).

Definition slash_free (s : string) : bool :=
  forallb (fun c => negb (Ascii.eqb c "/")) (list_ascii_of_string s).

(* ================================================================== *)
(** * Properties *)

(** ** Values *)

Lemma strict_eq_true_iff (a b : value) :
  strict_eq a b = true <-> a = b /\ is_scalar b = true.
Proof.
  destruct a, b; simpl; split; try (intros [H _]; discriminate);
    try discriminate; try (intros [_ H]; discriminate); try tauto.
  - intros H. apply Bool.eqb_prop in H. subst. tauto.
  - intros [H _]. inversion H. apply Bool.eqb_reflx.
  - intros H. apply Z.eqb_eq in H. subst. tauto.
  - intros [H _]. inversion H. apply Z.eqb_refl.
  - intros H. apply String.eqb_eq in H. subst. tauto.
  - intros [H _]. inversion H. apply String.eqb_refl.
Qed.

Lemma strict_eq_refl (v : value) : is_scalar v = true -> strict_eq v v = true.
Proof. intros H. apply strict_eq_true_iff. tauto. Qed.

Lemma includes_scalar_iff (l : list value) (v : value) :
  is_scalar v = true -> (includes l v = true <-> In v l).
Proof.
  intros Hv. unfold includes. rewrite existsb_exists. split.
  - intros [e [Hin He]]. apply strict_eq_true_iff in He.
    destruct He as [-> _]. exact Hin.
  - intros Hin. exists v. split; [exact Hin | now apply strict_eq_refl].
Qed.

(** ** The logical operators of a filter *)

Section FilterProperties.
Context {rt : JsRuntime}.

Lemma if_prop_lookup {A} (key : string) (found : value -> A)
      (fs : list (string * value)) (otherwise : A) :
  if_prop key found fs otherwise =
  match lookup key fs with
  | Some v => if truthy v then found v else otherwise
  | None => otherwise
  end.
Proof.
  induction fs as [|[k v] fs IH]; simpl; [reflexivity|].
  destruct (k =? key); [reflexivity | exact IH].
Qed.

Lemma matchesFilter_object (item : value) (fields : list (string * value)) :
  matchesFilter item (VObj fields) =
  if truthy_opt (lookup "$and" fields) then
    on_array (null_if_undefined (lookup "$and" fields)) (every_r (matchesFilter item))
  else if truthy_opt (lookup "$or" fields) then
    on_array (null_if_undefined (lookup "$or" fields)) (some_r (matchesFilter item))
  else if truthy_opt (lookup "$nor" fields) then
    not_r (on_array (null_if_undefined (lookup "$nor" fields))
                    (some_r (matchesFilter item)))
  else if truthy_opt (lookup "$not" fields) then
    not_r (matchesFilter item (null_if_undefined (lookup "$not" fields)))
  else keys_loop item fields.
Proof.
  simpl. rewrite !if_prop_lookup.
  destruct (lookup "$and" fields) as [v1|]; simpl;
    [destruct (truthy v1); [reflexivity|]|];
    (destruct (lookup "$or" fields) as [v2|]; simpl;
     [destruct (truthy v2); [reflexivity|]|]);
    (destruct (lookup "$nor" fields) as [v3|]; simpl;
     [destruct (truthy v3); [reflexivity|]|]);
    (destruct (lookup "$not" fields) as [v4|]; simpl;
     [destruct (truthy v4); reflexivity|reflexivity]).
Qed.



End FilterProperties.



Lemma Ok_inj {A} (a b : A) : Ok a = Ok b -> a = b.
Proof. congruence. Qed.

(** ** Field-path keys *)

Lemma not_dollar_key (k : string) (name : string) :
  starts_with_dollar k = false -> starts_with_dollar name = true ->
  (k =? name) = false.
Proof.
  intros Hk Hn. destruct (k =? name) eqn:E; [|reflexivity].
  apply String.eqb_eq in E. subst. congruence.
Qed.

Section FieldProperties.
Context {rt : JsRuntime}.

(** A filter with the single field-path key [k] is the test of that key. *)
Lemma matchesFilter_single_key (item : value) (k : string) (expected : value) :
  starts_with_dollar k = false ->
  matchesFilter item (VObj [(k, expected)]) = field_test item k expected.
Proof.
  intros Hk. rewrite matchesFilter_object. simpl.
  rewrite !(not_dollar_key k) by (assumption || reflexivity). simpl.
  rewrite Hk. destruct (field_test item k expected) as [[|]|]; reflexivity.
Qed.


(** C3, as the code has it.  For a scalar [v] (null, a boolean, a number
    or a string) the filter [{k: v}] matches [d] exactly when the value at
    [k] is an array holding [v] or is [v] itself. *)
Theorem scalar_equality_filter (d : document) (k : string) (v : value) :
  starts_with_dollar k = false ->
  is_scalar v = true ->
  matchesFilter (VObj d) (VObj [(k, v)]) = Ok true
  <-> exists r, getValue (VObj d) k = Ok (Some r)
                /\ ((exists l, r = VArr l /\ In v l) \/ r = v).
Proof.
  intros Hk Hv. rewrite matchesFilter_single_key by exact Hk.
  unfold field_test.
  assert (Hplain : is_plain_object v = false) by (destruct v; simpl in *; congruence).
  destruct (getValue (VObj d) k) as [[r|]|e]; cbn [bind]; rewrite ?Hplain.
  - destruct r as [| b | n | s | l | fs]; cbn [strict_eq_opt].
    1-4, 6:
      (split;
       [ intros H; apply Ok_inj, strict_eq_true_iff in H;
         destruct H as [<- _]; eexists; split; [reflexivity | now right]
       | intros [r [Hr [[l [-> _]] | ->]]]; apply Ok_inj in Hr;
         [ discriminate
         | injection Hr as <-; f_equal; apply strict_eq_refl; exact Hv ] ]).
    split.
    + intros H. apply Ok_inj, includes_scalar_iff in H; [|exact Hv].
      eexists. split; [reflexivity|]. left. eauto.
    + intros [r [Hr [[l' [-> Hin]] | ->]]]; apply Ok_inj in Hr.
      * injection Hr as ->. f_equal. now apply includes_scalar_iff.
      * injection Hr as <-. discriminate.
  - split; [discriminate|]. intros [r [Hr _]]. discriminate.
  - split; [discriminate|]. intros [r [Hr _]]. discriminate.
Qed.
End FieldProperties.



Lemma scalar_equality_filter_witness :
  matchesFilter (rt := example_runtime)
    (VObj [("tags", VArr [VStr "new"; VStr "vip"])]) (VObj [("tags", VStr "vip")])
  = Ok true.
Proof.
  apply (@scalar_equality_filter example_runtime
           [("tags", VArr [VStr "new"; VStr "vip"])] "tags" (VStr "vip")).
  - reflexivity.
  - reflexivity.
  - exists (VArr [VStr "new"; VStr "vip"]). split; [reflexivity|].
    left. exists [VStr "new"; VStr "vip"]. split; [reflexivity|].
    simpl. tauto.
Defined.

(** C3 as stated fails in both directions.  The array [[1]] stored at [k]
    is deep-equal to the [[1]] of the filter [{k: [1]}], and the filter
    does not match; the object [{a: 1}] of the filter [{k: {a: 1}}] is
    read as an operator map with the unknown operator [a], and the filter
    matches a document whose [k] holds the number 5. *)
Lemma deep_equality_filter_counterexample :
  getValue (VObj [("k", VArr [VNum 1])]) "k" = Ok (Some (VArr [VNum 1]))
  /\ matchesFilter (rt := example_runtime)
       (VObj [("k", VArr [VNum 1])]) (VObj [("k", VArr [VNum 1])]) = Ok false
  /\ getValue (VObj [("k", VNum 5)]) "k" = Ok (Some (VNum 5))
  /\ matchesFilter (rt := example_runtime)
       (VObj [("k", VNum 5)]) (VObj [("k", VObj [("a", VNum 1)])]) = Ok true.
Proof. repeat split. Qed.

(* ------------------------------------------------------------------ *)
(** ** Path resolution through arrays *)

Lemma includes_dot_append (s t : string) :
  includes_dot (s ++ t) = includes_dot s || includes_dot t.
Proof.
  induction s as [|c s IH]; simpl; [reflexivity|].
  destruct (Ascii.eqb c dot); [reflexivity | exact IH].
Qed.

Lemma append_assoc (s t u : string) : ((s ++ t) ++ u = s ++ (t ++ u))%string.
Proof. induction s as [|c s IH]; simpl; [reflexivity | now rewrite IH]. Qed.

Lemma append_empty_r (s : string) : (s ++ "")%string = s.
Proof. induction s as [|c s IH]; simpl; [reflexivity | now rewrite IH]. Qed.

(** Splitting reads a dot-free segment whole. *)
Lemma split_dot_aux_segment (p cur rest : string) :
  dot_free p = true ->
  split_dot_aux cur (p ++ String dot rest) = (cur ++ p)%string :: split_dot_aux "" rest.
Proof.
  revert cur. induction p as [|c p IH]; intros cur Hp; simpl.
  - rewrite ?Ascii.eqb_refl, append_empty_r. reflexivity.
  - unfold dot_free in Hp. simpl in Hp.
    destruct (Ascii.eqb c dot) eqn:E; [discriminate|].
    rewrite IH by exact Hp. rewrite append_assoc. reflexivity.
Qed.

Lemma split_dot_aux_last (p cur : string) :
  dot_free p = true -> split_dot_aux cur p = [(cur ++ p)%string].
Proof.
  revert cur. induction p as [|c p IH]; intros cur Hp; simpl.
  - now rewrite append_empty_r.
  - unfold dot_free in Hp. simpl in Hp.
    destruct (Ascii.eqb c dot) eqn:E; [discriminate|].
    rewrite IH by exact Hp. rewrite append_assoc. reflexivity.
Qed.

(** [parts.join('.').split('.')] gives [parts] back. *)
Lemma split_join_dot (parts : list string) :
  parts <> [] -> forallb dot_free parts = true ->
  split_dot (join_dot parts) = parts.
Proof.
  unfold split_dot. induction parts as [|p rest IH]; intros Hne Hall; [congruence|].
  simpl in Hall. apply andb_prop in Hall. destruct Hall as [Hp Hrest].
  destruct rest as [|q rest].
  - simpl. now rewrite split_dot_aux_last.
  - change (join_dot (p :: q :: rest)) with (p ++ String dot (join_dot (q :: rest)))%string.
    rewrite split_dot_aux_segment by exact Hp. simpl append.
    rewrite IH; [reflexivity | discriminate | exact Hrest].
Qed.

Lemma includes_dot_join (p q : string) (rest : list string) :
  includes_dot (join_dot (p :: q :: rest)) = true.
Proof.
  change (join_dot (p :: q :: rest)) with (p ++ String dot (join_dot (q :: rest)))%string.
  rewrite includes_dot_append. simpl. rewrite ?Ascii.eqb_refl. apply orb_true_r.
Qed.

(** The call [this.getValue(el, parts.slice(i).join('.'))] of the source
    is what [walk] does on an element. *)
Lemma getValue_remaining (el : value) (p : string) (rest : list string) :
  forallb dot_free (p :: rest) = true ->
  getValue el (join_dot (p :: rest)) =
  match rest with
  | [] => get_prop el p
  | _ :: _ => walk el (p :: rest)
  end.
Proof.
  intros Hall. unfold getValue. destruct rest as [|q rest].
  - simpl in *. apply andb_prop in Hall. destruct Hall as [Hp _].
    unfold dot_free in Hp. now rewrite Hp.
  - rewrite includes_dot_join. simpl negb. cbv iota.
    rewrite split_join_dot; [reflexivity | discriminate | exact Hall].
Qed.

(** The array rule of path resolution: on an array, a segment that is not
    one of its indices sends the remaining path to every element; the
    defined results are collected, arrays among them spread one level, and
    the list is the resolved value unless it is empty. *)
Lemma walk_array_traversal (elems : list value) (p : string) (rest : list string) :
  forallb dot_free (p :: rest) = true ->
  array_index p (length elems) = None ->
  walk (VArr elems) (p :: rest) =
  results <- gather (fun el => getValue el (join_dot (p :: rest))) elems ;;
  Ok (match results with [] => None | _ :: _ => Some (VArr results) end).
Proof.
  intros Hall Hidx. cbn [walk]. rewrite Hidx. f_equal. clear Hidx.
  induction elems as [|el elems IH]; [reflexivity|].
  cbn [gather]. rewrite getValue_remaining by exact Hall.
  rewrite <- IH. destruct rest; reflexivity.
Qed.

(** C6.  On [{a: [null]}] the path [a.b] reaches the array with the
    segment [b], which is no index; the claim gives an empty collection,
    hence an absent value.  The code reads [null["b"]] and throws, where
    the loop over a longer remaining path tests for [null] and skips the
    element. *)
Theorem getValue_null_element_throws :
  getValue (VObj [("a", VArr [VNull])]) "a.b" = Throw TypeError
  /\ getValue (VObj [("a", VArr [VNull])]) "a.b.c" = Ok None
  /\ getValue (VObj [("a", VArr [VNum 7])]) "a.b" = Ok None.
Proof. repeat split. Qed.

(* ------------------------------------------------------------------ *)
(** ** The query cache across writes *)

Section CacheScenario.
Context {rt : JsRuntime}.

(** C1.  After the update no document has [x = 1]: computed from the
    documents, find answers 404 and count answers 0.  The engine answers
    from the entry cached before the write, under the key made of the
    filter text and the unchanged length of [data]: find returns the
    document (now with [x = 2]) and count returns 1. *)
Theorem stale_cache_after_update :
  let a := after_insert_find_update in
  let stored :=
    VObj [("id", VStr "a"); ("x", VNum 2); ("createdAt", VStr "t0");
          ("updatedAt", VStr "t1")] in
  documents a = [[("id", VStr "a"); ("x", VNum 2); ("createdAt", VStr "t0");
                  ("updatedAt", VStr "t1")]]
  /\ snd (find (clear_cache a) (x_is 1))
     = find_envelope false (VArr []) 0
         (error_info "No documents found matching the criteria" 404)
  /\ snd (count (clear_cache a) (x_is 1)) = envelope true (VNum 0) VNull
  /\ snd (find a (x_is 1)) = find_envelope true (VArr [stored]) 1 VNull
  /\ snd (count a (x_is 1)) = envelope true (VNum 1) VNull.
Proof.
  cbv zeta. unfold after_insert_find_update.
  repeat split; vm_compute; reflexivity.
Qed.
End CacheScenario.

(* ------------------------------------------------------------------ *)
(** ** Exactness of idIndex *)

Section IdScenario.
Context {rt : JsRuntime}.

(** C4.  [idIndex] is exact after the insert.  The update that sets the
    id succeeds and leaves [idIndex] as it was: the entry of ["a"] is
    stale and the document, whose id is now ["b"], has none, so
    deleteById("b") does not find it. *)
Theorem idIndex_stale_after_id_update :
  idIndex_exact after_insert_a
  /\ documents after_id_update
     = [[("id", VStr "b"); ("n", VNum 1); ("createdAt", VStr "t0");
         ("updatedAt", VStr "t1")]]
  /\ after_id_update.(col).(idIndex) = [(VStr "a", 0)]
  /\ ~ idIndex_exact after_id_update
  /\ snd (deleteById after_id_update (VStr "b"))
     = envelope false VNull (error_info "Document not found" 404).
Proof.
  split; [|split; [|split; [|split]]].
  - split.
    + intros [|i] d v Hd Hv.
      * vm_compute in Hd. injection Hd as <-. vm_compute in Hv.
        injection Hv as <-. reflexivity.
      * vm_compute in Hd. destruct i; discriminate.
    + intros k i [H|[]]. vm_compute in H. injection H as <- <-.
      eexists. split; reflexivity.
  - vm_compute. reflexivity.
  - vm_compute. reflexivity.
  - intros [H _].
    specialize (H 0 _ (VStr "b") eq_refl eq_refl).
    vm_compute in H. discriminate.
  - vm_compute. reflexivity.
Qed.
End IdScenario.

(* ------------------------------------------------------------------ *)
(** ** Consistency of a secondary index *)

Section IndexScenario.
Context {rt : JsRuntime}.

(** C2.  The index on [x] is consistent once created.  deleteById("a")
    takes the entry of the deleted document out and moves the document
    ["b"] to position 0, but its entry keeps position 1, which is no
    position of [data] any more; delete [{x: 1}] does not touch the index
    at all. *)
Theorem index_stale_after_delete :
  indexes_consistent indexed_on_x
  /\ (let a := fst (deleteById indexed_on_x (VStr "a")) in
      documents a = [[("id", VStr "b"); ("x", VNum 2); ("createdAt", VStr "t0")]]
      /\ a.(col).(indexes)
         = [("x:1", x_index (Level [(VNum 2, Positions [1])]))]
      /\ ~ indexes_consistent a)
  /\ (let a := fst (delete indexed_on_x (VObj [("x", VNum 1)])) in
      documents a = [[("id", VStr "b"); ("x", VNum 2); ("createdAt", VStr "t0")]]
      /\ a.(col).(indexes)
         = [("x:1", x_index (Level [(VNum 1, Positions [0]); (VNum 2, Positions [1])]))]
      /\ ~ indexes_consistent a).
Proof.
  split; [|split].
  - intros name ix [H|[]]. vm_compute in H. injection H as <- <-. split.
    + intros [|[|i]] d ks Hd Hk;
        [ | | exfalso; destruct i; vm_compute in Hd; discriminate ];
        vm_compute in Hd; injection Hd as <-; vm_compute in Hk;
        destruct ks as [|k [|k' ks]]; try discriminate; injection Hk as <-.
      * exists 0. split; [reflexivity|].
        intros [|[|m]] Hm; vm_compute in Hm; try reflexivity; try discriminate.
        destruct m; discriminate.
      * exists 1. split; [reflexivity|].
        intros [|[|m]] Hm; vm_compute in Hm; try reflexivity; try discriminate.
        destruct m; discriminate.
    + intros ks p H. vm_compute in H.
      destruct H as [H|[H|[]]]; injection H as <- <-; eexists; split; reflexivity.
  - cbv zeta. split; [vm_compute; reflexivity|].
    split; [vm_compute; reflexivity|].
    intros H.
    destruct (H "x:1" (x_index (Level [(VNum 2, Positions [1])]))) as [_ Hpos].
    { vm_compute. left. reflexivity. }
    destruct (Hpos [VNum 2] 1) as [d [Hd _]].
    { vm_compute. left. reflexivity. }
    vm_compute in Hd. discriminate.
  - cbv zeta. split; [vm_compute; reflexivity|].
    split; [vm_compute; reflexivity|].
    intros H.
    destruct (H "x:1"
                (x_index (Level [(VNum 1, Positions [0]); (VNum 2, Positions [1])])))
      as [_ Hpos].
    { vm_compute. left. reflexivity. }
    destruct (Hpos [VNum 2] 1) as [d [Hd _]].
    { vm_compute. right. left. reflexivity. }
    vm_compute in Hd. discriminate.
Qed.
End IndexScenario.

(* ------------------------------------------------------------------ *)
(** ** find and count on a filter that matches nothing *)

Section NoMatch.
Context {rt : JsRuntime}.

Lemma no_filter_matches (item filter : value) :
  no_filter filter = true -> matchesFilter item filter = Ok true.
Proof.
  unfold no_filter. intros H. apply orb_prop in H. destruct H as [H|H].
  - destruct filter; simpl in *; try discriminate; try reflexivity;
      apply negb_true_iff in H; cbn [negb]; rewrite ?H; reflexivity.
  - apply Nat.eqb_eq in H.
    destruct filter as [| b | n | s | l | fs]; try reflexivity.
    + destruct b; reflexivity.
    + simpl. destruct (negb (negb (n =? 0)%Z)); reflexivity.
    + destruct s as [|c s]; [reflexivity|]. simpl in H.
      unfold indexed in H. rewrite length_map, length_combine, length_seq in H.
      simpl in H. discriminate.
    + destruct l as [|v l]; [reflexivity|]. simpl in H.
      unfold indexed in H. rewrite length_map, length_combine, length_seq in H.
      simpl in H. discriminate.
    + destruct fs; [reflexivity | discriminate].
Qed.

Lemma filter_r_all_true {A} (f : A -> result bool) (l : list A) :
  (forall x, f x = Ok true) -> filter_r f l = Ok l.
Proof.
  intros Hf. induction l as [|x l IH]; simpl; [reflexivity|].
  rewrite Hf, IH. reflexivity.
Qed.

(** Where find and count agree on a filter without match.  Let
    [filters] pass the checks of find (an object or a falsy value whose
    [$] keys are all operators find accepts), let the cache hold nothing
    under its key, and let its evaluation on the documents complete and
    match none.  Then find answers with the 404 envelope and count
    answers [success: true] with 0. *)
Theorem find_and_count_without_match (a : adapter) (filters : value) :
  check_filters filters = Ok tt ->
  validateFilter filters = Ok tt ->
  cache_get (cacheKey filters a.(col).(data)) a.(queryCache) = None ->
  filter_r (matches a.(heap) filters) a.(col).(data) = Ok [] ->
  snd (find a filters)
  = find_envelope false (VArr []) 0
      (error_info "No documents found matching the criteria" 404)
  /\ snd (count a filters) = envelope true (VNum 0) VNull.
Proof.
  intros Hcheck Hvalid Hmiss Hnone.
  unfold find, count, engine_count, applyFilters.
  rewrite Hcheck, Hvalid.
  destruct (no_filter filters) eqn:Hnf.
  - rewrite filter_r_all_true in Hnone
      by (intros h; apply no_filter_matches; exact Hnf).
    apply Ok_inj in Hnone. rewrite Hnone. split; reflexivity.
  - rewrite Hmiss, Hnone. split; reflexivity.
Qed.
End NoMatch.

Lemma find_and_count_without_match_witness :
  let a := fst (insert "t0" "p" "g" new_adapter [[("id", VStr "a"); ("x", VNum 1)]]) in
  snd (find (rt := example_runtime) a (VObj [("x", VObj [("$gt", VNum 5)])]))
  = find_envelope false (VArr []) 0
      (error_info "No documents found matching the criteria" 404)
  /\ snd (count (rt := example_runtime) a (VObj [("x", VObj [("$gt", VNum 5)])]))
     = envelope true (VNum 0) VNull.
Proof.
  cbv zeta.
  apply (@find_and_count_without_match example_runtime).
  - reflexivity.
  - reflexivity.
  - reflexivity.
  - vm_compute. reflexivity.
Defined.

(** C8.  [$nor] and [$mod] are operators of matchesFilter and
    matchesOperators, and the list of operators that find accepts lacks
    them.  On the collection holding [{id: "a", x: 1}] the filters
    [{$nor: [{x: 1}]}] and [{x: {$mod: [2, 0]}}] match no document; count
    answers with success and 0, and find answers with code 500, not with
    code 404. *)
Theorem find_rejects_operators_of_the_engine :
  let a := fst (insert "t0" "p" "g" new_adapter [[("id", VStr "a"); ("x", VNum 1)]]) in
  let nor := VObj [("$nor", VArr [x_is 1])] in
  let modulo := VObj [("x", VObj [("$mod", VArr [VNum 2; VNum 0])])] in
  (filter_r (matches (rt := example_runtime) a.(heap) nor) a.(col).(data) = Ok []
   /\ snd (count (rt := example_runtime) a nor) = envelope true (VNum 0) VNull
   /\ snd (find (rt := example_runtime) a nor)
      = find_envelope false (VArr []) 0
          (error_info (invalid_operator_message "$nor") 500))
  /\ (filter_r (matches (rt := example_runtime) a.(heap) modulo) a.(col).(data) = Ok []
      /\ snd (count (rt := example_runtime) a modulo) = envelope true (VNum 0) VNull
      /\ snd (find (rt := example_runtime) a modulo)
         = find_envelope false (VArr []) 0
             (error_info (invalid_operator_message "$mod") 500)).
Proof. cbv zeta. repeat split; vm_compute; reflexivity. Qed.

(* ------------------------------------------------------------------ *)
(** ** Property lists and maps *)

Lemma lookup_obj_set (k k' : string) (v : value) (fs : document) :
  lookup k (obj_set k' v fs) = if k' =? k then Some v else lookup k fs.
Proof.
  induction fs as [|[k0 v0] fs IH]; simpl.
  - destruct (k' =? k); reflexivity.
  - destruct (k0 =? k') eqn:E0; simpl.
    + apply String.eqb_eq in E0. subst k0.
      destruct (k' =? k); reflexivity.
    + destruct (k0 =? k) eqn:E1.
      * apply String.eqb_eq in E1. subst k0.
        rewrite String.eqb_sym, E0. reflexivity.
      * exact IH.
Qed.

Lemma lookup_obj_delete (k k' : string) (fs : document) :
  lookup k (obj_delete k' fs) = if k' =? k then None else lookup k fs.
Proof.
  induction fs as [|[k0 v0] fs IH]; simpl.
  - destruct (k' =? k); reflexivity.
  - destruct (k0 =? k') eqn:E0; simpl.
    + apply String.eqb_eq in E0. subst k0. rewrite IH.
      destruct (k' =? k); reflexivity.
    + destruct (k0 =? k) eqn:E1.
      * apply String.eqb_eq in E1. subst k0.
        rewrite String.eqb_sym, E0. reflexivity.
      * exact IH.
Qed.

Lemma lookup_obj_set_opt (k k' : string) (v : option value) (fs : document) :
  lookup k (obj_set_opt k' v fs) = if k' =? k then v else lookup k fs.
Proof.
  destruct v; simpl; [apply lookup_obj_set | apply lookup_obj_delete].
Qed.

Lemma lookup_not_in (k : string) (fs : document) :
  ~ In k (map fst fs) -> lookup k fs = None.
Proof.
  induction fs as [|[k0 v0] fs IH]; simpl; [reflexivity|].
  intros H. destruct (k0 =? k) eqn:E.
  - apply String.eqb_eq in E. tauto.
  - apply IH. tauto.
Qed.

(** The merge of [Object.assign]: a property of the source wins, the
    others are those of the target (the keys of an object are distinct). *)
Lemma lookup_obj_assign (k : string) (target source : document) :
  NoDup (map fst source) ->
  lookup k (obj_assign target source) =
  match lookup k source with
  | Some v => Some v
  | None => lookup k target
  end.
Proof.
  unfold obj_assign. revert target.
  induction source as [|[k0 v0] source IH]; intros target Hnd; simpl; [reflexivity|].
  inversion Hnd as [|? ? Hnotin Hnd']; subst.
  rewrite IH by exact Hnd'. simpl. rewrite lookup_obj_set.
  destruct (k0 =? k) eqn:E.
  - apply String.eqb_eq in E. subst k0.
    now rewrite (lookup_not_in _ _ Hnotin).
  - reflexivity.
Qed.

Lemma keys_obj_set (k : string) (v : value) (fs : document) :
  map fst (obj_set k v fs) =
  if existsb (String.eqb k) (map fst fs) then map fst fs else map fst fs ++ [k].
Proof.
  induction fs as [|[k0 v0] fs IH]; simpl; [reflexivity|].
  destruct (k0 =? k) eqn:E.
  - apply String.eqb_eq in E. subst k0. rewrite String.eqb_refl. reflexivity.
  - rewrite String.eqb_sym, E. simpl. rewrite IH.
    destruct (existsb (String.eqb k) (map fst fs)); reflexivity.
Qed.

Lemma NoDup_obj_set (k : string) (v : value) (fs : document) :
  NoDup (map fst fs) -> NoDup (map fst (obj_set k v fs)).
Proof.
  intros H. rewrite keys_obj_set.
  destruct (existsb (String.eqb k) (map fst fs)) eqn:E; [exact H|].
  apply NoDup_app; [exact H | constructor; [tauto | constructor] |].
  intros x Hx [<-|[]].
  assert (existsb (String.eqb k) (map fst fs) = true); [|congruence].
  apply existsb_exists. exists k. split; [exact Hx | apply String.eqb_refl].
Qed.

Lemma map_get_In {V} (k : value) (v : V) (m : list (value * V)) :
  map_get k m = Some v -> In (k, v) m.
Proof.
  induction m as [|[k0 v0] m IH]; simpl; [discriminate|].
  destruct (strict_eq k0 k) eqn:E.
  - intros H. injection H as <-. apply strict_eq_true_iff in E.
    destruct E as [-> _]. now left.
  - intros H. right. now apply IH.
Qed.

Lemma map_get_map_set {V} (k k' : value) (v : V) (m : list (value * V)) :
  is_scalar k' = true ->
  map_get k (map_set k' v m) = if strict_eq k' k then Some v else map_get k m.
Proof.
  intros Hk'. induction m as [|[k0 v0] m IH]; simpl.
  - destruct (strict_eq k' k); reflexivity.
  - destruct (strict_eq k0 k') eqn:E0; simpl.
    + apply strict_eq_true_iff in E0. destruct E0 as [-> _].
      destruct (strict_eq k' k); reflexivity.
    + destruct (strict_eq k0 k) eqn:E1.
      * apply strict_eq_true_iff in E1. destruct E1 as [-> Hk].
        destruct (strict_eq k' k) eqn:E2; [|reflexivity].
        apply strict_eq_true_iff in E2. destruct E2 as [-> _].
        rewrite strict_eq_refl in E0 by exact Hk. discriminate.
      * exact IH.
Qed.

Lemma map_set_absent {V} (k : value) (v : V) (m : list (value * V)) :
  map_get k m = None -> map_set k v m = m ++ [(k, v)].
Proof.
  induction m as [|[k0 v0] m IH]; simpl; [reflexivity|].
  destruct (strict_eq k0 k); [discriminate|].
  intros H. now rewrite IH.
Qed.

Lemma nth_list_set_same {A} (i : nat) (x d : A) (l : list A) :
  i < length l -> nth i (list_set i x l) d = x.
Proof.
  revert i. induction l as [|y l IH]; intros [|i] H; simpl in *; try lia.
  - reflexivity.
  - apply IH. lia.
Qed.

Lemma nth_list_set_other {A} (i j : nat) (x d : A) (l : list A) :
  i <> j -> nth j (list_set i x l) d = nth j l d.
Proof.
  revert i j. induction l as [|y l IH]; intros [|i] [|j] H; simpl; try reflexivity.
  - congruence.
  - apply IH. congruence.
Qed.

Lemma length_list_set {A} (i : nat) (x : A) (l : list A) :
  length (list_set i x l) = length l.
Proof.
  revert i. induction l as [|y l IH]; intros [|i]; simpl; try reflexivity.
  now rewrite IH.
Qed.

(* ------------------------------------------------------------------ *)
(** ** insert keeps idIndex exact *)

Lemma new_adapter_well_formed : well_formed new_adapter.
Proof.
  split; [intros h []|]. split.
  - intros [|i] d v H; discriminate.
  - intros k i [].
Qed.

Lemma doc_at_Some (a : adapter) (i : nat) (d : document) :
  doc_at a i = Some d <->
  exists h, nth_error a.(col).(data) i = Some h /\ d = deref a.(heap) h.
Proof.
  unfold doc_at. destruct (nth_error (data (col a)) i) as [h|]; simpl; split.
  - intros H. injection H as <-. eauto.
  - intros [h' [H ->]]. injection H as ->. reflexivity.
  - discriminate.
  - intros [h' [H _]]. discriminate.
Qed.

(** An upsert changes the object [h] only, and not its id. *)
Lemma exact_after_merge (a : adapter) (h : handle) (merged : document) :
  lookup "id" merged = lookup "id" (deref a.(heap) h) ->
  h < length a.(heap) ->
  well_formed a ->
  well_formed (with_heap a (list_set h merged a.(heap))).
Proof.
  intros Hid Hh [Hvalid [Hex1 Hex2]].
  assert (Hsame : forall h', lookup "id" (deref (list_set h merged (heap a)) h')
                             = lookup "id" (deref (heap a) h')).
  { intros h'. unfold deref. destruct (Nat.eq_dec h h') as [<-|Hne].
    - rewrite nth_list_set_same by exact Hh. exact Hid.
    - now rewrite nth_list_set_other. }
  split; [|split].
  - intros h' Hin. simpl. rewrite length_list_set. now apply Hvalid.
  - intros i d v Hd Hv. apply doc_at_Some in Hd. simpl in Hd.
    destruct Hd as [h' [Hn ->]]. rewrite Hsame in Hv. simpl.
    apply (Hex1 i (deref (heap a) h') v); [|exact Hv].
    apply doc_at_Some. eauto.
  - intros k i Hin. simpl in Hin. destruct (Hex2 k i Hin) as [d [Hd Hk]].
    apply doc_at_Some in Hd. destruct Hd as [h' [Hn ->]].
    exists (deref (list_set h merged (heap a)) h'). split.
    + apply doc_at_Some. simpl. eauto.
    + now rewrite Hsame.
Qed.

(** A fresh insert appends a new object under a key that [idIndex] did
    not have. *)
Lemma exact_after_append (a : adapter) (doc : document) (docId : string)
      (ixs : list (string * index)) (d : bool) :
  lookup "id" doc = Some (VStr docId) ->
  map_get (VStr docId) a.(col).(idIndex) = None ->
  well_formed a ->
  well_formed
    {| heap := a.(heap) ++ [doc];
       col := {| data := a.(col).(data) ++ [length a.(heap)];
                 idIndex := map_set (VStr docId) (length a.(col).(data)) a.(col).(idIndex);
                 indexes := ixs; dirty := d |};
       queryCache := a.(queryCache); cacheHits := a.(cacheHits) |}.
Proof.
  intros Hid Hnone [Hvalid [Hex1 Hex2]].
  assert (Hold : forall i h, nth_error (data (col a)) i = Some h ->
                             deref (heap a ++ [doc]) h = deref (heap a) h).
  { intros i h Hn. unfold deref. apply app_nth1. apply Hvalid.
    eapply nth_error_In. exact Hn. }
  split; [|split].
  - intros h Hin. simpl in *. rewrite length_app. simpl.
    apply in_app_or in Hin. destruct Hin as [Hin|[<-|[]]]; [|lia].
    apply Hvalid in Hin. lia.
  - intros i d0 v Hd Hv. apply doc_at_Some in Hd. simpl in Hd.
    destruct Hd as [h [Hn ->]]. simpl.
    destruct (Nat.lt_ge_cases i (length (data (col a)))) as [Hlt|Hge].
    + rewrite nth_error_app1 in Hn by exact Hlt.
      rewrite (Hold i h Hn) in Hv.
      assert (Hget : map_get v (idIndex (col a)) = Some i).
      { apply (Hex1 i (deref (heap a) h) v); [|exact Hv].
        apply doc_at_Some. eauto. }
      rewrite map_get_map_set by reflexivity.
      destruct (strict_eq (VStr docId) v) eqn:E; [|exact Hget].
      apply strict_eq_true_iff in E. destruct E as [<- _]. congruence.
    + rewrite nth_error_app2 in Hn by exact Hge.
      destruct (i - length (data (col a))) as [|n] eqn:En; simpl in Hn;
        [|destruct n; discriminate].
      injection Hn as <-. unfold deref in Hv. rewrite nth_middle in Hv.
      rewrite Hid in Hv. injection Hv as <-.
      rewrite map_get_map_set by reflexivity. simpl. rewrite String.eqb_refl.
      f_equal. lia.
  - intros k i Hin. simpl in Hin. rewrite map_set_absent in Hin by exact Hnone.
    apply in_app_or in Hin. destruct Hin as [Hin|[Heq|[]]].
    + destruct (Hex2 k i Hin) as [d0 [Hd Hk]].
      apply doc_at_Some in Hd. destruct Hd as [h [Hn ->]].
      exists (deref (heap a) h). split; [|exact Hk].
      apply doc_at_Some. simpl. exists h. split.
      * rewrite nth_error_app1; [exact Hn|]. apply nth_error_Some. congruence.
      * symmetry. eapply Hold. exact Hn.
    + injection Heq as <- <-. exists doc. split; [|exact Hid].
      apply doc_at_Some. simpl. exists (length (heap a)). split.
      * rewrite nth_error_app2 by lia. now rewrite Nat.sub_diag.
      * unfold deref. now rewrite nth_middle.
Qed.

Section InsertLoop.
Variables (now prefix generated : string) (useSequentialIds : bool).

Let step := insert_step now prefix generated useSequentialIds.
Let run := insert_loop_run now prefix generated useSequentialIds.

Lemma insert_step_spec (st st' : insert_loop) (doc : document) (thrown : option exn) :
  keys_distinct doc ->
  well_formed st.(il_adapter) ->
  step st doc = (st', thrown) ->
  let docId := next_docId prefix generated useSequentialIds st.(il_sequence) doc in
  well_formed st'.(il_adapter)
  /\ (forall k pos, map_get k st.(il_adapter).(col).(idIndex) = Some pos ->
                    map_get k st'.(il_adapter).(col).(idIndex) = Some pos)
  /\ (thrown = None ->
      st'.(il_sequence) = next_sequence useSequentialIds st.(il_sequence) doc
      /\ st'.(il_allIdsWereGenerated) = st.(il_allIdsWereGenerated) && idless doc
      /\ (exists pos, map_get (VStr docId) st'.(il_adapter).(col).(idIndex) = Some pos)
      /\ (upserted now st st' doc docId \/ appended now st st' doc docId)).
Proof.
  intros Hkeys Hwf Hstep docId. unfold step, insert_step in Hstep.
  fold docId in Hstep.
  destruct (map_get (VStr docId) (idIndex (col (il_adapter st)))) as [i|] eqn:Hget.
  - destruct (nth_error (data (col (il_adapter st))) i) as [h|] eqn:Hnth.
    + injection Hstep as <- <-. cbn [il_adapter il_sequence il_allIdsWereGenerated
                                      il_inserted il_updated].
      split; [|split].
      * apply exact_after_merge; [| |exact Hwf].
        -- unfold upsert_merge.
           rewrite lookup_obj_set, lookup_obj_set_opt. simpl.
           rewrite lookup_obj_assign by (apply NoDup_obj_set; exact Hkeys).
           rewrite lookup_obj_set, String.eqb_refl.
           destruct Hwf as [_ [_ Hex2]].
           destruct (Hex2 _ _ (map_get_In _ _ Hget)) as [d [Hd Hid]].
           apply doc_at_Some in Hd. destruct Hd as [h' [Hn ->]].
           rewrite Hnth in Hn. injection Hn as <-. now rewrite Hid.
        -- destruct Hwf as [Hvalid _]. apply Hvalid.
           eapply nth_error_In. exact Hnth.
      * intros k pos Hk. exact Hk.
      * intros _. repeat split; [eauto|]. left. exists i, h.
        repeat split; assumption.
    + injection Hstep as <- <-. cbn [il_adapter]. split; [exact Hwf|].
      split; [tauto | discriminate].
  - destruct (_updateIndexesOnInsert (indexes (col (il_adapter st)))
                (stamp_created now (obj_set "id" (VStr docId) doc))
                (length (data (col (il_adapter st))))) as [ixs thrown'] eqn:Hix.
    assert (Hwf' :
      well_formed
        {| heap := heap (il_adapter st)
                   ++ [stamp_created now (obj_set "id" (VStr docId) doc)];
           col := {| data := data (col (il_adapter st)) ++ [length (heap (il_adapter st))];
                     idIndex := map_set (VStr docId)
                                  (length (data (col (il_adapter st))))
                                  (idIndex (col (il_adapter st)));
                     indexes := ixs;
                     dirty := dirty (col (il_adapter st)) |};
           queryCache := queryCache (il_adapter st);
           cacheHits := cacheHits (il_adapter st) |}).
    { apply exact_after_append; [|exact Hget|exact Hwf].
      unfold stamp_created. rewrite !lookup_obj_set. simpl.
      rewrite ?String.eqb_refl. reflexivity. }
    assert (Hkeep : forall k pos,
      map_get k (idIndex (col (il_adapter st))) = Some pos ->
      map_get k (map_set (VStr docId) (length (data (col (il_adapter st))))
                         (idIndex (col (il_adapter st)))) = Some pos).
    { intros k pos Hk. rewrite map_get_map_set by reflexivity.
      destruct (strict_eq (VStr docId) k) eqn:E; [|exact Hk].
      apply strict_eq_true_iff in E. destruct E as [<- _]. congruence. }
    destruct thrown' as [e|]; injection Hstep as <- <-;
      cbn [il_adapter il_sequence il_allIdsWereGenerated il_inserted il_updated
           col idIndex heap data];
      (split; [exact Hwf'|]); (split; [exact Hkeep|]); [discriminate|].
    intros _. repeat split.
    + exists (length (data (col (il_adapter st)))).
      rewrite map_get_map_set by reflexivity. simpl. rewrite ?String.eqb_refl. reflexivity.
    + right. repeat split. exact Hget.
Qed.
End InsertLoop.

(* ------------------------------------------------------------------ *)
(** ** Upsert *)

Lemma upserts_known_id (a : adapter) (doc : document) :
  idIndex_exact a -> upserts a doc -> known_id a.(col) doc.
Proof.
  intros [Hex1 _] [supplied [i [existing [Hid [Ht [Hd He]]]]]].
  exists supplied, i. repeat split; try assumption.
  exact (Hex1 i existing _ Hd He).
Qed.

Lemma touched_heap (st : insert_loop) : heap (touched st) = heap st.(il_adapter).
Proof. unfold touched. case_if; reflexivity. Qed.

Lemma touched_data (st : insert_loop) :
  data (col (touched st)) = data (col st.(il_adapter)).
Proof. unfold touched. case_if; reflexivity. Qed.

Lemma touched_idIndex (st : insert_loop) :
  idIndex (col (touched st)) = idIndex (col st.(il_adapter)).
Proof. unfold touched. case_if; reflexivity. Qed.

Lemma touched_doc_at (st : insert_loop) (i : nat) :
  doc_at (touched st) i = doc_at st.(il_adapter) i.
Proof. unfold doc_at. now rewrite touched_heap, touched_data. Qed.

Lemma touched_well_formed (st : insert_loop) :
  well_formed st.(il_adapter) -> well_formed (touched st).
Proof.
  intros [Hv [H1 H2]]. split; [|split].
  - intros h. rewrite touched_heap, touched_data. apply Hv.
  - intros i d v. rewrite touched_doc_at, touched_idIndex. apply H1.
  - intros k i. rewrite touched_idIndex. intros Hin.
    destruct (H2 k i Hin) as [d Hd]. exists d. now rewrite touched_doc_at.
Qed.

Section UpsertLoop.
Variables (now prefix generated : string) (useSequentialIds : bool).

Lemma next_docId_supplied (sequence : nat) (doc : document) (supplied : value) :
  lookup "id" doc = Some supplied -> truthy supplied = true ->
  next_docId prefix generated useSequentialIds sequence doc = js_String supplied.
Proof. intros H1 H2. unfold next_docId. now rewrite H1, H2. Qed.

(** A document whose id is known takes the upsert branch, which does not
    throw. *)
Lemma insert_step_known_id (st : insert_loop) (doc : document) :
  keys_distinct doc ->
  well_formed st.(il_adapter) ->
  known_id st.(il_adapter).(col) doc ->
  exists st',
    insert_step now prefix generated useSequentialIds st doc = (st', None)
    /\ well_formed st'.(il_adapter)
    /\ upserted now st st' doc
         (next_docId prefix generated useSequentialIds st.(il_sequence) doc).
Proof.
  intros Hkeys Hwf [supplied [i [Hid [Ht Hget]]]].
  destruct (insert_step now prefix generated useSequentialIds st doc)
    as [st' thrown] eqn:Hstep.
  pose proof (insert_step_spec now prefix generated useSequentialIds st
                               Hkeys Hwf Hstep) as Hspec.
  cbv zeta in Hspec. destruct Hspec as [Hwf' [_ Hok]].
  rewrite (next_docId_supplied (il_sequence st) doc Hid Ht) in *.
  assert (thrown = None) as ->.
  { unfold insert_step in Hstep.
    rewrite (next_docId_supplied (il_sequence st) doc Hid Ht), Hget in Hstep.
    destruct Hwf as [_ [_ Hex2]].
    destruct (Hex2 _ _ (map_get_In _ _ Hget)) as [d [Hd _]].
    apply doc_at_Some in Hd. destruct Hd as [h [Hn _]].
    rewrite Hn in Hstep. now injection Hstep as _ <-. }
  exists st'. split; [reflexivity|]. split; [exact Hwf'|].
  destruct (Hok eq_refl) as [_ [_ [_ [Hup|Happ]]]]; [exact Hup|].
  destruct Happ as [Hnone _]. congruence.
Qed.

Lemma insert_loop_known_ids (docs : list document) (st : insert_loop) :
  Forall keys_distinct docs ->
  well_formed st.(il_adapter) ->
  Forall (known_id st.(il_adapter).(col)) docs ->
  exists st',
    insert_loop_run now prefix generated useSequentialIds docs st = (st', None)
    /\ well_formed st'.(il_adapter)
    /\ st'.(il_adapter).(col) = st.(il_adapter).(col)
    /\ st'.(il_inserted) = st.(il_inserted)
    /\ length st'.(il_updated) = length st.(il_updated) + length docs.
Proof.
  revert st. induction docs as [|doc docs IH]; intros st Hkeys Hwf Hknown.
  - exists st. simpl. split; [reflexivity|]. split; [exact Hwf|].
    split; [reflexivity|]. split; [reflexivity|lia].
  - inversion Hkeys as [|? ? Hk Hks]; subst.
    inversion Hknown as [|? ? Hkn Hkns]; subst.
    destruct (insert_step_known_id st Hk Hwf Hkn) as [st1 [Hstep [Hwf1 Hup]]].
    destruct Hup as [i [h [_ [_ [_ [Hcol [Hins Hupd]]]]]]].
    destruct (IH st1 Hks Hwf1) as [st' [Hrun [Hwf' [Hcol' [Hins' Hupd']]]]].
    { now rewrite Hcol. }
    exists st'. simpl. rewrite Hstep. simpl.
    split; [exact Hrun|]. split; [exact Hwf'|].
    split; [congruence|]. split; [congruence|].
    rewrite Hupd', Hupd, length_app. simpl. lia.
Qed.

Lemma apply_upsert_id (existing doc : document) :
  keys_distinct doc ->
  lookup "id" (apply_upsert now existing doc) = lookup "id" existing.
Proof.
  intros Hkeys. unfold apply_upsert, addressed_to.
  destruct (lookup "id" existing) as [[| | |s| |]|] eqn:Hid; try (now rewrite Hid).
  destruct (truthy_opt (lookup "id" doc) && (supplied_id doc =? s)) eqn:E;
    [|exact Hid].
  apply andb_prop in E. destruct E as [_ E]. apply String.eqb_eq in E.
  unfold upsert_merge. rewrite lookup_obj_set, lookup_obj_set_opt. simpl.
  rewrite lookup_obj_assign by (apply NoDup_obj_set; exact Hkeys).
  rewrite lookup_obj_set, String.eqb_refl. now rewrite E.
Qed.

(** The turn of a document whose id is known merges it into the document
    it is addressed to and leaves the others as they are. *)
Lemma insert_step_known_id_documents (st st' : insert_loop) (doc : document) :
  keys_distinct doc ->
  well_formed st.(il_adapter) ->
  known_id st.(il_adapter).(col) doc ->
  insert_step now prefix generated useSequentialIds st doc = (st', None) ->
  forall i existing,
    doc_at st.(il_adapter) i = Some existing ->
    doc_at st'.(il_adapter) i = Some (apply_upsert now existing doc).
Proof.
  intros Hkeys Hwf Hknown Hstep i existing Hd.
  destruct (insert_step_known_id st Hkeys Hwf Hknown) as [st2 [Hstep2 [_ Hup]]].
  rewrite Hstep in Hstep2. injection Hstep2 as <-.
  destruct Hknown as [supplied [i0 [Hid [Ht Hget0]]]].
  rewrite (next_docId_supplied (il_sequence st) doc Hid Ht) in Hup.
  destruct Hup as [i1 [h1 [Hget [Hnth [Hheap [Hcol _]]]]]].
  assert (Hsup : supplied_id doc = js_String supplied)
    by (unfold supplied_id; now rewrite Hid).
  destruct Hwf as [Hvalid [Hex1 Hex2]].
  destruct (Hex2 _ _ (map_get_In _ _ Hget)) as [d1 [Hd1 Hid1]].
  apply doc_at_Some in Hd1. destruct Hd1 as [h1' [Hn1 ->]].
  rewrite Hnth in Hn1. injection Hn1 as <-.
  pose proof Hd as Hd'. apply doc_at_Some in Hd'. destruct Hd' as [h [Hn ->]].
  apply doc_at_Some. exists h. rewrite Hcol. split; [exact Hn|].
  rewrite Hheap. unfold apply_upsert, addressed_to.
  destruct (Nat.eq_dec h1 h) as [<-|Hne].
  - rewrite Hid1, Hid, Hsup. simpl. rewrite Ht, String.eqb_refl. simpl.
    symmetry. unfold deref at 1. rewrite nth_list_set_same; [reflexivity|].
    apply Hvalid. eapply nth_error_In. exact Hnth.
  - assert (Hsame : deref (list_set h1
                      (upsert_merge now (deref (heap (il_adapter st)) h1)
                         (obj_set "id" (VStr (js_String supplied)) doc))
                      (heap (il_adapter st))) h
                    = deref (heap (il_adapter st)) h)
      by (unfold deref; now rewrite nth_list_set_other).
    rewrite Hsame.
    destruct (lookup "id" (deref (heap (il_adapter st)) h))
      as [[| | |s| |]|] eqn:Hidh; try reflexivity.
    rewrite Hid, Hsup. simpl. rewrite Ht. simpl.
    destruct (js_String supplied =? s) eqn:E; [|reflexivity].
    apply String.eqb_eq in E. subst s. exfalso.
    pose proof (Hex1 i _ _ Hd Hidh) as Hi. rewrite Hget in Hi.
    injection Hi as ->. rewrite Hnth in Hn. injection Hn as ->. congruence.
Qed.

Lemma insert_loop_known_ids_documents (docs : list document) (st st' : insert_loop) :
  Forall keys_distinct docs ->
  well_formed st.(il_adapter) ->
  Forall (known_id st.(il_adapter).(col)) docs ->
  insert_loop_run now prefix generated useSequentialIds docs st = (st', None) ->
  forall i existing,
    doc_at st.(il_adapter) i = Some existing ->
    doc_at st'.(il_adapter) i = Some (fold_left (apply_upsert now) docs existing).
Proof.
  revert st. induction docs as [|doc docs IH]; intros st Hkeys Hwf Hknown Hrun i existing Hd.
  - simpl in Hrun. injection Hrun as <-. exact Hd.
  - inversion Hkeys as [|? ? Hk Hks]; subst.
    inversion Hknown as [|? ? Hkn Hkns]; subst.
    destruct (insert_step_known_id st Hk Hwf Hkn) as [st1 [Hstep [Hwf1 Hup]]].
    simpl in Hrun. rewrite Hstep in Hrun. simpl in Hrun.
    destruct Hup as [i1 [h1 [_ [_ [_ [Hcol _]]]]]].
    simpl. apply (IH st1 Hks Hwf1).
    + now rewrite Hcol.
    + exact Hrun.
    + eapply insert_step_known_id_documents.
      * exact Hk.
      * exact Hwf.
      * exact Hkn.
      * exact Hstep.
      * exact Hd.
Qed.
End UpsertLoop.

(** Upserts through an exact idIndex.  Every document of [docs] carries
    the id of a document of the collection, which idIndex has.  Then insert succeeds with [insertedCount] 0 and
    [updatedCount] the number of documents given, and [data] has the
    handles it had: nothing is appended.  Every document of the collection
    is afterwards what the documents given made of it in turn, each one
    merging into the document whose id it carries and leaving the others
    as they are; and a merge leaves the existing document with the fields
    of the input over its own, its id, its original [createdAt], and
    [updatedAt] set to the time of the operation. *)
Theorem insert_existing_id_merges
        (now prefix generated : string) (a : adapter) (docs : list document) :
  well_formed a ->
  Forall keys_distinct docs ->
  Forall (upserts a) docs ->
  exists a',
    insert now prefix generated a docs
    = (a', envelope true
             (VObj [("insertedCount", VNum 0);
                    ("updatedCount", VNum (Z.of_nat (length docs)))])
             VNull)
    /\ a'.(col).(data) = a.(col).(data)
    /\ (forall i existing,
          doc_at a i = Some existing ->
          doc_at a' i = Some (fold_left (apply_upsert now) docs existing))
    /\ (forall existing doc,
          In doc docs -> addressed_to existing doc = true ->
          let merged := apply_upsert now existing doc in
          lookup "createdAt" merged = lookup "createdAt" existing
          /\ lookup "updatedAt" merged = Some (VStr now)
          /\ lookup "id" merged = lookup "id" existing
          /\ forall k, k <> "id" -> k <> "createdAt" -> k <> "updatedAt" ->
               lookup k merged
               = match lookup k doc with
                 | Some v => Some v
                 | None => lookup k existing
                 end).
Proof.
  intros Hwf Hkeys Hups.
  set (useSeq := (2 <=? length docs)%nat).
  set (start := {| il_adapter := a; il_inserted := []; il_updated := [];
                   il_sequence := 0; il_allIdsWereGenerated := true |}).
  assert (Hknown : Forall (known_id (col (il_adapter start))) docs).
  { eapply Forall_impl; [|exact Hups].
    intros doc. apply upserts_known_id. exact (proj2 Hwf). }
  destruct (insert_loop_known_ids now prefix generated useSeq
              start Hkeys Hwf Hknown)
    as [st' [Hrun [Hwf' [Hcol [Hins Hupd]]]]].
  simpl in Hcol, Hins, Hupd.
  exists (touched st'). split; [|split; [|split]].
  - unfold insert. fold useSeq. fold start. rewrite Hrun.
    unfold insert_response. rewrite Hins, Hupd. simpl. reflexivity.
  - now rewrite touched_data, Hcol.
  - intros i existing Hd. rewrite touched_doc_at.
    eapply insert_loop_known_ids_documents with (st := start).
    + exact Hkeys.
    + exact Hwf.
    + exact Hknown.
    + exact Hrun.
    + exact Hd.
  - intros existing doc Hin Haddr merged.
    assert (Hk : keys_distinct doc)
      by (rewrite Forall_forall in Hkeys; now apply Hkeys).
    assert (Hnd : NoDup (map fst (obj_set "id" (VStr (supplied_id doc)) doc)))
      by (apply NoDup_obj_set; exact Hk).
    split; [|split; [|split]].
    + subst merged. unfold apply_upsert. rewrite Haddr.
      unfold upsert_merge. rewrite lookup_obj_set, lookup_obj_set_opt.
      simpl. reflexivity.
    + subst merged. unfold apply_upsert. rewrite Haddr.
      unfold upsert_merge. rewrite lookup_obj_set. simpl. reflexivity.
    + subst merged. now apply apply_upsert_id.
    + intros k Hk1 Hk2 Hk3. subst merged. unfold apply_upsert. rewrite Haddr.
      unfold upsert_merge. rewrite lookup_obj_set, lookup_obj_set_opt.
      assert (E1 : ("updatedAt" =? k) = false)
        by (apply String.eqb_neq; congruence).
      assert (E2 : ("createdAt" =? k) = false)
        by (apply String.eqb_neq; congruence).
      assert (E3 : ("id" =? k) = false)
        by (apply String.eqb_neq; congruence).
      rewrite E1, E2. rewrite lookup_obj_assign by exact Hnd.
      rewrite lookup_obj_set, E3. reflexivity.
Qed.

(* ------------------------------------------------------------------ *)
(** ** The loop of insert *)

Section InsertRun.
Variables (now prefix generated : string) (useSequentialIds : bool).

Lemma insert_loop_spec (docs : list document) (st st' : insert_loop)
      (thrown : option exn) :
  Forall keys_distinct docs ->
  well_formed st.(il_adapter) ->
  insert_loop_run now prefix generated useSequentialIds docs st = (st', thrown) ->
  well_formed st'.(il_adapter)
  /\ (forall k pos, map_get k st.(il_adapter).(col).(idIndex) = Some pos ->
                    map_get k st'.(il_adapter).(col).(idIndex) = Some pos)
  /\ (thrown = None ->
      st'.(il_allIdsWereGenerated)
      = st.(il_allIdsWereGenerated) && forallb idless docs
      /\ (exists fresh,
             st'.(il_adapter).(col).(data) = st.(il_adapter).(col).(data) ++ fresh
             /\ st'.(il_inserted) = st.(il_inserted) ++ fresh)
      /\ (forall n doc,
             nth_error docs n = Some doc ->
             exists pos,
               map_get (VStr (next_docId prefix generated useSequentialIds
                                (sequence_before useSequentialIds docs n st.(il_sequence)) doc))
                       st'.(il_adapter).(col).(idIndex) = Some pos)).
Proof.
  revert st. induction docs as [|doc docs IH]; intros st Hkeys Hwf Hrun.
  - simpl in Hrun. injection Hrun as <- <-.
    split; [exact Hwf|]. split; [tauto|]. intros _.
    split; [now rewrite andb_true_r|].
    split; [exists []; now rewrite !app_nil_r|].
    intros [|n] doc H; discriminate.
  - inversion Hkeys as [|? ? Hk Hks]; subst.
    simpl in Hrun.
    destruct (insert_step now prefix generated useSequentialIds st doc)
      as [st1 thrown1] eqn:Hstep.
    pose proof (insert_step_spec now prefix generated useSequentialIds st
                                 Hk Hwf Hstep) as Hspec.
    cbv zeta in Hspec. destruct Hspec as [Hwf1 [Hkeep1 Hok1]].
    destruct thrown1 as [e|]; simpl in Hrun.
    + injection Hrun as <- <-. split; [exact Hwf1|]. split; [exact Hkeep1|].
      discriminate.
    + destruct (Hok1 eq_refl) as [Hseq1 [Hall1 [Hkey1 Hbranch]]].
      destruct (IH st1 Hks Hwf1 Hrun) as [Hwf' [Hkeep' Hok']].
      split; [exact Hwf'|]. split; [auto|]. intros ->.
      destruct (Hok' eq_refl) as [Hall' [[fresh [Hdata' Hins']] Hkeys']].
      split; [|split].
      * rewrite Hall', Hall1. simpl. now rewrite andb_assoc.
      * destruct Hbranch as [Hup|Happ].
        -- destruct Hup as [i [h [_ [_ [_ [Hcol [Hins _]]]]]]].
           exists fresh. rewrite Hdata', Hins', Hcol, Hins. tauto.
        -- destruct Happ as [_ [_ [Hdata [Hins _]]]].
           exists (length (heap (il_adapter st)) :: fresh).
           rewrite Hdata', Hins', Hdata, Hins, <- !app_assoc. tauto.
      * intros [|n] d Hn; simpl in Hn.
        -- injection Hn as <-. destruct Hkey1 as [pos Hpos].
           exists pos. apply Hkeep'. exact Hpos.
        -- unfold sequence_before. simpl. rewrite <- Hseq1.
           apply Hkeys'. exact Hn.
Qed.

Lemma sequence_before_counts (docs : list document) (n sequence : nat) :
  useSequentialIds = true ->
  sequence_before useSequentialIds docs n sequence = sequence + length (filter idless (firstn n docs)).
Proof.
  intros Huse. unfold sequence_before. revert sequence.
  induction (firstn n docs) as [|d l IH]; intros sequence; simpl; [lia|].
  rewrite IH. unfold next_sequence. rewrite Huse, andb_true_r.
  destruct (idless d); simpl; lia.
Qed.
End InsertRun.

(** insert keeps the handles valid and idIndex exact, also when it stops
    on an exception. *)
Lemma insert_well_formed (now prefix generated : string) (a : adapter)
      (docs : list document) :
  well_formed a -> Forall keys_distinct docs ->
  well_formed (fst (insert now prefix generated a docs)).
Proof.
  intros Hwf Hkeys. unfold insert.
  destruct (insert_loop_run _ _ _ _ _ _) as [st thrown] eqn:Hrun.
  apply insert_loop_spec in Hrun as [Hwf' _]; [|exact Hkeys|exact Hwf].
  destruct thrown; simpl; [exact Hwf' | now apply touched_well_formed].
Qed.

Lemma insert_existing_id_merges_witness :
  let a := fst (insert "t0" "p" "g" new_adapter
                  [[("id", VStr "u1"); ("name", VStr "Alice"); ("score", VNum 100)]]) in
  exists a',
    insert "t1" "q" "h" a
           [[("id", VStr "u1"); ("name", VStr "Alice Updated"); ("score", VNum 200)]]
    = (a', envelope true
             (VObj [("insertedCount", VNum 0); ("updatedCount", VNum 1)]) VNull)
    /\ a'.(col).(data) = a.(col).(data).
Proof.
  cbv zeta.
  destruct (@insert_existing_id_merges "t1" "q" "h"
              (fst (insert "t0" "p" "g" new_adapter
                      [[("id", VStr "u1"); ("name", VStr "Alice");
                        ("score", VNum 100)]]))
              [[("id", VStr "u1"); ("name", VStr "Alice Updated");
                ("score", VNum 200)]])
    as [a' [Hins [Hdata _]]].
  - apply insert_well_formed; [exact new_adapter_well_formed|].
    repeat constructor; simpl; intuition discriminate.
  - repeat constructor; simpl; intuition discriminate.
  - constructor; [|constructor].
    exists (VStr "u1"), 0,
      [("id", VStr "u1"); ("name", VStr "Alice"); ("score", VNum 100);
       ("createdAt", VStr "t0")].
    repeat split.
  - exists a'. split; [exact Hins | exact Hdata].
Defined.

Section UpsertScenario.
Context {rt : JsRuntime}.

(** C5.  insert looks for the id in [idIndex] only.  After
    updateById("a", [{$set: {id: "b"}}]) the collection holds one
    document, with id ["b"], which [idIndex] does not have; the insert of
    [{id: "b", n: 2}] does not merge into it: a second document with id
    ["b"] is appended and reported as inserted, with [updatedCount] 0,
    and the existing document is left as it was. *)
Theorem insert_existing_id_appends_after_id_update :
  let existing := [("id", VStr "b"); ("n", VNum 1); ("createdAt", VStr "t0");
                   ("updatedAt", VStr "t1")] in
  documents after_id_update = [existing]
  /\ insert "t2" "p" "g" after_id_update [[("id", VStr "b"); ("n", VNum 2)]]
     = (fst (insert "t2" "p" "g" after_id_update [[("id", VStr "b"); ("n", VNum 2)]]),
        envelope true
          (VObj [("insertedCount", VNum 1); ("updatedCount", VNum 0);
                 ("insertedIds", VArr [VStr "b"])])
          VNull)
  /\ documents (fst (insert "t2" "p" "g" after_id_update
                       [[("id", VStr "b"); ("n", VNum 2)]]))
     = [existing; [("id", VStr "b"); ("n", VNum 2); ("createdAt", VStr "t2")]].
Proof. cbv zeta. repeat split; vm_compute; reflexivity. Qed.
End UpsertScenario.

(* ------------------------------------------------------------------ *)
(** ** Sequential ids and the report of insert *)

Lemma next_docId_idless (prefix generated : string) (sequence : nat)
      (doc : document) :
  idless doc = true ->
  next_docId prefix generated true sequence doc = sequential_id prefix (S sequence).
Proof.
  intros H. unfold next_docId, next_sequence. rewrite H. simpl.
  unfold idless, truthy_opt in H.
  destruct (lookup "id" doc) as [i|]; [|reflexivity].
  apply negb_true_iff in H. now rewrite H.
Qed.

Lemma last_map {A B} (f : A -> B) (l : list A) (d : A) (d' : B) :
  l <> [] -> last (map f l) d' = f (last l d).
Proof.
  induction l as [|x l IH]; [congruence|]. intros _.
  destruct l as [|y l]; [reflexivity|].
  change (last (f x :: map f (y :: l)) d' = f (last (y :: l) d)).
  change (last (f x :: map f (y :: l)) d') with (last (map f (y :: l)) d').
  apply IH. discriminate.
Qed.

Lemma hd_map {A B} (f : A -> B) (l : list A) (d : A) (d' : B) :
  l <> [] -> hd d' (map f l) = f (hd d l).
Proof. destruct l; [congruence | reflexivity]. Qed.

Lemma appended_documents_app (a a' : adapter) (fresh : list handle) :
  a'.(col).(data) = a.(col).(data) ++ fresh ->
  appended_documents a a' = map (deref a'.(heap)) fresh.
Proof.
  intros H. unfold appended_documents, documents.
  rewrite H, map_app, length_map, skipn_app, length_map, Nat.sub_diag.
  rewrite skipn_all2 by (rewrite length_map; lia). reflexivity.
Qed.

Lemma append_inj_l (p s t : string) : (p ++ s = p ++ t)%string -> s = t.
Proof.
  induction p as [|c p IH]; simpl; intros H; [exact H|].
  injection H as H. now apply IH.
Qed.

Lemma string_of_nat_inj (n m : nat) : string_of_nat n = string_of_nat m -> n = m.
Proof.
  unfold string_of_nat. intros H.
  assert (E : Some (Nat.to_uint n) = Some (Nat.to_uint m)).
  { rewrite <- !NilEmpty.usu. now rewrite H. }
  injection E as E. now apply Unsigned.to_uint_inj.
Qed.

Lemma sequential_id_inj (prefix : string) (n m : nat) :
  sequential_id prefix n = sequential_id prefix m -> n = m.
Proof.
  unfold sequential_id. intros H. apply append_inj_l in H.
  simpl in H. injection H as H. now apply string_of_nat_inj.
Qed.

Section InsertStores.
Variables (now prefix generated : string) (useSequentialIds : bool).

(** The turn of [doc] leaves a document with the id of the turn and the
    fields of [doc] where idIndex has that id. *)
Lemma insert_step_stores (st st' : insert_loop) (doc : document) :
  keys_distinct doc ->
  well_formed st.(il_adapter) ->
  insert_step now prefix generated useSequentialIds st doc = (st', None) ->
  let docId := next_docId prefix generated useSequentialIds st.(il_sequence) doc in
  exists pos d,
    map_get (VStr docId) st'.(il_adapter).(col).(idIndex) = Some pos
    /\ doc_at st'.(il_adapter) pos = Some d
    /\ lookup "id" d = Some (VStr docId)
    /\ carries d doc.
Proof.
  intros Hkeys Hwf Hstep docId.
  pose proof (insert_step_spec now prefix generated useSequentialIds st
                               Hkeys Hwf Hstep) as Hspec.
  cbv zeta in Hspec. destruct Hspec as [Hwf' [_ Hok]].
  destruct (Hok eq_refl) as [_ [_ [[pos Hpos] Hbranch]]].
  fold docId in Hpos, Hbranch.
  pose proof Hwf' as [_ [_ Hex2]].
  destruct (Hex2 _ _ (map_get_In _ _ Hpos)) as [d [Hd Hid]].
  exists pos, d. split; [exact Hpos|]. split; [exact Hd|]. split; [exact Hid|].
  intros k v Hk1 Hk2 Hk3 Hdoc.
  assert (E1 : ("updatedAt" =? k) = false) by (apply String.eqb_neq; congruence).
  assert (E2 : ("createdAt" =? k) = false) by (apply String.eqb_neq; congruence).
  assert (E3 : ("id" =? k) = false) by (apply String.eqb_neq; congruence).
  apply doc_at_Some in Hd. destruct Hd as [h [Hnth ->]].
  pose proof Hwf as [Hvalid [Hex1a Hex2a]].
  destruct Hbranch as [Hup | Happ].
  - destruct Hup as [i [h1 [Hget [Hnth1 [Hheap [Hcol _]]]]]].
    rewrite Hcol in Hpos, Hnth. rewrite Hpos in Hget. injection Hget as <-.
    rewrite Hnth1 in Hnth. injection Hnth as <-.
    rewrite Hheap. unfold deref at 1. rewrite nth_list_set_same.
    + unfold upsert_merge.
      rewrite lookup_obj_set, E1, lookup_obj_set_opt, E2.
      rewrite lookup_obj_assign by (apply NoDup_obj_set; exact Hkeys).
      now rewrite lookup_obj_set, E3, Hdoc.
    + apply Hvalid. eapply nth_error_In. exact Hnth1.
  - destruct Happ as [Hnone [Hheap [Hdata _]]].
    assert (Hlast : pos = length (data (col (il_adapter st)))).
    { destruct (Nat.eq_dec pos (length (data (col (il_adapter st))))) as [E|E];
        [exact E|].
      exfalso. rewrite Hdata in Hnth.
      assert (Hlt : pos < length (data (col (il_adapter st)))).
      { assert (Hsome : nth_error (data (col (il_adapter st))
                                   ++ [length (heap (il_adapter st))]) pos <> None)
          by congruence.
        apply nth_error_Some in Hsome. rewrite length_app in Hsome.
        simpl in Hsome. lia. }
      rewrite nth_error_app1 in Hnth by exact Hlt.
      assert (Hold : deref (heap (il_adapter st')) h = deref (heap (il_adapter st)) h).
      { rewrite Hheap. unfold deref. apply app_nth1.
        apply Hvalid. eapply nth_error_In. exact Hnth. }
      rewrite Hold in Hid.
      assert (Hdoc_at : doc_at (il_adapter st) pos = Some (deref (heap (il_adapter st)) h))
        by (apply doc_at_Some; eauto).
      rewrite (Hex1a _ _ _ Hdoc_at Hid) in Hnone. discriminate. }
    subst pos. rewrite Hdata in Hnth.
    rewrite nth_error_app2, Nat.sub_diag in Hnth by lia.
    injection Hnth as <-. rewrite Hheap. unfold deref.
    rewrite app_nth2, Nat.sub_diag by lia. cbn [nth].
    unfold stamp_created. rewrite lookup_obj_set, E2.
    now rewrite lookup_obj_set, E3.
Qed.

(** The turn of a document with another id leaves the document stored
    under [id0] where and as it was. *)
Lemma insert_step_keeps (st st' : insert_loop) (doc : document)
      (id0 : string) (pos : nat) (d : document) :
  keys_distinct doc ->
  well_formed st.(il_adapter) ->
  insert_step now prefix generated useSequentialIds st doc = (st', None) ->
  next_docId prefix generated useSequentialIds st.(il_sequence) doc <> id0 ->
  map_get (VStr id0) st.(il_adapter).(col).(idIndex) = Some pos ->
  doc_at st.(il_adapter) pos = Some d ->
  map_get (VStr id0) st'.(il_adapter).(col).(idIndex) = Some pos
  /\ doc_at st'.(il_adapter) pos = Some d.
Proof.
  intros Hkeys Hwf Hstep Hne Hget Hd.
  pose proof (insert_step_spec now prefix generated useSequentialIds st
                               Hkeys Hwf Hstep) as Hspec.
  cbv zeta in Hspec. destruct Hspec as [Hwf' [Hkeep Hok]].
  split; [now apply Hkeep|].
  destruct (Hok eq_refl) as [_ [_ [_ Hbranch]]].
  pose proof Hwf as [Hvalid [Hex1 Hex2]].
  apply doc_at_Some in Hd. destruct Hd as [h0 [Hn0 ->]].
  apply doc_at_Some. exists h0.
  destruct Hbranch as [Hup | Happ].
  - destruct Hup as [i [h [Hgeti [Hnth [Hheap [Hcol _]]]]]].
    rewrite Hcol. split; [exact Hn0|].
    rewrite Hheap. unfold deref. symmetry. apply nth_list_set_other.
    intros ->.
    destruct (Hex2 _ _ (map_get_In _ _ Hgeti)) as [di [Hdi Hidi]].
    destruct (Hex2 _ _ (map_get_In _ _ Hget)) as [dp [Hdp Hidp]].
    apply doc_at_Some in Hdi. destruct Hdi as [hi [Hni ->]].
    apply doc_at_Some in Hdp. destruct Hdp as [hp [Hnp ->]].
    rewrite Hnth in Hni. injection Hni as <-.
    rewrite Hn0 in Hnp. injection Hnp as <-.
    rewrite Hidi in Hidp. injection Hidp as E. contradiction.
  - destruct Happ as [_ [Hheap [Hdata _]]].
    rewrite Hdata, Hheap. split.
    + rewrite nth_error_app1; [exact Hn0|].
      apply nth_error_Some. congruence.
    + unfold deref. symmetry. apply app_nth1.
      apply Hvalid. eapply nth_error_In. exact Hn0.
Qed.

Lemma insert_loop_keeps (docs : list document) (st st' : insert_loop)
      (id0 : string) (pos : nat) (d : document) :
  Forall keys_distinct docs ->
  well_formed st.(il_adapter) ->
  insert_loop_run now prefix generated useSequentialIds docs st = (st', None) ->
  (forall m doc',
      nth_error docs m = Some doc' ->
      next_docId prefix generated useSequentialIds
        (sequence_before useSequentialIds docs m st.(il_sequence)) doc' <> id0) ->
  map_get (VStr id0) st.(il_adapter).(col).(idIndex) = Some pos ->
  doc_at st.(il_adapter) pos = Some d ->
  map_get (VStr id0) st'.(il_adapter).(col).(idIndex) = Some pos
  /\ doc_at st'.(il_adapter) pos = Some d.
Proof.
  revert st. induction docs as [|doc docs IH]; intros st Hkeys Hwf Hrun Hothers Hget Hd.
  - simpl in Hrun. injection Hrun as <-. split; assumption.
  - inversion Hkeys as [|? ? Hk Hks]; subst.
    simpl in Hrun.
    destruct (insert_step now prefix generated useSequentialIds st doc)
      as [st1 thrown1] eqn:Hstep.
    destruct thrown1 as [e|]; simpl in Hrun; [discriminate|].
    pose proof (insert_step_spec now prefix generated useSequentialIds st
                                 Hk Hwf Hstep) as Hspec.
    cbv zeta in Hspec. destruct Hspec as [Hwf1 [_ Hok1]].
    destruct (Hok1 eq_refl) as [Hseq1 _].
    destruct (@insert_step_keeps st st1 doc id0 pos d Hk Hwf Hstep
                (Hothers 0 doc eq_refl) Hget Hd)
      as [Hget1 Hd1].
    apply (IH st1 Hks Hwf1 Hrun); [|exact Hget1|exact Hd1].
    intros m doc' Hm. rewrite Hseq1. exact (Hothers (S m) doc' Hm).
Qed.

(** The [n]-th document of the list is stored under the id of its turn,
    as long as no later document of the list comes with that id. *)
Lemma insert_loop_stores (docs : list document) (st st' : insert_loop)
      (n : nat) (doc : document) :
  Forall keys_distinct docs ->
  well_formed st.(il_adapter) ->
  insert_loop_run now prefix generated useSequentialIds docs st = (st', None) ->
  nth_error docs n = Some doc ->
  let docId := next_docId prefix generated useSequentialIds
                 (sequence_before useSequentialIds docs n st.(il_sequence)) doc in
  (forall m doc',
      n < m -> nth_error docs m = Some doc' ->
      next_docId prefix generated useSequentialIds
        (sequence_before useSequentialIds docs m st.(il_sequence)) doc' <> docId) ->
  exists pos d,
    doc_at st'.(il_adapter) pos = Some d
    /\ lookup "id" d = Some (VStr docId)
    /\ carries d doc.
Proof.
  revert st n. induction docs as [|doc0 docs IH];
    intros st n Hkeys Hwf Hrun Hn docId Hlater.
  - destruct n; discriminate.
  - inversion Hkeys as [|? ? Hk Hks]; subst.
    simpl in Hrun.
    destruct (insert_step now prefix generated useSequentialIds st doc0)
      as [st1 thrown1] eqn:Hstep.
    destruct thrown1 as [e|]; simpl in Hrun; [discriminate|].
    pose proof (insert_step_spec now prefix generated useSequentialIds st
                                 Hk Hwf Hstep) as Hspec.
    cbv zeta in Hspec. destruct Hspec as [Hwf1 [_ Hok1]].
    destruct (Hok1 eq_refl) as [Hseq1 _].
    destruct n as [|n].
    + simpl in Hn. injection Hn as ->.
      destruct (@insert_step_stores st st1 doc Hk Hwf Hstep) as [pos [d [Hpos [Hd [Hid Hcar]]]]].
      destruct (@insert_loop_keeps docs st1 st'
                  (next_docId prefix generated useSequentialIds (il_sequence st) doc)
                  pos d Hks Hwf1 Hrun) as [_ Hd'];
        [| exact Hpos | exact Hd |].
      * intros m doc' Hm. rewrite Hseq1.
        apply (Hlater (S m) doc'); [lia | exact Hm].
      * exists pos, d. auto.
    + simpl in Hn. subst docId.
      assert (Hshift : forall k,
                sequence_before useSequentialIds (doc0 :: docs) (S k) (il_sequence st)
                = sequence_before useSequentialIds docs k (il_sequence st1))
        by (intros k; rewrite Hseq1; reflexivity).
      rewrite Hshift in *.
      apply (IH st1 n Hks Hwf1 Hrun Hn).
      intros m doc' Hlt Hm. rewrite <- Hshift.
      apply (Hlater (S m) doc'); [lia | exact Hm].
Qed.
End InsertStores.

Lemma idless_count_lt (docs : list document) (n m : nat) (doc : document) :
  n < m -> nth_error docs n = Some doc -> idless doc = true ->
  length (filter idless (firstn n docs)) < length (filter idless (firstn m docs)).
Proof.
  revert n m. induction docs as [|d docs IH]; intros n m Hlt Hn Hid.
  - destruct n; discriminate.
  - destruct m as [|m]; [lia|]. destruct n as [|n].
    + simpl in Hn. injection Hn as ->. cbn [firstn filter]. rewrite Hid.
      cbn [length]. lia.
    + simpl in Hn. cbn [firstn filter].
      assert (H := IH n m ltac:(lia) Hn Hid).
      destruct (idless d); cbn [length]; lia.
Qed.

Lemma next_docId_brought (prefix generated : string) (useSequentialIds : bool)
      (sequence : nat) (doc : document) :
  idless doc = false ->
  exists supplied,
    lookup "id" doc = Some supplied /\ truthy supplied = true
    /\ next_docId prefix generated useSequentialIds sequence doc = js_String supplied.
Proof.
  unfold idless, next_docId. intros H. apply negb_false_iff in H.
  destruct (lookup "id" doc) as [v|]; [|discriminate].
  simpl in H. exists v. rewrite H. auto.
Qed.

(** C9, as the code has it.  An insert of two documents or more that
    completes stores the [k]-th document that came without an id under
    [prefix_k], [k] counting the documents without id: the collection
    then holds a document with that id and the fields of that input (as
    long as no later document of the list brings that very id and
    merges into it).  Its report carries the ids of the documents
    appended when they are between 1 and 20, and otherwise the first id,
    the last id and, only when every document of the list came without an
    id, the prefix. *)
Theorem insert_sequential_ids_and_report
        (now prefix generated : string) (a a' : adapter)
        (docs : list document) (report : document) :
  well_formed a ->
  Forall keys_distinct docs ->
  2 <= length docs ->
  insert now prefix generated a docs = (a', envelope true (VObj report) VNull) ->
  (forall n doc,
      nth_error docs n = Some doc -> idless doc = true ->
      let id := sequential_id prefix (S (length (filter idless (firstn n docs)))) in
      (forall m doc' supplied,
          n < m -> nth_error docs m = Some doc' ->
          lookup "id" doc' = Some supplied -> truthy supplied = true ->
          js_String supplied <> id) ->
      exists pos d,
        doc_at a' pos = Some d
        /\ lookup "id" d = Some (VStr id)
        /\ carries d doc)
  /\ (let fresh := appended_documents a a' in
      lookup "insertedCount" report = Some (VNum (Z.of_nat (length fresh)))
      /\ (1 <= length fresh <= 20 ->
          lookup "insertedIds" report
          = Some (VArr (map (fun d => null_if_undefined (lookup "id" d)) fresh)))
      /\ (20 < length fresh ->
          lookup "firstId" report = lookup "id" (hd (A := document) [] fresh)
          /\ lookup "lastId" report = lookup "id" (last fresh [])
          /\ lookup "prefix" report
             = if forallb idless docs then Some (VStr (prefix ++ "_")) else None)).
Proof.
  intros Hwf Hkeys Hlen Hins. unfold insert in Hins.
  assert (Huse : (2 <=? length docs)%nat = true) by now apply Nat.leb_le.
  rewrite Huse in Hins.
  destruct (insert_loop_run now prefix generated true docs _)
    as [st thrown] eqn:Hrun.
  destruct thrown as [e|]; [discriminate|].
  injection Hins as <- <-.
  pose proof Hrun as Hrun'.
  apply insert_loop_spec in Hrun as [Hwf' [_ Hok]]; [|exact Hkeys|exact Hwf].
  destruct (Hok eq_refl) as [Hall [[fresh [Hdata Hinserted]] Hids]].
  simpl in Hall, Hdata, Hinserted. split.
  - intros n doc Hn Hidless id Hlater.
    assert (Hturn : forall k d', idless d' = true ->
              next_docId prefix generated true
                (sequence_before true docs k 0) d'
              = sequential_id prefix (S (length (filter idless (firstn k docs))))).
    { intros k d' Hd'. rewrite sequence_before_counts by reflexivity.
      now rewrite next_docId_idless by exact Hd'. }
    pose proof (@insert_loop_stores now prefix generated true docs
                  {| il_adapter := a; il_inserted := []; il_updated := [];
                     il_sequence := 0; il_allIdsWereGenerated := true |}
                  st n doc Hkeys Hwf Hrun' Hn) as Hst.
    cbv zeta in Hst. cbn [il_sequence] in Hst.
    rewrite (Hturn n doc Hidless) in Hst.
    destruct Hst as [pos [d [Hd [Hid Hcar]]]].
    + intros m doc' Hlt Hm. destruct (idless doc') eqn:Hid'.
      * rewrite (Hturn m doc' Hid'). intros E. apply sequential_id_inj in E.
        pose proof (idless_count_lt docs Hlt Hn Hidless). lia.
      * destruct (next_docId_brought prefix generated true
                    (sequence_before true docs m 0) doc' Hid')
          as [supplied [Hs [Ht ->]]].
        exact (Hlater m doc' supplied Hlt Hm Hs Ht).
    + exists pos, d. rewrite touched_doc_at. auto.
  - cbv zeta.
    rewrite (appended_documents_app a (touched st) fresh)
      by (now rewrite touched_data).
    rewrite touched_heap, length_map. unfold insert_response.
    rewrite Hinserted, Hall. split; [reflexivity|]. split.
    + intros [H1 H20].
      assert ((0 <? length fresh)%nat = true) as -> by now apply Nat.ltb_lt.
      assert ((20 <? length fresh)%nat = false) as -> by (apply Nat.ltb_ge; lia).
      simpl. now rewrite map_map.
    + intros H20.
      assert ((0 <? length fresh)%nat = true) as -> by (apply Nat.ltb_lt; lia).
      assert ((20 <? length fresh)%nat = true) as -> by now apply Nat.ltb_lt.
      assert (Hne : fresh <> []) by (intros ->; simpl in H20; lia).
      rewrite (hd_map (B := document) (deref (heap (il_adapter st))) 0 [] Hne).
      rewrite (last_map (B := document) (deref (heap (il_adapter st))) 0 [] Hne).
      unfold doc_id, handle in *.
      destruct (lookup "id" (deref (heap (il_adapter st)) (hd 0 fresh)));
        destruct (lookup "id" (deref (heap (il_adapter st)) (last fresh 0)));
        destruct (forallb idless docs); simpl; repeat split; reflexivity.
Qed.

Lemma insert_sequential_ids_and_report_witness :
  let docs := [[("name", VStr "Bob")]; [("name", VStr "Cy")]] in
  let a' := fst (insert "t0" "mil5hxei" "g" new_adapter docs) in
  exists pos d,
    doc_at a' pos = Some d
    /\ lookup "id" d = Some (VStr "mil5hxei_2")
    /\ carries d [("name", VStr "Cy")].
Proof.
  cbv zeta.
  refine (proj1
            (@insert_sequential_ids_and_report "t0" "mil5hxei" "g" new_adapter
               (fst (insert "t0" "mil5hxei" "g" new_adapter
                       [[("name", VStr "Bob")]; [("name", VStr "Cy")]]))
               [[("name", VStr "Bob")]; [("name", VStr "Cy")]]
               [("insertedCount", VNum 2); ("updatedCount", VNum 0);
                ("insertedIds", VArr [VStr "mil5hxei_1"; VStr "mil5hxei_2"])]
               _ _ _ _)
            1 [("name", VStr "Cy")] eq_refl eq_refl _).
  - exact new_adapter_well_formed.
  - repeat constructor; simpl; intuition discriminate.
  - simpl. lia.
  - reflexivity.
  - intros [|[|[|m]]] doc' supplied Hlt Hm; try lia; discriminate Hm.
Defined.

(** C9 as stated fails on a list that mixes its own ids with generated
    ones: of 21 documents the first brings the id ["own"], 21 documents
    are inserted, and the report gives the first and the last id without
    any prefix. *)
Lemma insert_report_without_prefix_counterexample :
  let docs := [("id", VStr "own")] :: repeat [("n", VNum 0)] 20 in
  snd (insert "t0" "mil5hxei" "g" new_adapter docs)
  = envelope true
      (VObj [("insertedCount", VNum 21); ("updatedCount", VNum 0);
             ("firstId", VStr "own"); ("lastId", VStr "mil5hxei_20")])
      VNull.
Proof. vm_compute. reflexivity. Qed.

(* ================================================================== *)
(** * Further properties of the query engine *)

(** ** Operators that are defined by one another *)

Lemma strict_eq_sym (a b : value) : strict_eq a b = strict_eq b a.
Proof.
  destruct a, b; simpl; try reflexivity.
  - destruct b, b0; reflexivity.
  - apply Z.eqb_sym.
  - apply String.eqb_sym.
Qed.

Lemma some_r_pure {A} (p : A -> bool) (l : list A) :
  some_r (fun x => Ok (p x)) l = Ok (existsb p l).
Proof.
  induction l as [|x l IH]; simpl; [reflexivity|].
  destruct (p x); simpl; [reflexivity | exact IH].
Qed.

Section OperatorProperties.
Context {rt : JsRuntime}.

(** X1.  On every item and every field path, [{k: {$ne: v}}] matches exactly
    when [{k: {$eq: v}}] does not: on an absent field, on an array and on
    a single value; and the one throws when the other does. *)
Theorem ne_negates_eq (item : value) (k : string) (v : value) :
  starts_with_dollar k = false ->
  matchesFilter item (VObj [(k, VObj [("$ne", v)])])
  = not_r (matchesFilter item (VObj [(k, VObj [("$eq", v)])])).
Proof.
  intros Hk. rewrite !matchesFilter_single_key by exact Hk.
  unfold field_test.
  destruct (getValue item k) as [[a|]|e]; simpl; unfold op_step; simpl;
    try reflexivity.
  destruct (any_of a (fun x => strict_eq x v)); reflexivity.
Qed.

(** X2.  The operator [$eq] is the implicit equality: for a value [v] that is
    not an operator map, [{k: {$eq: v}}] and [{k: v}] give the same
    result on every item. *)
Theorem eq_operator_is_implicit_equality (item : value) (k : string) (v : value) :
  starts_with_dollar k = false ->
  is_plain_object v = false ->
  matchesFilter item (VObj [(k, VObj [("$eq", v)])])
  = matchesFilter item (VObj [(k, v)]).
Proof.
  intros Hk Hv. rewrite !matchesFilter_single_key by exact Hk.
  unfold field_test. rewrite Hv.
  destruct (getValue item k) as [[a|]|e]; simpl; unfold op_step; simpl;
    try reflexivity.
  destruct a as [| b | n | s | l | fs]; cbn [any_of strict_eq_opt];
    try (destruct (strict_eq _ v); reflexivity).
  unfold includes. destruct (existsb _ l); reflexivity.
Qed.

(** [$in] with a list of one value is [$eq] of that value. *)
Theorem in_singleton_is_eq (item : value) (k : string) (v : value) :
  starts_with_dollar k = false ->
  matchesFilter item (VObj [(k, VObj [("$in", VArr [v])])])
  = matchesFilter item (VObj [(k, VObj [("$eq", v)])]).
Proof.
  intros Hk. rewrite !matchesFilter_single_key by exact Hk.
  unfold field_test.
  destruct (getValue item k) as [[a|]|e]; simpl; unfold op_step; simpl;
    try reflexivity.
  assert (H : forall x, includes [v] x = strict_eq x v).
  { intros x. unfold includes. simpl. rewrite orb_false_r. apply strict_eq_sym. }
  destruct a as [| b | n | s | l | fs];
    cbn [any_of any_of_r expected_includes bind];
    rewrite ?H; try (destruct (strict_eq _ v); reflexivity).
  rewrite (some_r_pure (fun x => includes [v] x)). cbn [bind].
  assert (E : existsb (fun x => includes [v] x) l
              = existsb (fun x => strict_eq x v) l).
  { induction l as [|x l IH]; cbn [existsb]; [reflexivity|]. now rewrite H, IH. }
  rewrite E. destruct (existsb _ l); reflexivity.
Qed.

(** X3.  A range on a number: when the path resolves to the number [n], the
    operator map [{$gte: lo, $lte: hi}] matches exactly when
    [lo <= n <= hi]. *)
Theorem range_filter_on_number (item : value) (k : string) (n lo hi : Z) :
  starts_with_dollar k = false ->
  getValue item k = Ok (Some (VNum n)) ->
  matchesFilter item (VObj [(k, VObj [("$gte", VNum lo); ("$lte", VNum hi)])])
  = Ok ((lo <=? n)%Z && (n <=? hi)%Z).
Proof.
  intros Hk Hn. rewrite matchesFilter_single_key by exact Hk.
  unfold field_test. rewrite Hn. simpl. unfold op_step. simpl.
  unfold js_gte, js_lte. simpl.
  rewrite !Z.ltb_antisym, !negb_involutive.
  destruct (lo <=? n)%Z, (n <=? hi)%Z; reflexivity.
Qed.

Lemma matchesFilter_not (item f : value) :
  truthy f = true ->
  matchesFilter item (not_clause f) = not_r (matchesFilter item f).
Proof.
  intros Hf. unfold not_clause. rewrite matchesFilter_object. simpl.
  now rewrite Hf.
Qed.

(** X4.  [$nor] of a list of filters is [$and] of their negations: the same
    result on every item, exceptions included. *)
Theorem nor_is_and_of_nots (item : value) (l : list value) :
  forallb truthy l = true ->
  matchesFilter item (VObj [("$nor", VArr l)])
  = matchesFilter item (VObj [("$and", VArr (map not_clause l))]).
Proof.
  intros Hl. rewrite !matchesFilter_object.
  cbn [lookup String.eqb Ascii.eqb Bool.eqb truthy_opt truthy
       null_if_undefined on_array].
  induction l as [|f l IH]; [reflexivity|].
  simpl in Hl. apply andb_prop in Hl. destruct Hl as [Hf Hl].
  cbn [map every_r some_r]. rewrite matchesFilter_not by exact Hf.
  destruct (matchesFilter item f) as [[|]|e]; cbn [bind not_r negb];
    try reflexivity.
  apply IH. exact Hl.
Qed.
End OperatorProperties.

Lemma ne_negates_eq_witness :
  matchesFilter (rt := example_runtime)
    (VObj [("tags", VArr [VStr "a"; VStr "b"])])
    (VObj [("tags", VObj [("$ne", VStr "a")])])
  = not_r (matchesFilter (rt := example_runtime)
             (VObj [("tags", VArr [VStr "a"; VStr "b"])])
             (VObj [("tags", VObj [("$eq", VStr "a")])])).
Proof.
  apply (@ne_negates_eq example_runtime
           (VObj [("tags", VArr [VStr "a"; VStr "b"])]) "tags" (VStr "a")).
  reflexivity.
Defined.

Lemma eq_operator_is_implicit_equality_witness :
  matchesFilter (rt := example_runtime)
    (VObj [("n", VNum 3)]) (VObj [("n", VObj [("$eq", VNum 3)])])
  = matchesFilter (rt := example_runtime)
      (VObj [("n", VNum 3)]) (VObj [("n", VNum 3)]).
Proof.
  apply (@eq_operator_is_implicit_equality example_runtime
           (VObj [("n", VNum 3)]) "n" (VNum 3)); reflexivity.
Defined.

Lemma in_singleton_is_eq_witness :
  matchesFilter (rt := example_runtime)
    (VObj [("n", VNum 3)]) (VObj [("n", VObj [("$in", VArr [VNum 3])])])
  = matchesFilter (rt := example_runtime)
      (VObj [("n", VNum 3)]) (VObj [("n", VObj [("$eq", VNum 3)])]).
Proof.
  apply (@in_singleton_is_eq example_runtime
           (VObj [("n", VNum 3)]) "n" (VNum 3)); reflexivity.
Defined.

Lemma range_filter_on_number_witness :
  matchesFilter (rt := example_runtime)
    (VObj [("profile", VObj [("age", VNum 25)])])
    (VObj [("profile.age", VObj [("$gte", VNum 18); ("$lte", VNum 30)])])
  = Ok true.
Proof.
  apply (@range_filter_on_number example_runtime
           (VObj [("profile", VObj [("age", VNum 25)])]) "profile.age" 25 18 30);
    reflexivity.
Defined.

Lemma nor_is_and_of_nots_witness :
  matchesFilter (rt := example_runtime)
    (VObj [("n", VNum 3)])
    (VObj [("$nor", VArr [VObj [("n", VNum 1)]; VObj [("n", VNum 2)]])])
  = matchesFilter (rt := example_runtime)
      (VObj [("n", VNum 3)])
      (VObj [("$and", VArr [not_clause (VObj [("n", VNum 1)]);
                            not_clause (VObj [("n", VNum 2)])])]).
Proof.
  apply (@nor_is_and_of_nots example_runtime
           (VObj [("n", VNum 3)]) [VObj [("n", VNum 1)]; VObj [("n", VNum 2)]]).
  reflexivity.
Defined.

(* ------------------------------------------------------------------ *)
(** ** Path resolution does not throw without a null array element *)

Lemma value_induction (P : value -> Prop) :
  P VNull -> (forall b, P (VBool b)) -> (forall n, P (VNum n)) ->
  (forall s, P (VStr s)) ->
  (forall l, Forall P l -> P (VArr l)) ->
  (forall fs, Forall (fun kv => P (snd kv)) fs -> P (VObj fs)) ->
  forall v, P v.
Proof.
  intros Hn Hb Hz Hs Ha Ho. fix IH 1. intros [| b | n | s | l | fs].
  - exact Hn.
  - apply Hb.
  - apply Hz.
  - apply Hs.
  - apply Ha. induction l as [|x l IHl]; constructor; [apply IH | exact IHl].
  - apply Ho. induction fs as [|[k v] fs IHfs]; constructor;
      [apply IH | exact IHfs].
Qed.

Lemma walk_nil (v : value) : walk v [] = Ok (Some v).
Proof. destruct v; reflexivity. Qed.

Lemma walk_object (fs : list (string * value)) (p : string) (rest : list string) :
  walk (VObj fs) (p :: rest)
  = match lookup p fs with
    | Some c => walk c rest
    | None => Ok None
    end.
Proof.
  simpl. induction fs as [|[k v] fs IH]; simpl; [reflexivity|].
  destruct (k =? p); [reflexivity | exact IH].
Qed.

Lemma lookup_In (k : string) (v : value) (fs : list (string * value)) :
  lookup k fs = Some v -> In (k, v) fs.
Proof.
  induction fs as [|[k' v'] fs IH]; simpl; [discriminate|].
  destruct (k' =? k) eqn:E.
  - apply String.eqb_eq in E. intros [= ->]. left. now subst.
  - intros H. right. now apply IH.
Qed.

Lemma walk_total (cur : value) :
  forall parts, no_null_element cur = true -> exists r, walk cur parts = Ok r.
Proof.
  induction cur as [| b | n | s | l IHl | fs IHfs] using value_induction;
    intros [|p rest] Hok; try (eexists; reflexivity).
  - (* an array *)
    cbn [walk]. simpl in Hok. destruct (array_index p (length l)) as [idx|].
    + clear p. revert idx. induction l as [|x l IH]; intros idx.
      * destruct idx; eexists; reflexivity.
      * simpl in Hok. apply andb_prop in Hok. destruct Hok as [Hx Hl].
        inversion IHl as [|? ? Px Pl]; subst.
        destruct idx as [|idx].
        -- apply Px. destruct x; (discriminate || exact Hx).
        -- apply (IH Pl Hl).
    + assert (H : exists results,
        (fix each (l0 : list value) : result (list value) :=
           match l0 with
           | [] => Ok []
           | el :: l' =>
               v <- match rest with
                    | [] => get_prop el p
                    | _ :: _ => walk el (p :: rest)
                    end ;;
               tl <- each l' ;;
               Ok (collect v ++ tl)
           end) l = Ok results).
      { induction l as [|x l IH]; [eexists; reflexivity|].
        simpl in Hok. apply andb_prop in Hok. destruct Hok as [Hx Hl].
        inversion IHl as [|? ? Px Pl]; subst.
        destruct (IH Pl Hl) as [tl Htl]. rewrite Htl.
        assert (Hx' : no_null_element x = true)
          by (destruct x; (discriminate || exact Hx)).
        destruct rest as [|q rest'].
        - destruct x; try discriminate; cbn [get_prop];
            repeat case_if;
            repeat match goal with
                   | |- context [match ?c with Some _ => _ | None => _ end] =>
                       destruct c
                   end;
            eexists; reflexivity.
        - destruct (Px (p :: q :: rest') Hx') as [r Hr]. rewrite Hr.
          eexists. reflexivity. }
      destruct H as [results ->]. eexists. reflexivity.
  - (* an object *)
    rewrite walk_object.
    destruct (lookup p fs) as [c|] eqn:Hl; [|eexists; reflexivity].
    apply lookup_In in Hl. rewrite Forall_forall in IHfs.
    apply (IHfs _ Hl). simpl in Hok. rewrite forallb_forall in Hok.
    apply (Hok _ Hl).
Qed.

(** X5.  getValue throws on no path of a document none of whose arrays holds
    [null] as an element: the TypeError of the shortcut [el[path]] is the
    only exception path resolution has. *)
Theorem getValue_total_without_null_elements (d : document) (path : string) :
  no_null_element (VObj d) = true ->
  exists r, getValue (VObj d) path = Ok r.
Proof.
  intros Hok. unfold getValue. destruct (negb (includes_dot path)).
  - eexists. reflexivity.
  - now apply walk_total.
Qed.

Lemma getValue_total_without_null_elements_witness :
  exists r,
    getValue (VObj [("a", VArr [VObj [("b", VNull)]; VNum 7])]) "a.b" = Ok r.
Proof.
  apply (@getValue_total_without_null_elements
           [("a", VArr [VObj [("b", VNull)]; VNum 7])] "a.b").
  reflexivity.
Defined.

(* ================================================================== *)
(** * Further properties of the update applier *)

Section UpdateProperties.
Context {rt : JsRuntime}.

Lemma path_clear_empty_object (parts : list string) :
  path_clear (VObj []) parts = true.
Proof. destruct parts as [|p [|q rest]]; reflexivity. Qed.

Lemma applyNestedOperation_step (current : value) (part q : string)
      (rest : list string) (op : operation) (v : value) :
  applyNestedOperation current (part :: q :: rest) op v
  = match get_prop current part with
    | Throw e => (current, Some e)
    | Ok child =>
        let next :=
          match child with
          | Some c => if typeof_object c then c else VObj []
          | None => VObj []
          end in
        let '(next', thrown) := applyNestedOperation next (q :: rest) op v in
        match container_set current part next' with
        | (current', Some e) => (current', Some e)
        | (current', None) => (current', thrown)
        end
    end.
Proof. reflexivity. Qed.

Lemma nested_set_then_walk (v : value) (parts : list string) :
  forall cur, parts <> [] -> path_clear cur parts = true ->
  exists fs', applyNestedOperation cur parts OpSet v = (VObj fs', None)
              /\ walk (VObj fs') parts = Ok (Some v).
Proof.
  induction parts as [|p rest IH]; intros cur Hne Hclear; [congruence|].
  destruct cur as [| | | | |fields]; try discriminate.
  destruct rest as [|q rest'].
  - exists (obj_set p v fields). split; [reflexivity|].
    rewrite walk_object, lookup_obj_set, String.eqb_refl. apply walk_nil.
  - rewrite applyNestedOperation_step. cbn [get_prop]. cbv zeta.
    set (next := match lookup p fields with
                 | Some c => if typeof_object c then c else VObj []
                 | None => VObj []
                 end).
    assert (Hnext : path_clear next (q :: rest') = true).
    { subst next. cbn [path_clear] in Hclear.
      destruct (lookup p fields) as [c|]; [|apply path_clear_empty_object].
      destruct (typeof_object c); [exact Hclear | apply path_clear_empty_object]. }
    destruct (IH next ltac:(discriminate) Hnext) as [fs' [Happ Hwalk]].
    rewrite Happ. exists (obj_set p (VObj fs') fields). split; [reflexivity|].
    rewrite walk_object, lookup_obj_set, String.eqb_refl. exact Hwalk.
Qed.

Lemma split_dot_aux_nonempty (cur s : string) : split_dot_aux cur s <> [].
Proof.
  revert cur. induction s as [|c s IH]; intros cur; simpl; [discriminate|].
  destruct (Ascii.eqb c dot); [discriminate | apply IH].
Qed.

Lemma set_step_then_getValue (k : string) (v : value) (doc : document) :
  path_clear (VObj doc) (split_dot k) = true ->
  exists doc', set_step k v doc = (doc', None)
               /\ getValue (VObj doc') k = Ok (Some v).
Proof.
  intros Hclear. unfold set_step, getValue.
  destruct (includes_dot k) eqn:Hdot; simpl.
  - unfold nested.
    destruct (@nested_set_then_walk v (split_dot k) (VObj doc)
                (split_dot_aux_nonempty "" k) Hclear) as [fs' [Happ Hwalk]].
    unfold split_dot in *. rewrite Happ. exists fs'. split; [reflexivity | exact Hwalk].
  - exists (obj_set k v doc). split; [reflexivity|].
    now rewrite lookup_obj_set, String.eqb_refl.
Qed.

Lemma getValue_frame (k other : string) (x : value) (d : document) :
  hd "" (split_dot k) <> other ->
  getValue (VObj (obj_set other x d)) k = getValue (VObj d) k.
Proof.
  intros Hhd. unfold getValue. destruct (includes_dot k) eqn:Hdot; cbn [negb get_prop].
  - destruct (split_dot k) as [|p rest] eqn:Hs;
      [exfalso; exact (split_dot_aux_nonempty "" k Hs)|].
    rewrite !walk_object, lookup_obj_set. simpl in Hhd.
    destruct (other =? p) eqn:E; [|reflexivity].
    apply String.eqb_eq in E. congruence.
  - rewrite lookup_obj_set.
    destruct (other =? k) eqn:E; [|reflexivity].
    apply String.eqb_eq in E. subst other. exfalso. apply Hhd.
    unfold split_dot. clear Hhd.
    assert (H : forall cur, includes_dot k = false ->
                hd "" (split_dot_aux cur k) = (cur ++ k)%string).
    { clear. induction k as [|c k IH]; intros cur Hd; simpl.
      - now rewrite append_empty_r.
      - simpl in Hd. destruct (Ascii.eqb c dot); [discriminate|].
        rewrite IH by exact Hd. rewrite append_assoc. reflexivity. }
    now rewrite H.
Qed.

(** An update document with one operator: its stage runs alone, the
    other stages find nothing to do, and the time stamp follows. *)
Lemma applyUpdateToDoc_single (now : string) (doc : document) (op : string)
      (payload : value) :
  In op ["$set"; "$unset"; "$inc"; "$push"; "$addToSet"; "$pull"] ->
  truthy payload = true ->
  applyUpdateToDoc now doc (Some (VObj [(op, payload)]))
  = and_then
      (for_entries (own_entries payload)
         (if op =? "$set" then set_step
          else if op =? "$unset" then unset_step
          else if op =? "$inc" then inc_step
          else if op =? "$push" then push_step
          else if op =? "$addToSet" then addToSet_step
          else pull_step) doc)
      (fun d => done (obj_set "updatedAt" (VStr now) d)).
Proof.
  intros Hop Hp. simpl in Hop.
  destruct Hop as [<-|[<-|[<-|[<-|[<-|[<-|[]]]]]]];
    unfold applyUpdateToDoc, hasRootLevelOperators, has_key, stage; simpl;
    rewrite Hp;
    destruct (for_entries (own_entries payload) _ doc) as [d [e|]]; reflexivity.
Qed.

(** X6.  After [{$set: {k: v}}] the path [k] resolves to [v], for a plain field
    and for a dotted path through objects, whose missing intermediate
    objects are created; and [updatedAt] is the time of the update. *)
Theorem set_then_getValue (now k : string) (v : value) (doc : document) :
  path_clear (VObj doc) (split_dot k) = true ->
  hd "" (split_dot k) <> "updatedAt" ->
  exists doc',
    applyUpdateToDoc now doc (Some (update_of "$set" k v)) = (doc', None)
    /\ getValue (VObj doc') k = Ok (Some v)
    /\ lookup "updatedAt" doc' = Some (VStr now).
Proof.
  intros Hclear Hhd. unfold update_of.
  rewrite applyUpdateToDoc_single by (simpl; tauto).
  destruct (set_step_then_getValue k v doc Hclear) as [doc' [Hset Hget]].
  cbn [own_entries for_entries String.eqb Ascii.eqb Bool.eqb].
  simpl. rewrite Hset. simpl.
  exists (obj_set "updatedAt" (VStr now) doc'). split; [reflexivity|]. split.
  - rewrite getValue_frame by exact Hhd. exact Hget.
  - now rewrite lookup_obj_set.
Qed.
End UpdateProperties.

Section UpdateAlgebra.
Context {rt : JsRuntime}.

Lemma obj_set_same (k : string) (v : value) (fs : document) :
  lookup k fs = Some v -> obj_set k v fs = fs.
Proof.
  induction fs as [|[k0 v0] fs IH]; simpl; [discriminate|].
  destruct (k0 =? k) eqn:E.
  - apply String.eqb_eq in E. intros [= ->]. now subst.
  - intros H. now rewrite IH.
Qed.

Lemma obj_set_twice (k : string) (v w : value) (fs : document) :
  obj_set k w (obj_set k v fs) = obj_set k w fs.
Proof.
  induction fs as [|[k0 v0] fs IH]; simpl.
  - now rewrite String.eqb_refl.
  - destruct (k0 =? k) eqn:E; simpl.
    + now rewrite String.eqb_refl.
    + now rewrite E, IH.
Qed.

Lemma obj_set_comm (k k' : string) (v w : value) (fs : document) :
  k <> k' ->
  lookup k fs <> None ->
  obj_set k v (obj_set k' w fs) = obj_set k' w (obj_set k v fs).
Proof.
  intros Hne.
  assert (Hkk' : (k =? k') = false) by now apply String.eqb_neq.
  assert (Hk'k : (k' =? k) = false) by now rewrite String.eqb_sym.
  induction fs as [|[k0 v0] fs IH]; simpl; [congruence|].
  intros Hk.
  destruct (k0 =? k') eqn:E1; destruct (k0 =? k) eqn:E2.
  - apply String.eqb_eq in E1, E2. congruence.
  - apply String.eqb_eq in E1. subst k0. simpl.
    now rewrite Hk'k, String.eqb_refl.
  - apply String.eqb_eq in E2. subst k0. simpl.
    now rewrite Hkk', String.eqb_refl.
  - simpl. now rewrite E1, E2, IH.
Qed.

Lemma for_entries_set_step (fs : list (string * value)) (doc : document) :
  forallb (fun kv => dot_free (fst kv)) fs = true ->
  for_entries fs set_step doc = done (obj_assign doc fs).
Proof.
  revert doc. induction fs as [|[k v] fs IH]; intros doc H; [reflexivity|].
  simpl in H. apply andb_prop in H. destruct H as [Hk Hfs].
  unfold dot_free in Hk. apply negb_true_iff in Hk.
  cbn [for_entries]. unfold set_step at 1. rewrite Hk. cbn [and_then done].
  rewrite IH by exact Hfs. reflexivity.
Qed.

(** X7.  An update document without operator, all of whose keys are field
    names without a dot, is applied as the [$set] of its fields: [update]
    (which wraps it in [$set]) and [updateById] (which hands it over as it
    is) change a document in the same way. *)
Theorem plain_update_is_set (now : string) (doc fs : document) :
  hasRootLevelOperators fs = false ->
  forallb (fun kv => dot_free (fst kv)) fs = true ->
  applyUpdateToDoc now doc (Some (VObj fs))
  = applyUpdateToDoc now doc (Some (VObj [("$set", VObj fs)])).
Proof.
  intros Hops Hkeys.
  rewrite applyUpdateToDoc_single by (simpl; tauto).
  cbn [own_entries String.eqb Ascii.eqb Bool.eqb].
  rewrite for_entries_set_step by exact Hkeys.
  unfold applyUpdateToDoc. cbn [truthy negb]. rewrite Hops. reflexivity.
Qed.
End UpdateAlgebra.

Section UpdateOperators.
Context {rt : JsRuntime}.

Lemma includes_add_to_set (l : list value) (v : value) :
  is_scalar v = true -> includes (add_to_set l v) v = true.
Proof.
  intros Hv. unfold add_to_set. destruct (includes l v) eqn:E; [exact E|].
  unfold includes. rewrite existsb_app. simpl.
  rewrite strict_eq_refl by exact Hv. now rewrite orb_true_r.
Qed.

Lemma applyUpdateToDoc_addToSet (now k : string) (v : value) (doc : document) :
  dot_free k = true -> is_scalar v = true ->
  applyUpdateToDoc now doc (Some (update_of "$addToSet" k v))
  = done (obj_set "updatedAt" (VStr now)
            (obj_set k (VArr (add_to_set (array_or_empty (lookup k doc)) v)) doc)).
Proof.
  intros Hk Hv. unfold update_of.
  rewrite applyUpdateToDoc_single by (simpl; tauto).
  cbn [own_entries for_entries String.eqb Ascii.eqb Bool.eqb].
  unfold dot_free in Hk. apply negb_true_iff in Hk.
  unfold addToSet_step. rewrite Hk.
  assert (H : truthy v && typeof_object v = false \/ v = VNull).
  { destruct v; simpl in *; try discriminate; auto using andb_false_r. }
  destruct H as [H | ->]; [rewrite H|]; reflexivity.
Qed.

(** X8.  Adding the same scalar to the same set a second time changes nothing
    but the time stamp. *)
Theorem addToSet_idempotent (now1 now2 k : string) (v : value) (doc : document) :
  dot_free k = true -> is_scalar v = true -> k <> "updatedAt" ->
  applyUpdateToDoc now2
    (fst (applyUpdateToDoc now1 doc (Some (update_of "$addToSet" k v))))
    (Some (update_of "$addToSet" k v))
  = applyUpdateToDoc now2 doc (Some (update_of "$addToSet" k v)).
Proof.
  intros Hk Hv Hne. rewrite !applyUpdateToDoc_addToSet by assumption.
  cbn [fst done]. f_equal.
  assert (E : ("updatedAt" =? k) = false)
    by (apply String.eqb_neq; congruence).
  rewrite !lookup_obj_set, E, String.eqb_refl. cbn [array_or_empty].
  set (added := add_to_set (array_or_empty (lookup k doc)) v).
  assert (Hsame : add_to_set added v = added).
  { unfold add_to_set at 1. subst added.
    now rewrite includes_add_to_set. }
  rewrite Hsame.
  rewrite (@obj_set_same k (VArr added))
    by (now rewrite !lookup_obj_set, E, String.eqb_refl).
  apply obj_set_twice.
Qed.

Lemma filter_r_pure {A} (p : A -> bool) (l : list A) :
  filter_r (fun x => Ok (p x)) l = Ok (filter p l).
Proof.
  induction l as [|x l IH]; simpl; [reflexivity|].
  rewrite IH. simpl. reflexivity.
Qed.

(** X9.  [$pull] of a scalar other than [null] removes every occurrence of it
    from the array and keeps the other elements in their order. *)
Theorem pull_removes_every_occurrence
        (now k : string) (v : value) (l : list value) (doc : document) :
  dot_free k = true -> k <> "updatedAt" ->
  is_scalar v = true -> v <> VNull ->
  lookup k doc = Some (VArr l) ->
  exists doc',
    applyUpdateToDoc now doc (Some (update_of "$pull" k v)) = (doc', None)
    /\ lookup k doc' = Some (VArr (filter (fun x => negb (strict_eq x v)) l))
    /\ includes (filter (fun x => negb (strict_eq x v)) l) v = false.
Proof.
  intros Hk Hne Hv Hnull Hl. unfold update_of.
  rewrite applyUpdateToDoc_single by (simpl; tauto).
  cbn [own_entries for_entries String.eqb Ascii.eqb Bool.eqb].
  unfold dot_free in Hk. apply negb_true_iff in Hk.
  unfold pull_step. rewrite Hk, Hl.
  assert (Hkeeps : forall x, pull_keeps v x = Ok (negb (strict_eq x v))).
  { intros x. unfold pull_keeps.
    destruct v; simpl in *; try discriminate; congruence. }
  assert (E : filter_r (pull_keeps v) l
              = Ok (filter (fun x => negb (strict_eq x v)) l)).
  { rewrite <- filter_r_pure. clear -Hkeeps.
    induction l as [|x l IH]; simpl; [reflexivity|].
    now rewrite Hkeeps, IH. }
  rewrite E. cbn [and_then done].
  eexists. split; [reflexivity|]. split.
  - rewrite !lookup_obj_set.
    assert (E' : ("updatedAt" =? k) = false)
      by (apply String.eqb_neq; congruence).
    now rewrite E', String.eqb_refl.
  - unfold includes. clear. induction l as [|x l IH]; simpl; [reflexivity|].
    destruct (strict_eq x v) eqn:Ex; simpl; [exact IH|].
    now rewrite Ex.
Qed.

Lemma applyUpdateToDoc_inc (now k : string) (n : Z) (doc : document) :
  dot_free k = true ->
  applyUpdateToDoc now doc (Some (update_of "$inc" k (VNum n)))
  = done (obj_set "updatedAt" (VStr now)
            (obj_set k (VNum (to_double (number_or_zero (lookup k doc) + n))) doc)).
Proof.
  intros Hk. unfold update_of.
  rewrite applyUpdateToDoc_single by (simpl; tauto).
  cbn [own_entries for_entries String.eqb Ascii.eqb Bool.eqb].
  unfold dot_free in Hk. apply negb_true_iff in Hk.
  unfold inc_step. rewrite Hk. reflexivity.
Qed.

Lemma to_double_safe (z : Z) : safe_integer z -> to_double z = z.
Proof.
  unfold safe_integer, to_double. intros H.
  apply Z.leb_le in H. cbv zeta. now rewrite H.
Qed.

(** X10.  Two increments of a field add up: incrementing by [n] and then by
    [m] leaves the document as one increment by [n + m] does, as long as
    the increments and the sums are integers on which the addition of
    doubles is exact. *)
Theorem inc_accumulates (now1 now2 k : string) (n m : Z) (doc : document) :
  dot_free k = true -> k <> "updatedAt" ->
  let current := number_or_zero (lookup k doc) in
  safe_integer (n + m) ->
  safe_integer (current + n) ->
  safe_integer (current + n + m) ->
  applyUpdateToDoc now2
    (fst (applyUpdateToDoc now1 doc (Some (update_of "$inc" k (VNum n)))))
    (Some (update_of "$inc" k (VNum m)))
  = applyUpdateToDoc now2 doc (Some (update_of "$inc" k (VNum (n + m)))).
Proof.
  intros Hk Hne current Hnm Hcn Hcnm. subst current.
  rewrite !applyUpdateToDoc_inc by assumption.
  cbn [fst done]. f_equal.
  assert (E : ("updatedAt" =? k) = false)
    by (apply String.eqb_neq; congruence).
  rewrite !lookup_obj_set, E, String.eqb_refl. cbn [number_or_zero].
  rewrite (to_double_safe Hcn).
  rewrite (to_double_safe Hcnm).
  replace (number_or_zero (lookup k doc) + (n + m))%Z
    with (number_or_zero (lookup k doc) + n + m)%Z by lia.
  rewrite (to_double_safe Hcnm).
  rewrite (@obj_set_comm k "updatedAt" _ (VStr now1)).
  - now rewrite !obj_set_twice.
  - exact Hne.
  - rewrite lookup_obj_set, String.eqb_refl. discriminate.
Qed.
End UpdateOperators.

Lemma set_then_getValue_witness :
  exists doc',
    applyUpdateToDoc (rt := example_runtime) "t1" [("name", VStr "Bob")]
      (Some (update_of "$set" "address.city" (VStr "Paris"))) = (doc', None)
    /\ getValue (VObj doc') "address.city" = Ok (Some (VStr "Paris"))
    /\ lookup "updatedAt" doc' = Some (VStr "t1").
Proof.
  apply (@set_then_getValue example_runtime "t1" "address.city" (VStr "Paris")
           [("name", VStr "Bob")]).
  - reflexivity.
  - discriminate.
Defined.

Lemma plain_update_is_set_witness :
  applyUpdateToDoc (rt := example_runtime) "t1" [("name", VStr "Bob")]
    (Some (VObj [("name", VStr "Cy"); ("age", VNum 30)]))
  = applyUpdateToDoc (rt := example_runtime) "t1" [("name", VStr "Bob")]
      (Some (VObj [("$set", VObj [("name", VStr "Cy"); ("age", VNum 30)])])).
Proof.
  apply (@plain_update_is_set example_runtime "t1" [("name", VStr "Bob")]
           [("name", VStr "Cy"); ("age", VNum 30)]); reflexivity.
Defined.

Lemma addToSet_idempotent_witness :
  applyUpdateToDoc (rt := example_runtime) "t2"
    (fst (applyUpdateToDoc (rt := example_runtime) "t1"
            [("roles", VArr [VStr "user"])]
            (Some (update_of "$addToSet" "roles" (VStr "admin")))))
    (Some (update_of "$addToSet" "roles" (VStr "admin")))
  = applyUpdateToDoc (rt := example_runtime) "t2"
      [("roles", VArr [VStr "user"])]
      (Some (update_of "$addToSet" "roles" (VStr "admin"))).
Proof.
  apply (@addToSet_idempotent example_runtime "t1" "t2" "roles" (VStr "admin")
           [("roles", VArr [VStr "user"])]).
  - reflexivity.
  - reflexivity.
  - discriminate.
Defined.

Lemma pull_removes_every_occurrence_witness :
  exists doc',
    applyUpdateToDoc (rt := example_runtime) "t1"
      [("tags", VArr [VStr "a"; VStr "b"; VStr "a"])]
      (Some (update_of "$pull" "tags" (VStr "a"))) = (doc', None)
    /\ lookup "tags" doc'
       = Some (VArr (filter (fun x => negb (strict_eq x (VStr "a")))
                            [VStr "a"; VStr "b"; VStr "a"]))
    /\ includes (filter (fun x => negb (strict_eq x (VStr "a")))
                        [VStr "a"; VStr "b"; VStr "a"]) (VStr "a") = false.
Proof.
  apply (@pull_removes_every_occurrence example_runtime "t1" "tags" (VStr "a")
           [VStr "a"; VStr "b"; VStr "a"]
           [("tags", VArr [VStr "a"; VStr "b"; VStr "a"])]).
  - reflexivity.
  - discriminate.
  - reflexivity.
  - discriminate.
  - reflexivity.
Defined.

Lemma inc_accumulates_witness :
  applyUpdateToDoc (rt := example_runtime) "t2"
    (fst (applyUpdateToDoc (rt := example_runtime) "t1" [("views", VNum 1)]
            (Some (update_of "$inc" "views" (VNum 2)))))
    (Some (update_of "$inc" "views" (VNum 3)))
  = applyUpdateToDoc (rt := example_runtime) "t2" [("views", VNum 1)]
      (Some (update_of "$inc" "views" (VNum (2 + 3)))).
Proof.
  apply (@inc_accumulates example_runtime "t1" "t2" "views" 2 3
           [("views", VNum 1)]).
  - reflexivity.
  - discriminate.
  - unfold safe_integer. simpl. lia.
  - unfold safe_integer. simpl. lia.
  - unfold safe_integer. simpl. lia.
Defined.

(* ================================================================== *)
(** * Further properties of the adapter *)

(** ** The query cache *)

Section CacheProperties.
Context {rt : JsRuntime}.

Lemma cache_get_tl (k : string) (c : list (string * list handle)) :
  cache_get k c = None -> cache_get k (tl c) = None.
Proof.
  destruct c as [|[k' r] c]; simpl; [reflexivity|].
  destruct (k' =? k); [discriminate | tauto].
Qed.

Lemma cache_get_app_new (k : string) (r : list handle)
      (c : list (string * list handle)) :
  cache_get k c = None -> cache_get k (c ++ [(k, r)]) = Some r.
Proof.
  induction c as [|[k' r'] c IH]; simpl.
  - now rewrite String.eqb_refl.
  - destruct (k' =? k); [discriminate | exact IH].
Qed.

(** What a call of applyFilters leaves: the documents and the collection
    as they were, and a cache that answers the same call with the same
    list. *)
Lemma applyFilters_again (a : adapter) (dataset : list handle) (filter : value) :
  heap (fst (applyFilters a dataset filter)) = heap a
  /\ col (fst (applyFilters a dataset filter)) = col a
  /\ snd (applyFilters (fst (applyFilters a dataset filter)) dataset filter)
     = snd (applyFilters a dataset filter).
Proof.
  destruct (applyFilters a dataset filter) as [a1 r1] eqn:H1.
  unfold applyFilters in H1. cbn [fst snd]. unfold applyFilters.
  revert H1. generalize cacheSize. intros size H1.
  destruct (no_filter filter) eqn:Hnf.
  - injection H1 as <- <-. auto.
  - destruct (cache_get (cacheKey filter dataset) (queryCache a))
      as [cached|] eqn:Hget.
    + injection H1 as <- <-. cbn [heap col queryCache]. rewrite Hget. auto.
    + destruct (filter_r (matches (heap a) filter) dataset)
        as [results|e] eqn:Hf; injection H1 as <- <-;
        cbn [heap col queryCache].
      * rewrite cache_get_app_new; [auto|].
        destruct (size <=? length (queryCache a))%nat;
          [now apply cache_get_tl | exact Hget].
      * rewrite Hget, Hf. auto.
Qed.

(** X11.  Asking again gives the same answer: a find repeated on the state the
    first one left returns the same envelope, whether the first was
    computed, served from the cache, or failed. *)
Theorem find_repeatable (a : adapter) (filters : value) :
  snd (find (fst (find a filters)) filters) = snd (find a filters).
Proof.
  destruct (find a filters) as [a1 env] eqn:H1. cbn [fst snd].
  revert H1. unfold find.
  destruct (check_filters filters) as [[]|e]; [|now intros [= <- <-]].
  destruct (validateFilter filters) as [[]|e]; [|now intros [= <- <-]].
  destruct (applyFilters_again a (data (col a)) filters) as [Hheap [Hcol Hsame]].
  destruct (applyFilters a (data (col a)) filters) as [a' r] eqn:Ha.
  cbn [fst snd] in Hheap, Hcol, Hsame.
  pose proof (applyFilters_again a' (data (col a)) filters) as [Hheap' _].
  intros H1.
  assert (Ha1 : col a1 = col a /\ heap a1 = heap a /\ a1 = a').
  { destruct r as [results|e]; [destruct (length results =? 0)%nat|];
      injection H1 as <- _; auto. }
  destruct Ha1 as [Hc1 [Hh1 ->]]. rewrite Hc1.
  destruct (applyFilters a' (data (col a)) filters) as [a2 r2].
  cbn [fst snd] in Hsame, Hheap'. subst r2. rewrite Hheap'.
  destruct r as [results|e]; [destruct (length results =? 0)%nat|];
    now injection H1 as <-.
Qed.

Lemma applyFilters_cache_bounded (a : adapter) (dataset : list handle)
      (filter : value) :
  length (queryCache a) <= cacheSize ->
  length (queryCache (fst (applyFilters a dataset filter))) <= cacheSize.
Proof.
  assert (Hpos : 1 <= cacheSize) by (unfold cacheSize; lia).
  unfold applyFilters. revert Hpos. generalize cacheSize. intros size Hpos Hb.
  destruct (no_filter filter); [exact Hb|].
  destruct (cache_get _ _); [exact Hb|].
  destruct (filter_r _ _); [|exact Hb]. cbn [fst queryCache].
  rewrite length_app. cbn [length].
  destruct (size <=? length (queryCache a))%nat eqn:E.
  - apply Nat.leb_le in E. destruct (queryCache a); cbn [tl length] in *; lia.
  - apply Nat.leb_gt in E. lia.
Qed.

(** X12.  The query cache never holds more than [cacheSize] lists: a find or a
    count on a cache within the bound leaves it within the bound. *)
Theorem query_cache_bounded (a : adapter) (filters : value) :
  length (queryCache a) <= cacheSize ->
  length (queryCache (fst (find a filters))) <= cacheSize
  /\ length (queryCache (fst (count a filters))) <= cacheSize.
Proof.
  intros Hb. split.
  - unfold find. destruct (check_filters filters); [|exact Hb].
    destruct (validateFilter filters); [|exact Hb].
    pose proof (applyFilters_cache_bounded a (data (col a)) filters Hb) as H.
    destruct (applyFilters a (data (col a)) filters) as [a' [r|e]];
      cbn [fst] in H; [destruct (length r =? 0)%nat|]; exact H.
  - unfold count, engine_count. destruct (check_filters filters); [|exact Hb].
    destruct (no_filter filters); [exact Hb|].
    pose proof (applyFilters_cache_bounded a (data (col a)) filters Hb) as H.
    destruct (applyFilters a (data (col a)) filters) as [a' [r|e]]; exact H.
Qed.
End CacheProperties.

(** ** find and count *)

Section FindProperties.
Context {rt : JsRuntime}.

(** X13.  find and count agree on every filter find accepts, whatever the cache
    holds: the [total] of find is the number count answers with; find
    answers 404 exactly when count answers 0; and when the evaluation of
    the filter throws, both answer with code 500 and the same message. *)
Theorem find_total_is_count (a : adapter) (filters : value) :
  validateFilter filters = Ok tt ->
  (exists docs,
      docs <> []
      /\ snd (find a filters) = find_envelope true (VArr docs) (length docs) VNull
      /\ snd (count a filters)
         = envelope true (VNum (Z.of_nat (length docs))) VNull)
  \/ (snd (find a filters)
      = find_envelope false (VArr []) 0
          (error_info "No documents found matching the criteria" 404)
      /\ snd (count a filters) = envelope true (VNum 0) VNull)
  \/ (exists e,
         snd (find a filters) = find_failure e
         /\ snd (count a filters) = failure e "Failed to count documents" 500).
Proof.
  intros Hv. unfold find, count, engine_count. rewrite Hv.
  destruct (check_filters filters) as [[]|e];
    [|right; right; exists e; split; reflexivity].
  assert (Hcases : forall (a' : adapter) (r : list handle),
    (exists docs,
        docs <> []
        /\ snd (if (length r =? 0)%nat
                then (a', find_envelope false (VArr []) 0
                            (error_info "No documents found matching the criteria" 404))
                else (a', find_envelope true
                            (VArr (map (fun h => VObj (deref (heap a') h)) r))
                            (length r) VNull))
           = find_envelope true (VArr docs) (length docs) VNull
        /\ envelope true (VNum (Z.of_nat (length r))) VNull
           = envelope true (VNum (Z.of_nat (length docs))) VNull)
    \/ (snd (if (length r =? 0)%nat
             then (a', find_envelope false (VArr []) 0
                         (error_info "No documents found matching the criteria" 404))
             else (a', find_envelope true
                         (VArr (map (fun h => VObj (deref (heap a') h)) r))
                         (length r) VNull))
        = find_envelope false (VArr []) 0
            (error_info "No documents found matching the criteria" 404)
        /\ envelope true (VNum (Z.of_nat (length r))) VNull
           = envelope true (VNum 0) VNull)).
  { intros a' r. destruct r as [|h r]; [right; split; reflexivity|].
    left. exists (map (fun h => VObj (deref (heap a') h)) (h :: r)).
    split; [discriminate|]. rewrite length_map. split; reflexivity. }
  destruct (no_filter filters) eqn:Hnf.
  - unfold applyFilters. rewrite Hnf.
    destruct (Hcases a (data (col a))) as [H|H]; [left|right; left]; exact H.
  - destruct (applyFilters a (data (col a)) filters) as [a' [r|e]].
    + destruct (Hcases a' r) as [H|H]; [left|right; left]; exact H.
    + right. right. exists e. split; reflexivity.
Qed.

Lemma filter_r_matches (hp : list document) (filters : value)
      (q : document -> bool) (l : list handle) :
  (forall h, In h l -> matchesFilter (VObj (deref hp h)) filters = Ok (q (deref hp h))) ->
  filter_r (matches hp filters) l = Ok (filter (fun h => q (deref hp h)) l).
Proof.
  induction l as [|h l IH]; intros H; [reflexivity|].
  simpl. unfold matches at 1. rewrite (H h) by (left; reflexivity).
  rewrite IH by (intros h' Hin; apply H; right; exact Hin).
  simpl. reflexivity.
Qed.

Lemma map_filter_deref (hp : list document) (q : document -> bool)
      (l : list handle) :
  map (deref hp) (filter (fun h => q (deref hp h)) l)
  = filter q (map (deref hp) l).
Proof.
  induction l as [|h l IH]; simpl; [reflexivity|].
  destruct (q (deref hp h)); simpl; now rewrite IH.
Qed.

(** X14.  What find computes for a filter that passes its checks (an
    object or a falsy value whose [$] keys are all on the list of find)
    when the cache has no list for the call: the documents of the
    collection that match the filter, in the order of the collection,
    with their number as [total]; and the 404 envelope when there is
    none. *)
Theorem find_returns_the_matching_documents
        (a : adapter) (filters : value) (q : document -> bool) :
  check_filters filters = Ok tt ->
  validateFilter filters = Ok tt ->
  cache_get (cacheKey filters a.(col).(data)) a.(queryCache) = None ->
  (forall d, In d (documents a) -> matchesFilter (VObj d) filters = Ok (q d)) ->
  snd (find a filters)
  = match filter q (documents a) with
    | [] => find_envelope false (VArr []) 0
              (error_info "No documents found matching the criteria" 404)
    | found => find_envelope true (VArr (map VObj found)) (length found) VNull
    end.
Proof.
  intros Hc Hv Hmiss Hq. unfold find. rewrite Hc, Hv.
  assert (Hf : filter_r (matches (heap a) filters) (data (col a))
               = Ok (filter (fun h => q (deref (heap a) h)) (data (col a)))).
  { apply filter_r_matches. intros h Hin. apply Hq.
    unfold documents. now apply in_map. }
  unfold documents. rewrite <- map_filter_deref.
  unfold applyFilters. destruct (no_filter filters) eqn:Hnf.
  - assert (Hall : filter (fun h => q (deref (heap a) h)) (data (col a))
                   = data (col a)).
    { apply Ok_inj. rewrite <- Hf. apply filter_r_all_true.
      intros h. now apply no_filter_matches. }
    rewrite Hall. destruct (data (col a)) as [|h l]; [reflexivity|].
    cbn [length Nat.eqb snd map]. now rewrite !map_map, length_map.
  - rewrite Hmiss, Hf.
    destruct (filter (fun h => q (deref (heap a) h)) (data (col a))) as [|h l];
      [reflexivity|].
    cbn [length Nat.eqb snd map heap]. now rewrite !map_map, length_map.
Qed.
End FindProperties.

(* ------------------------------------------------------------------ *)
(** ** findById *)

Lemma map_get_scalar {V} (k : value) (v : V) (m : list (value * V)) :
  map_get k m = Some v -> is_scalar k = true.
Proof.
  induction m as [|[k0 v0] m IH]; simpl; [discriminate|].
  destruct (strict_eq k0 k) eqn:E; [|exact IH].
  intros _. apply strict_eq_true_iff in E. tauto.
Qed.

Lemma find_id_none (hp : list document) (id : value) (l : list handle) :
  (forall h, In h l -> doc_id hp h <> Some id) -> find_id hp id l = None.
Proof.
  induction l as [|h l IH]; intros H; simpl; [reflexivity|].
  destruct (strict_eq_opt (doc_id hp h) (Some id)) eqn:E.
  - exfalso. apply (H h); [now left|].
    destruct (doc_id hp h) as [v|]; [|discriminate]. simpl in E.
    apply strict_eq_true_iff in E. destruct E as [-> _]. reflexivity.
  - apply IH. intros h' Hin. apply H. now right.
Qed.

Lemma findById_found (a : adapter) (id : value) (i : nat) (d : document) :
  well_formed a ->
  doc_at a i = Some d -> lookup "id" d = Some id ->
  findById a id = envelope true (VObj d) VNull.
Proof.
  intros [_ [Hex1 _]] Hd Hid. unfold findById.
  rewrite (Hex1 i d id Hd Hid), Hd. reflexivity.
Qed.

Lemma findById_not_found (a : adapter) (id : value) :
  well_formed a ->
  (forall i d, doc_at a i = Some d -> lookup "id" d <> Some id) ->
  findById a id = envelope false VNull (error_info "Document not found" 404).
Proof.
  intros [_ [_ Hex2]] Hnone. unfold findById.
  destruct (map_get id (idIndex (col a))) as [i|] eqn:Hget.
  - apply map_get_In in Hget. destruct (Hex2 _ _ Hget) as [d [Hd Hid]].
    exfalso. exact (Hnone i d Hd Hid).
  - rewrite find_id_none; [reflexivity|].
    intros h Hin Hid. apply In_nth_error in Hin. destruct Hin as [i Hi].
    apply (Hnone i (deref (heap a) h)); [|exact Hid].
    apply doc_at_Some. eauto.
Qed.

(** X15.  On a collection whose idIndex is exact, findById answers with the
    document that has the id, and with code 404 when no document has it. *)
Theorem findById_finds_exactly (a : adapter) (id : value) :
  well_formed a ->
  (forall i d, doc_at a i = Some d -> lookup "id" d = Some id ->
     findById a id = envelope true (VObj d) VNull)
  /\ ((forall i d, doc_at a i = Some d -> lookup "id" d <> Some id) ->
      findById a id = envelope false VNull (error_info "Document not found" 404)).
Proof.
  intros Hwf. split.
  - intros i d Hd Hid. eapply findById_found; eassumption.
  - intros Hnone. apply findById_not_found; assumption.
Qed.

(** X16.  Round trip on a collection whose idIndex is exact: the document
    a single insert has stored is the one findById answers with under
    the id insert gave it; it has the fields of the input.  Stated for a
    document that comes without an id or with a string as its id. *)
Theorem insert_then_findById
        (now prefix generated : string) (a a' : adapter) (doc report : document) :
  well_formed a ->
  keys_distinct doc ->
  (forall v, lookup "id" doc = Some v -> truthy v = true -> exists s, v = VStr s) ->
  insert now prefix generated a [doc] = (a', envelope true (VObj report) VNull) ->
  let docId := next_docId prefix generated false 0 doc in
  exists d,
    findById a' (VStr docId) = envelope true (VObj d) VNull
    /\ lookup "id" d = Some (VStr docId)
    /\ carries d doc.
Proof.
  intros Hwf Hkeys Htext Hins docId. unfold insert in Hins.
  cbn [length Nat.leb insert_loop_run] in Hins.
  set (start := {| il_adapter := a; il_inserted := []; il_updated := [];
                   il_sequence := 0; il_allIdsWereGenerated := true |}) in Hins.
  destruct (insert_step now prefix generated false start doc)
    as [st thrown] eqn:Hstep.
  pose proof (insert_step_spec now prefix generated false start Hkeys Hwf Hstep)
    as Hspec.
  cbv zeta in Hspec. destruct Hspec as [Hwf' [_ Hok]].
  destruct thrown as [e|]; cbn [and_then insert_loop_run done] in Hins;
    [discriminate|].
  injection Hins as <- _.
  destruct (Hok eq_refl) as [_ [_ [[pos Hpos] Hbranch]]].
  fold docId in Hpos, Hbranch.
  assert (Hwf'' : well_formed (touched st)) by now apply touched_well_formed.
  pose proof Hwf' as [_ [_ Hex2]].
  destruct (Hex2 _ _ (map_get_In _ _ Hpos)) as [d [Hd Hid]].
  exists d. split; [|split; [exact Hid|]].
  - apply (@findById_found (touched st) (VStr docId) pos d Hwf'');
      [now rewrite touched_doc_at | exact Hid].
  - intros k v Hk1 Hk2 Hk3 Hdoc.
    assert (E1 : ("updatedAt" =? k) = false) by (apply String.eqb_neq; congruence).
    assert (E2 : ("createdAt" =? k) = false) by (apply String.eqb_neq; congruence).
    assert (E3 : ("id" =? k) = false) by (apply String.eqb_neq; congruence).
    apply doc_at_Some in Hd. destruct Hd as [h [Hnth ->]].
    pose proof Hwf as [_ [Hex1a Hex2a]].
    destruct Hbranch as [Hup | Happ].
    + destruct Hup as [i [h1 [Hget [Hnth1 [Hheap [Hcol _]]]]]].
      cbn [il_adapter start] in Hget, Hnth1, Hheap, Hcol.
      rewrite Hcol in Hpos, Hnth. rewrite Hpos in Hget. injection Hget as <-.
      rewrite Hnth1 in Hnth. injection Hnth as <-.
      rewrite Hheap. unfold deref at 1. rewrite nth_list_set_same.
      * unfold upsert_merge.
        rewrite lookup_obj_set, E1, lookup_obj_set_opt, E2.
        rewrite lookup_obj_assign by (apply NoDup_obj_set; exact Hkeys).
        now rewrite lookup_obj_set, E3, Hdoc.
      * destruct Hwf as [Hvalid _]. apply Hvalid.
        eapply nth_error_In. exact Hnth1.
    + destruct Happ as [Hnone [Hheap [Hdata _]]].
      cbn [il_adapter start] in Hnone, Hheap, Hdata.
      assert (Hlast : pos = length (data (col a))).
      { destruct (Nat.eq_dec pos (length (data (col a)))) as [E|E]; [exact E|].
        exfalso. rewrite Hdata in Hnth.
        assert (Hlt : pos < length (data (col a))).
        { assert (Hsome : nth_error (data (col a) ++ [length (heap a)]) pos <> None)
            by congruence.
          apply nth_error_Some in Hsome. rewrite length_app in Hsome.
          simpl in Hsome. lia. }
        rewrite nth_error_app1 in Hnth by exact Hlt.
        assert (Hold : deref (heap (il_adapter st)) h = deref (heap a) h).
        { rewrite Hheap. unfold deref. apply app_nth1.
          destruct Hwf as [Hvalid _]. apply Hvalid.
          eapply nth_error_In. exact Hnth. }
        rewrite Hold in Hid.
        assert (Hdoc_at : doc_at a pos = Some (deref (heap a) h))
          by (apply doc_at_Some; eauto).
        rewrite (Hex1a _ _ _ Hdoc_at Hid) in Hnone. discriminate. }
      subst pos. rewrite Hdata in Hnth.
      rewrite nth_error_app2, Nat.sub_diag in Hnth by lia.
      injection Hnth as <-. rewrite Hheap. unfold deref.
      rewrite app_nth2, Nat.sub_diag by lia. cbn [nth].
      unfold stamp_created. rewrite lookup_obj_set, E2.
      now rewrite lookup_obj_set, E3.
Qed.

(* ------------------------------------------------------------------ *)
(** ** Rebuilding idIndex *)

Lemma In_defined_ids (hp : list document) (l : list handle) (v : value) :
  In v (defined_ids hp l) <-> exists h, In h l /\ doc_id hp h = Some v.
Proof.
  unfold defined_ids. rewrite in_flat_map. split.
  - intros [h [Hin Hv]]. exists h. split; [exact Hin|].
    destruct (doc_id hp h) as [w|]; simpl in Hv; [|contradiction].
    destruct Hv as [->|[]]. reflexivity.
  - intros [h [Hin Hid]]. exists h. split; [exact Hin|].
    rewrite Hid. now left.
Qed.

Lemma unique_positions_NoDup (hp : list document) (l : list handle) :
  (forall i j h h' v,
      nth_error l i = Some h -> nth_error l j = Some h' ->
      doc_id hp h = Some v -> doc_id hp h' = Some v -> i = j) ->
  NoDup (defined_ids hp l).
Proof.
  induction l as [|h l IH]; intros Huniq; [constructor|].
  unfold defined_ids. cbn [flat_map]. fold (defined_ids hp l).
  assert (Hl : NoDup (defined_ids hp l)).
  { apply IH. intros i j h1 h2 v Hi Hj H1 H2.
    assert (S i = S j) by (eapply Huniq; eauto). lia. }
  destruct (doc_id hp h) as [v|] eqn:Hid; [|exact Hl].
  cbn [app]. constructor; [|exact Hl].
  intros Hin. apply In_defined_ids in Hin. destruct Hin as [h' [Hin Hid']].
  apply In_nth_error in Hin. destruct Hin as [j Hj].
  assert (0 = S j) by (eapply (Huniq 0 (S j) h h' v); eauto). discriminate.
Qed.

Lemma exact_unique_ids (a : adapter) :
  idIndex_exact a -> NoDup (defined_ids a.(heap) a.(col).(data)).
Proof.
  intros [Hex1 _]. apply unique_positions_NoDup.
  intros i j h h' v Hi Hj Hid Hid'.
  assert (Hdi : doc_at a i = Some (deref (heap a) h)) by (apply doc_at_Some; eauto).
  assert (Hdj : doc_at a j = Some (deref (heap a) h')) by (apply doc_at_Some; eauto).
  pose proof (Hex1 _ _ _ Hdi Hid) as H1.
  pose proof (Hex1 _ _ _ Hdj Hid') as H2. congruence.
Qed.

Lemma NoDup_defined_ids_filter (hp : list document) (p : handle -> bool)
      (l : list handle) :
  NoDup (defined_ids hp l) -> NoDup (defined_ids hp (filter p l)).
Proof.
  induction l as [|h l IH]; intros Hnd; [constructor|].
  unfold defined_ids in Hnd. cbn [flat_map] in Hnd. fold (defined_ids hp l) in Hnd.
  assert (Hl : NoDup (defined_ids hp l)) by (eapply NoDup_app_remove_l; exact Hnd).
  cbn [filter]. destruct (p h); [|now apply IH].
  unfold defined_ids. cbn [flat_map]. fold (defined_ids hp (filter p l)).
  destruct (doc_id hp h) as [v|] eqn:Hid; [|now apply IH].
  cbn [app] in *. inversion Hnd as [|? ? Hnotin _]; subst.
  constructor; [|now apply IH].
  intros Hin. apply Hnotin. apply In_defined_ids in Hin.
  destruct Hin as [h' [Hin Hid']]. apply In_defined_ids. exists h'.
  split; [|exact Hid']. apply filter_In in Hin. tauto.
Qed.

Lemma findIndex_id_none (hp : list document) (v : value) (l : list handle)
      (idx : nat) :
  ~ In v (defined_ids hp l) -> findIndex_id hp v l idx = None.
Proof.
  revert idx. induction l as [|h l IH]; intros idx Hnot; [reflexivity|].
  cbn [findIndex_id].
  destruct (strict_eq_opt (doc_id hp h) (Some v)) eqn:E.
  - exfalso. apply Hnot. apply In_defined_ids. exists h. split; [now left|].
    destruct (doc_id hp h) as [w|]; [|discriminate]. simpl in E.
    apply strict_eq_true_iff in E. destruct E as [-> _]. reflexivity.
  - apply IH. intros Hin. apply Hnot. apply In_defined_ids in Hin.
    destruct Hin as [h' [Hin Hid]]. apply In_defined_ids. exists h'.
    split; [now right | exact Hid].
Qed.

Lemma findIndex_id_unique (hp : list document) (v : value) (l : list handle) :
  forall i idx h,
    NoDup (defined_ids hp l) ->
    nth_error l i = Some h -> doc_id hp h = Some v -> is_scalar v = true ->
    findIndex_id hp v l idx = Some (idx + i).
Proof.
  induction l as [|h0 l IH]; intros i idx h Hnd Hnth Hid Hv;
    [destruct i; discriminate|].
  unfold defined_ids in Hnd. cbn [flat_map] in Hnd. fold (defined_ids hp l) in Hnd.
  cbn [findIndex_id]. destruct i as [|i]; simpl in Hnth.
  - injection Hnth as ->. rewrite Hid. cbn [strict_eq_opt].
    rewrite strict_eq_refl by exact Hv. now rewrite Nat.add_0_r.
  - assert (Hin : In v (defined_ids hp l)).
    { apply In_defined_ids. exists h. split; [|exact Hid].
      eapply nth_error_In. exact Hnth. }
    destruct (strict_eq_opt (doc_id hp h0) (Some v)) eqn:E.
    + exfalso. destruct (doc_id hp h0) as [w|]; [|discriminate]. simpl in E.
      apply strict_eq_true_iff in E. destruct E as [-> _].
      cbn [app] in Hnd. inversion Hnd. contradiction.
    + rewrite (IH i (S idx) h); try assumption; [f_equal; lia|].
      eapply NoDup_app_remove_l. exact Hnd.
Qed.

Lemma findIndex_id_Some (hp : list document) (v : value) (l : list handle) :
  forall idx p,
    findIndex_id hp v l idx = Some p ->
    exists i h, p = idx + i /\ nth_error l i = Some h /\ doc_id hp h = Some v.
Proof.
  induction l as [|h0 l IH]; intros idx p H; [discriminate|].
  cbn [findIndex_id] in H.
  destruct (strict_eq_opt (doc_id hp h0) (Some v)) eqn:E.
  - injection H as <-. exists 0, h0. split; [lia|]. split; [reflexivity|].
    destruct (doc_id hp h0) as [w|]; [|discriminate]. simpl in E.
    apply strict_eq_true_iff in E. destruct E as [-> _]. reflexivity.
  - destruct (IH _ _ H) as [i [h [-> [Hnth Hid]]]].
    exists (S i), h. split; [lia|]. split; assumption.
Qed.

(** What the renumbering loop leaves under a key: the position of the
    document of [l] that has the key as its id, and the old entry for any
    other key. *)
Lemma reindex_from_get (hp : list document) (k : value) (l : list handle) :
  forall idx ix,
    usable_ids hp l -> NoDup (defined_ids hp l) ->
    map_get k (reindex_from hp l idx ix)
    = match findIndex_id hp k l idx with
      | Some p => Some p
      | None => map_get k ix
      end.
Proof.
  induction l as [|h l IH]; intros idx ix Hus Hnd; [reflexivity|].
  assert (Hus' : usable_ids hp l)
    by (intros h' v Hin; apply Hus; now right).
  unfold defined_ids in Hnd. cbn [flat_map] in Hnd. fold (defined_ids hp l) in Hnd.
  assert (Hnd' : NoDup (defined_ids hp l))
    by (eapply NoDup_app_remove_l; exact Hnd).
  cbn [reindex_from findIndex_id]. rewrite IH by assumption.
  destruct (doc_id hp h) as [v|] eqn:Hid; cbn [strict_eq_opt].
  - destruct (Hus h v (or_introl eq_refl) Hid) as [Ht Hs]. rewrite Ht.
    destruct (strict_eq v k) eqn:E.
    + apply strict_eq_true_iff in E. destruct E as [<- _].
      rewrite findIndex_id_none.
      * rewrite map_get_map_set by exact Hs. now rewrite strict_eq_refl.
      * cbn [app] in Hnd. now inversion Hnd.
    + destruct (findIndex_id hp k l (S idx)); [reflexivity|].
      rewrite map_get_map_set by exact Hs. now rewrite E.
  - reflexivity.
Qed.

Lemma In_map_set {V} (k k0 : value) (v v0 : V) (m : list (value * V)) :
  In (k, v) (map_set k0 v0 m) -> In (k, v) m \/ (k = k0 /\ v = v0).
Proof.
  induction m as [|[k1 v1] m IH]; simpl.
  - intros [[= <- <-]|[]]. now right.
  - destruct (strict_eq k1 k0) eqn:E.
    + intros [[= <- <-]|H]; [|tauto].
      apply strict_eq_true_iff in E. destruct E as [-> _]. now right.
    + intros [H|H]; [tauto|]. destruct (IH H); tauto.
Qed.

Lemma reindex_from_In (hp : list document) (k : value) (p : nat)
      (l : list handle) :
  forall idx ix,
    In (k, p) (reindex_from hp l idx ix) ->
    In (k, p) ix
    \/ exists i h, p = idx + i /\ nth_error l i = Some h /\ doc_id hp h = Some k.
Proof.
  induction l as [|h l IH]; intros idx ix H; [now left|].
  cbn [reindex_from] in H. apply IH in H. destruct H as [H | [i [h' [-> [Hn Hid]]]]].
  - destruct (doc_id hp h) as [v|] eqn:Hid; [|now left].
    destruct (truthy v); [|now left].
    apply In_map_set in H. destruct H as [H | [-> ->]]; [now left|].
    right. exists 0, h. split; [lia|]. split; [reflexivity | exact Hid].
  - right. exists (S i), h'. split; [lia|]. split; assumption.
Qed.

Lemma keys_map_set {V} (k : value) (v : V) (m : list (value * V)) :
  map fst (map_set k v m)
  = match map_get k m with
    | Some _ => map fst m
    | None => map fst m ++ [k]
    end.
Proof.
  induction m as [|[k0 v0] m IH]; simpl; [reflexivity|].
  destruct (strict_eq k0 k); [reflexivity|].
  simpl. rewrite IH. destruct (map_get k m); reflexivity.
Qed.

Lemma map_get_None_not_In {V} (k : value) (m : list (value * V)) :
  is_scalar k = true -> map_get k m = None -> ~ In k (map fst m).
Proof.
  intros Hk. induction m as [|[k0 v0] m IH]; simpl; [tauto|].
  destruct (strict_eq k0 k) eqn:E; [discriminate|].
  intros Hnone [->|Hin]; [|now apply IH].
  rewrite strict_eq_refl in E by exact Hk. discriminate.
Qed.

Lemma NoDup_keys_map_set {V} (k : value) (v : V) (m : list (value * V)) :
  is_scalar k = true ->
  NoDup (map fst m) -> NoDup (map fst (map_set k v m)).
Proof.
  intros Hk Hnd. rewrite keys_map_set.
  destruct (map_get k m) eqn:E; [exact Hnd|].
  apply NoDup_app; [exact Hnd | repeat constructor; tauto |].
  intros x Hin [<-|[]]. revert Hin. now apply map_get_None_not_In.
Qed.

Lemma NoDup_keys_reindex_from (hp : list document) (l : list handle) :
  forall idx ix,
    usable_ids hp l ->
    NoDup (map fst ix) -> NoDup (map fst (reindex_from hp l idx ix)).
Proof.
  induction l as [|h l IH]; intros idx ix Hus Hnd; [exact Hnd|].
  cbn [reindex_from]. apply IH; [intros h' v Hin; apply Hus; now right|].
  destruct (doc_id hp h) as [v|] eqn:Hid; [|exact Hnd].
  destruct (Hus h v (or_introl eq_refl) Hid) as [Ht Hs]. rewrite Ht.
  now apply NoDup_keys_map_set.
Qed.

(** In a sound state the ids are usable. *)
Lemma sound_usable_ids (a : adapter) :
  sound a -> usable_ids a.(heap) a.(col).(data).
Proof.
  intros [[_ [Hex1 _]] [_ Htruthy]] h v Hin Hid.
  apply In_nth_error in Hin. destruct Hin as [i Hi].
  assert (Hd : doc_at a i = Some (deref (heap a) h)) by (apply doc_at_Some; eauto).
  split; [exact (Htruthy _ _ _ Hd Hid)|].
  eapply map_get_scalar. exact (Hex1 _ _ _ Hd Hid).
Qed.

(* ------------------------------------------------------------------ *)
(** ** delete *)

Lemma filter_r_pointwise {A} (g : A -> result bool) (p : A -> bool) (l : list A) :
  (forall x, In x l -> g x = Ok (p x)) -> filter_r g l = Ok (filter p l).
Proof.
  induction l as [|x l IH]; intros H; [reflexivity|].
  simpl. rewrite (H x) by (now left).
  rewrite IH by (intros y Hin; apply H; now right). reflexivity.
Qed.

Lemma filter_r_is_filter {A} (g : A -> result bool) (l k : list A) :
  filter_r g l = Ok k ->
  k = filter (fun x => match g x with Ok true => true | _ => false end) l.
Proof.
  revert k. induction l as [|x l IH]; intros k H; simpl in H.
  - now injection H as <-.
  - destruct (g x) as [b|e] eqn:Hg; [|discriminate]. simpl in H.
    destruct (filter_r g l) as [rest|e]; [|discriminate]. simpl in H.
    injection H as <-. simpl. rewrite Hg, <- (IH rest eq_refl).
    destruct b; reflexivity.
Qed.

Lemma filter_split_length {A} (p : A -> bool) (l : list A) :
  length l - length (filter (fun x => negb (p x)) l) = length (filter p l).
Proof.
  induction l as [|x l IH]; [reflexivity|].
  pose proof (filter_length_le (fun x => negb (p x)) l).
  cbn [filter length]. destruct (p x); cbn [negb length]; lia.
Qed.

Section DeleteProperties.
Context {rt : JsRuntime}.

(** X17.  delete removes the documents that match the filter and no other: the
    documents left are those that do not match, in their order, and
    [deletedCount] is the number of those that matched; when none
    matched the answer is 404. *)
Theorem delete_removes_the_matching_documents
        (a : adapter) (filters : value) (q : document -> bool) :
  (forall d, In d (documents a) -> matchesFilter (VObj d) filters = Ok (q d)) ->
  documents (fst (delete a filters))
  = filter (fun d => negb (q d)) (documents a)
  /\ snd (delete a filters)
     = match filter q (documents a) with
       | [] => envelope false VNull
                 (error_info "No documents matched the filters" 404)
       | gone => envelope true
                   (VObj [("deletedCount", VNum (Z.of_nat (length gone)))]) VNull
       end.
Proof.
  intros Hq.
  assert (Hq' : forall h, In h (data (col a)) ->
                  matches (heap a) filters h = Ok (q (deref (heap a) h))).
  { intros h Hin. apply Hq. unfold documents. now apply in_map. }
  unfold delete.
  rewrite (filter_r_pointwise _ (fun h => q (deref (heap a) h))) by exact Hq'.
  rewrite (filter_r_pointwise _ (fun h => negb (q (deref (heap a) h))))
    by (intros h Hin; rewrite Hq' by exact Hin; reflexivity).
  rewrite filter_split_length.
  assert (Hlen : length (filter (fun h => q (deref (heap a) h)) (data (col a)))
                 = length (filter q (documents a))).
  { unfold documents. now rewrite <- map_filter_deref, length_map. }
  assert (Hdocs : map (deref (heap a))
                    (filter (fun h => negb (q (deref (heap a) h))) (data (col a)))
                  = filter (fun d => negb (q d)) (documents a)).
  { unfold documents. apply (map_filter_deref (heap a) (fun d => negb (q d))). }
  rewrite Hlen. destruct (filter q (documents a)) as [|d gone]; cbn [length Nat.ltb Nat.leb].
  - split; [exact Hdocs | reflexivity].
  - split; [exact Hdocs | reflexivity].
Qed.

(** X18.  delete keeps the state sound: it rebuilds idIndex from the documents
    that are left. *)
Theorem delete_keeps_idIndex_exact (a : adapter) (filters : value) :
  sound a -> sound (fst (delete a filters)).
Proof.
  intros Hs. pose proof Hs as [[Hvalid [Hex1 Hex2]] [Hkeys Htruthy]].
  unfold delete.
  destruct (filter_r (matches (heap a) filters) (data (col a))) as [matching|e];
    [|exact Hs].
  destruct (filter_r (fun h => not_r (matches (heap a) filters h)) (data (col a)))
    as [kept|e] eqn:Hkept; [|exact Hs].
  apply filter_r_is_filter in Hkept.
  set (p := fun x => match not_r (matches (heap a) filters x) with
                     | Ok true => true
                     | _ => false
                     end) in Hkept.
  destruct (0 <? length (data (col a)) - length kept)%nat eqn:Hdel.
  - (* some documents were removed *)
    cbn [fst].
    assert (Hsub : forall h, In h kept -> In h (data (col a))).
    { intros h Hin. rewrite Hkept in Hin. apply filter_In in Hin. tauto. }
    assert (Hus : usable_ids (heap a) kept).
    { intros h v Hin. apply (sound_usable_ids Hs). now apply Hsub. }
    assert (Hnd : NoDup (defined_ids (heap a) kept)).
    { rewrite Hkept. apply NoDup_defined_ids_filter.
      apply exact_unique_ids. split; assumption. }
    split; [split; [|split]|split].
    + intros h Hin. apply Hvalid. now apply Hsub.
    + intros i d v Hd Hid. apply doc_at_Some in Hd. destruct Hd as [h [Hn ->]].
      cbn [col heap data idIndex with_col] in *.
      rewrite reindex_from_get by assumption.
      destruct (Hus h v (nth_error_In _ _ Hn) Hid) as [_ Hsc].
      erewrite findIndex_id_unique;
        [reflexivity | exact Hnd | exact Hn | exact Hid | exact Hsc].
    + intros k i Hin. cbn [col heap data idIndex with_col] in *.
      apply reindex_from_In in Hin. destruct Hin as [[] | [j [h [-> [Hn Hid]]]]].
      exists (deref (heap a) h). split; [|exact Hid].
      apply doc_at_Some. exists h. split; [exact Hn | reflexivity].
    + cbn [col idIndex with_col]. apply NoDup_keys_reindex_from; [exact Hus|].
      constructor.
    + intros i d v Hd Hid. apply doc_at_Some in Hd. destruct Hd as [h [Hn ->]].
      cbn [col heap data with_col] in *.
      exact (proj1 (Hus h v (nth_error_In _ _ Hn) Hid)).
  - (* none was: the list of documents is the same *)
    assert (Hsame : kept = data (col a)).
    { rewrite Hkept. apply forallb_filter_id, filter_length_forallb.
      apply Nat.ltb_ge in Hdel. rewrite Hkept in Hdel.
      pose proof (filter_length_le p (data (col a))). lia. }
    rewrite Hsame. cbn [fst].
    replace (with_col a (set_data (col a) (data (col a)))) with a; [exact Hs|].
    destruct a as [hp [d ix ixs dr] qc ch]. reflexivity.
Qed.
End DeleteProperties.

(* ------------------------------------------------------------------ *)
(** ** deleteById *)

Lemma list_remove_at_app {A} (pre post : list A) (x : A) :
  list_remove_at (length pre) (pre ++ x :: post) = pre ++ post.
Proof. induction pre as [|y pre IH]; simpl; [reflexivity | now rewrite IH]. Qed.

Lemma skipn_app_length {A} (pre post : list A) :
  skipn (length pre) (pre ++ post) = post.
Proof. induction pre as [|y pre IH]; simpl; [reflexivity | exact IH]. Qed.

Lemma firstn_app_length {A} (pre post : list A) :
  firstn (length pre) (pre ++ post) = pre.
Proof. induction pre as [|y pre IH]; simpl; [reflexivity | now rewrite IH]. Qed.

Lemma defined_ids_app (hp : list document) (l1 l2 : list handle) :
  defined_ids hp (l1 ++ l2) = defined_ids hp l1 ++ defined_ids hp l2.
Proof. unfold defined_ids. apply flat_map_app. Qed.

Lemma map_get_map_delete_other {V} (k id : value) (m : list (value * V)) :
  strict_eq id k = false -> is_scalar k = true ->
  map_get k (map_delete id m) = map_get k m.
Proof.
  intros Hne Hk. induction m as [|[k0 v0] m IH]; simpl; [reflexivity|].
  destruct (strict_eq k0 id) eqn:E.
  - apply strict_eq_true_iff in E. destruct E as [-> _]. now rewrite Hne.
  - simpl. now rewrite IH.
Qed.

Lemma In_map_delete {V} (k id : value) (v : V) (m : list (value * V)) :
  In (k, v) (map_delete id m) -> In (k, v) m.
Proof.
  induction m as [|[k0 v0] m IH]; simpl; [tauto|].
  destruct (strict_eq k0 id); [tauto|]. intros [H|H]; [tauto|]. right. now apply IH.
Qed.

Lemma NoDup_keys_map_delete {V} (id : value) (m : list (value * V)) :
  NoDup (map fst m) -> NoDup (map fst (map_delete id m)).
Proof.
  induction m as [|[k0 v0] m IH]; simpl; [tauto|].
  intros Hnd. inversion Hnd as [|? ? Hnotin Hnd']; subst.
  destruct (strict_eq k0 id); [exact Hnd'|].
  simpl. constructor; [|now apply IH].
  intros Hin. apply Hnotin. apply in_map_iff in Hin.
  destruct Hin as [[k v] [Hk Hin]]. simpl in Hk. subst k.
  apply in_map_iff. exists (k0, v). split; [reflexivity|].
  eapply In_map_delete. exact Hin.
Qed.

Lemma map_get_map_delete_same {V} (id : value) (m : list (value * V)) :
  NoDup (map fst m) -> map_get id (map_delete id m) = None.
Proof.
  induction m as [|[k0 v0] m IH]; simpl; [reflexivity|].
  intros Hnd. inversion Hnd as [|? ? Hnotin Hnd']; subst.
  destruct (strict_eq k0 id) eqn:E.
  - apply strict_eq_true_iff in E. destruct E as [-> Hs].
    destruct (map_get id m) as [v|] eqn:Hget; [|reflexivity].
    exfalso. apply Hnotin. apply map_get_In in Hget.
    apply in_map_iff. exists (id, v). tauto.
  - simpl. rewrite E. now apply IH.
Qed.

Lemma In_map_get {V} (k : value) (v : V) (m : list (value * V)) :
  NoDup (map fst m) -> is_scalar k = true -> In (k, v) m -> map_get k m = Some v.
Proof.
  intros Hnd Hk. induction m as [|[k0 v0] m IH]; simpl; [tauto|].
  inversion Hnd as [|? ? Hnotin Hnd']; subst.
  intros [[= -> ->]|Hin].
  - now rewrite strict_eq_refl.
  - destruct (strict_eq k0 k) eqn:E; [|now apply IH].
    exfalso. apply strict_eq_true_iff in E. destruct E as [-> _].
    apply Hnotin. apply in_map_iff. exists (k, v). tauto.
Qed.

(** The state after a deleteById that found its document: the handle is
    taken out of [data], the key out of [idIndex], and the documents
    behind are renumbered. *)
Lemma deleteById_success (a : adapter) (id : value) :
  sound a ->
  snd (deleteById a id)
  = envelope true (VObj [("deletedCount", VNum 1); ("deletedId", id)]) VNull ->
  exists pre h post ixs,
    a.(col).(data) = pre ++ h :: post
    /\ map_get id a.(col).(idIndex) = Some (length pre)
    /\ lookup "id" (deref a.(heap) h) = Some id
    /\ fst (deleteById a id)
       = with_col a
           {| data := pre ++ post;
              idIndex := reindex_from a.(heap) post (length pre)
                           (map_delete id a.(col).(idIndex));
              indexes := ixs;
              dirty := true |}.
Proof.
  intros [[Hvalid [Hex1 Hex2]] _] Hok. unfold deleteById in *.
  destruct (map_get id (idIndex (col a))) as [docIdx|] eqn:Hget;
    [|discriminate].
  destruct (Hex2 _ _ (map_get_In _ _ Hget)) as [d [Hd Hid]].
  apply doc_at_Some in Hd. destruct Hd as [h [Hnth ->]].
  rewrite Hnth in *.
  destruct (nth_error_split _ _ Hnth) as [pre [post [Hdata Hlen]]].
  destruct (remove_from_indexes (indexes (col a)) (deref (heap a) h) docIdx)
    as [ixs [e|]]; [discriminate|].
  exists pre, h, post, ixs. subst docIdx. rewrite Hdata.
  rewrite list_remove_at_app, skipn_app_length. auto.
Qed.

Lemma nth_error_pre_post {A} (pre post : list A) (x : A) (p : nat) :
  nth_error (pre ++ post) p
  = if (p <? length pre)%nat then nth_error (pre ++ x :: post) p
    else nth_error (pre ++ x :: post) (S p).
Proof.
  destruct (p <? length pre)%nat eqn:E.
  - apply Nat.ltb_lt in E. now rewrite !nth_error_app1 by exact E.
  - apply Nat.ltb_ge in E. rewrite !nth_error_app2 by lia.
    replace (S p - length pre) with (S (p - length pre)) by lia. reflexivity.
Qed.

(** A deleteById that succeeds keeps the state sound. *)
Lemma deleteById_sound (a : adapter) (id : value) :
  sound a ->
  snd (deleteById a id)
  = envelope true (VObj [("deletedCount", VNum 1); ("deletedId", id)]) VNull ->
  sound (fst (deleteById a id)).
Proof.
  intros Hs Hok.
  destruct (deleteById_success Hs Hok)
    as [pre [h [post [ixs [Hdata [Hget [Hidh ->]]]]]]].
  pose proof (sound_usable_ids Hs) as Hus.
  pose proof Hs as [[Hvalid [Hex1 Hex2]] [Hkeys Htruthy]].
  pose proof (exact_unique_ids (conj Hex1 Hex2)) as Hnd.
  rewrite Hdata in Hus, Hnd.
  assert (Hus_post : usable_ids (heap a) post).
  { intros h' v Hin. apply Hus. apply in_or_app. right. now right. }
  assert (Hnd_post : NoDup (defined_ids (heap a) post)).
  { rewrite defined_ids_app in Hnd. apply NoDup_app_remove_l in Hnd.
    change (h :: post) with ([h] ++ post) in Hnd.
    rewrite defined_ids_app in Hnd. now apply NoDup_app_remove_l in Hnd. }
  assert (Hsplit : forall v, In v (defined_ids (heap a) pre) ->
                     v <> id /\ ~ In v (defined_ids (heap a) post)).
  { intros v Hin. rewrite defined_ids_app in Hnd.
    change (h :: post) with ([h] ++ post) in Hnd.
    rewrite defined_ids_app in Hnd.
    unfold defined_ids at 2 in Hnd. cbn [flat_map] in Hnd.
    unfold doc_id in Hnd at 1. rewrite Hidh in Hnd. cbn [app] in Hnd.
    split.
    - intros ->. revert Hin. apply NoDup_remove_2 in Hnd.
      intros Hin. apply Hnd. apply in_or_app. now left.
    - intros Hpost. apply NoDup_remove_1 in Hnd.
      revert Hin Hpost. clear -Hnd.
      induction (defined_ids (heap a) pre) as [|x l IH]; [tauto|].
      cbn [app] in Hnd. inversion Hnd as [|? ? Hnotin Hnd']; subst.
      intros [->|Hin] Hpost; [|now apply IH].
      apply Hnotin. apply in_or_app. now right. }
  assert (Hid_post : ~ In id (defined_ids (heap a) post)).
  { rewrite defined_ids_app in Hnd.
    change (h :: post) with ([h] ++ post) in Hnd.
    rewrite defined_ids_app in Hnd.
    unfold defined_ids at 2 in Hnd. cbn [flat_map] in Hnd.
    unfold doc_id in Hnd at 1. rewrite Hidh in Hnd. cbn [app] in Hnd.
    apply NoDup_remove_2 in Hnd. intros Hin. apply Hnd.
    apply in_or_app. now right. }
  assert (Hdoc_old : forall p h',
            nth_error (pre ++ h :: post) p = Some h' ->
            doc_at a p = Some (deref (heap a) h')).
  { intros p h' Hn. apply doc_at_Some. exists h'. rewrite Hdata. auto. }
  split; [split; [|split]|split].
  - (* handles *)
    intros h' Hin. cbn [col data with_col] in Hin. apply Hvalid. rewrite Hdata.
    apply in_app_or in Hin. apply in_or_app. destruct Hin; [now left|].
    right. now right.
  - (* every document is under its id *)
    intros p d v Hd Hid. apply doc_at_Some in Hd. destruct Hd as [h' [Hn ->]].
    cbn [col heap data idIndex with_col] in *.
    rewrite reindex_from_get by assumption.
    rewrite (nth_error_pre_post pre post h) in Hn.
    destruct (p <? length pre)%nat eqn:E.
    + apply Nat.ltb_lt in E.
      assert (Hin : In v (defined_ids (heap a) pre)).
      { apply In_defined_ids. exists h'. split; [|exact Hid].
        rewrite nth_error_app1 in Hn by exact E.
        eapply nth_error_In. exact Hn. }
      destruct (Hsplit v Hin) as [Hne Hnot].
      rewrite findIndex_id_none by exact Hnot.
      pose proof (Hex1 _ _ _ (Hdoc_old _ _ Hn) Hid) as Hold.
      rewrite map_get_map_delete_other; [exact Hold | | ].
      * destruct (strict_eq id v) eqn:Eq; [|reflexivity].
        apply strict_eq_true_iff in Eq. destruct Eq as [-> _]. congruence.
      * eapply map_get_scalar. exact Hold.
    + apply Nat.ltb_ge in E.
      rewrite nth_error_app2 in Hn by lia.
      replace (S p - length pre) with (S (p - length pre)) in Hn by lia.
      cbn [nth_error] in Hn.
      destruct (Hus_post h' v (nth_error_In _ _ Hn) Hid) as [_ Hsc].
      assert (Hf : findIndex_id (heap a) v post (length pre)
                   = Some (length pre + (p - length pre)))
        by (eapply findIndex_id_unique; eauto).
      rewrite Hf. f_equal. lia.
  - (* every entry is the id of the document at its position *)
    intros k p Hin. cbn [col heap data idIndex with_col] in *.
    assert (Hk : is_scalar k = true).
    { pose proof Hin as Hin'. apply reindex_from_In in Hin'.
      destruct Hin' as [Hold | [j [h' [_ [Hn Hid]]]]].
      - apply In_map_delete in Hold.
        destruct (Hex2 _ _ Hold) as [d [Hd Hidd]].
        eapply map_get_scalar. exact (Hex1 _ _ _ Hd Hidd).
      - exact (proj2 (Hus_post h' k (nth_error_In _ _ Hn) Hid)). }
    apply In_map_get in Hin;
      [| apply NoDup_keys_reindex_from;
         [exact Hus_post | now apply NoDup_keys_map_delete]
       | exact Hk].
    rewrite reindex_from_get in Hin by assumption.
    destruct (findIndex_id (heap a) k post (length pre)) as [q|] eqn:Hfind.
    + injection Hin as ->. apply findIndex_id_Some in Hfind.
      destruct Hfind as [j [h' [-> [Hn Hid]]]].
      exists (deref (heap a) h'). split; [|exact Hid].
      apply doc_at_Some. exists h'. split; [|reflexivity].
      cbn [col data with_col]. rewrite nth_error_app2 by lia.
      now replace (length pre + j - length pre) with j by lia.
    + destruct (strict_eq id k) eqn:Eq.
      * apply strict_eq_true_iff in Eq. destruct Eq as [-> _].
        rewrite map_get_map_delete_same in Hin by exact Hkeys. discriminate.
      * rewrite map_get_map_delete_other in Hin by assumption.
        destruct (Hex2 _ _ (map_get_In _ _ Hin)) as [d [Hd Hidd]].
        apply doc_at_Some in Hd. destruct Hd as [h' [Hn ->]].
        rewrite Hdata in Hn.
        destruct (Nat.lt_trichotomy p (length pre)) as [Hlt|[Heq|Hgt]].
        -- exists (deref (heap a) h'). split; [|exact Hidd].
           apply doc_at_Some. exists h'. split; [|reflexivity].
           cbn [col data with_col].
           rewrite nth_error_app1 in Hn by exact Hlt.
           now rewrite nth_error_app1 by exact Hlt.
        -- exfalso. subst p. rewrite nth_error_app2, Nat.sub_diag in Hn by lia.
           injection Hn as <-. rewrite Hidh in Hidd. injection Hidd as <-.
           rewrite strict_eq_refl in Eq by exact Hk. discriminate.
        -- exfalso. rewrite nth_error_app2 in Hn by lia.
           destruct (p - length pre) as [|j] eqn:Ej; [lia|].
           cbn [nth_error] in Hn.
           assert (Hfound : findIndex_id (heap a) k post (length pre)
                            = Some (length pre + j)).
           { eapply findIndex_id_unique; eauto. }
           congruence.
  - (* keys *)
    cbn [col idIndex with_col]. apply NoDup_keys_reindex_from; [exact Hus_post|].
    now apply NoDup_keys_map_delete.
  - (* ids *)
    intros p d v Hd Hid. apply doc_at_Some in Hd. destruct Hd as [h' [Hn ->]].
    cbn [col heap data with_col] in *.
    apply (Hus h' v); [|exact Hid].
    apply nth_error_In in Hn. apply in_app_or in Hn. apply in_or_app.
    destruct Hn; [now left | right; now right].
Qed.

(** X19.  A deleteById that answers with success has removed the document that
    had the id and no other, the documents behind it moving up by one; it
    leaves idIndex exact; findById then answers 404 for the id, and finds
    every other document as before. *)
Theorem deleteById_removes_the_document (a : adapter) (id : value) :
  sound a ->
  snd (deleteById a id)
  = envelope true (VObj [("deletedCount", VNum 1); ("deletedId", id)]) VNull ->
  let a' := fst (deleteById a id) in
  sound a'
  /\ (exists pre d post,
         documents a = pre ++ d :: post
         /\ lookup "id" d = Some id
         /\ documents a' = pre ++ post)
  /\ findById a' id
     = envelope false VNull (error_info "Document not found" 404)
  /\ (forall i d v,
         doc_at a i = Some d -> lookup "id" d = Some v -> v <> id ->
         findById a' v = envelope true (VObj d) VNull).
Proof.
  intros Hs Hok a'.
  pose proof (deleteById_sound Hs Hok) as Hs'. fold a' in Hs'.
  destruct (deleteById_success Hs Hok)
    as [pre [h [post [ixs [Hdata [Hget [Hidh Ha']]]]]]].
  fold a' in Ha'.
  pose proof Hs as [[Hvalid [Hex1 Hex2]] _].
  assert (Hdocs' : documents a'
                   = map (deref (heap a)) pre ++ map (deref (heap a)) post).
  { rewrite Ha'. unfold documents. cbn [col heap data with_col].
    apply map_app. }
  assert (Hdocs : documents a
                  = map (deref (heap a)) pre
                    ++ deref (heap a) h :: map (deref (heap a)) post).
  { unfold documents. rewrite Hdata, map_app. reflexivity. }
  assert (Hat : forall p d, doc_at a' p = Some d ->
                  exists q, q <> length pre /\ doc_at a q = Some d).
  { intros p d Hd. apply doc_at_Some in Hd. destruct Hd as [h' [Hn ->]].
    rewrite Ha' in Hn |- *. cbn [col heap data with_col] in Hn |- *.
    rewrite (nth_error_pre_post pre post h) in Hn.
    destruct (p <? length pre)%nat eqn:E.
    - apply Nat.ltb_lt in E. exists p. split; [lia|].
      apply doc_at_Some. exists h'. rewrite Hdata. auto.
    - apply Nat.ltb_ge in E. exists (S p). split; [lia|].
      apply doc_at_Some. exists h'. rewrite Hdata. auto. }
  split; [exact Hs'|]. split; [|split].
  - exists (map (deref (heap a)) pre), (deref (heap a) h),
      (map (deref (heap a)) post). auto.
  - apply (findById_not_found (proj1 Hs')).
    intros p d Hd Hid. destruct (Hat p d Hd) as [q [Hq Hdq]].
    pose proof (Hex1 _ _ _ Hdq Hid) as Hq'. congruence.
  - intros i d v Hd Hid Hne.
    assert (Hi : i <> length pre).
    { intros ->. pose proof (Hex1 _ _ _ Hd Hid) as Hv.
      apply doc_at_Some in Hd. destruct Hd as [h' [Hn ->]].
      rewrite Hdata, nth_error_app2, Nat.sub_diag in Hn by lia.
      injection Hn as <-. congruence. }
    apply doc_at_Some in Hd. destruct Hd as [h' [Hn ->]].
    rewrite Hdata in Hn.
    apply (@findById_found _ v
             (if (i <? length pre)%nat then i else pred i) _ (proj1 Hs'));
      [|exact Hid].
    apply doc_at_Some. exists h'. rewrite Ha'. cbn [col heap data with_col].
    split; [|reflexivity].
    rewrite (nth_error_pre_post pre post h).
    destruct (i <? length pre)%nat eqn:E.
    + rewrite E. exact Hn.
    + apply Nat.ltb_ge in E.
      assert (E' : (pred i <? length pre)%nat = false)
        by (apply Nat.ltb_ge; lia).
      rewrite E'. now replace (S (pred i)) with i by lia.
Qed.

(* ------------------------------------------------------------------ *)
(** ** insert keeps the state sound *)

Lemma new_adapter_sound : sound new_adapter.
Proof.
  split; [exact new_adapter_well_formed|]. split; [constructor|].
  intros [|i] d v H; discriminate.
Qed.

Lemma append_nonempty (s t : string) : t <> "" -> (s ++ t)%string <> "".
Proof. destruct s; simpl; [tauto | discriminate]. Qed.

Section InsertSound.
Variables (now prefix generated : string) (useSequentialIds : bool).
Hypothesis generated_nonempty : generated <> "".

Lemma next_docId_nonempty (sequence : nat) (doc : document) :
  clean_id doc ->
  next_docId prefix generated useSequentialIds sequence doc <> "".
Proof.
  intros Hclean. unfold next_docId.
  assert (Hseq : forall n, sequential_id prefix n <> "").
  { intros n. unfold sequential_id. apply append_nonempty. discriminate. }
  destruct (lookup "id" doc) as [i|] eqn:Hid.
  - destruct (truthy i) eqn:Ht; [now apply Hclean|].
    destruct useSequentialIds; [apply Hseq | exact generated_nonempty].
  - destruct useSequentialIds; [apply Hseq | exact generated_nonempty].
Qed.

Lemma insert_step_sound (st st' : insert_loop) (doc : document)
      (thrown : option exn) :
  keys_distinct doc -> clean_id doc ->
  sound st.(il_adapter) ->
  insert_step now prefix generated useSequentialIds st doc = (st', thrown) ->
  sound st'.(il_adapter).
Proof.
  intros Hkeys Hclean Hs Hstep.
  pose proof Hs as [Hwf [Hnd Htruthy]].
  pose proof (insert_step_spec now prefix generated useSequentialIds st
                               Hkeys Hwf Hstep) as Hspec.
  cbv zeta in Hspec. destruct Hspec as [Hwf' _].
  split; [exact Hwf'|].
  pose proof (next_docId_nonempty st.(il_sequence) Hclean) as Hne.
  unfold insert_step in Hstep.
  set (docId := next_docId prefix generated useSequentialIds (il_sequence st) doc)
    in *.
  assert (Hdt : truthy (VStr docId) = true).
  { simpl. apply negb_true_iff. now apply String.eqb_neq. }
  destruct (map_get (VStr docId) (idIndex (col (il_adapter st)))) as [i|] eqn:Hget.
  - destruct (nth_error (data (col (il_adapter st))) i) as [h|] eqn:Hnth;
      injection Hstep as <- <-; cbn [il_adapter]; [|tauto].
    split; [exact Hnd|].
    intros p d v Hd Hid. apply doc_at_Some in Hd. destruct Hd as [h' [Hn ->]].
    cbn [col heap data with_heap] in *.
    destruct (Nat.eq_dec h h') as [<-|Hneq].
    + unfold deref in Hid. rewrite nth_list_set_same in Hid
        by (apply (proj1 Hwf); eapply nth_error_In; exact Hnth).
      unfold upsert_merge in Hid.
      rewrite lookup_obj_set, lookup_obj_set_opt in Hid. simpl in Hid.
      rewrite lookup_obj_assign in Hid by (apply NoDup_obj_set; exact Hkeys).
      rewrite lookup_obj_set, String.eqb_refl in Hid. injection Hid as <-.
      exact Hdt.
    + unfold deref in Hid. rewrite nth_list_set_other in Hid by exact Hneq.
      apply (Htruthy p (deref (heap (il_adapter st)) h') v); [|exact Hid].
      apply doc_at_Some. eauto.
  - destruct (_updateIndexesOnInsert _ _ _) as [ixs thrown'].
    assert (Hgoal :
      forall a',
        heap a' = heap (il_adapter st)
                  ++ [stamp_created now (obj_set "id" (VStr docId) doc)] ->
        data (col a') = data (col (il_adapter st)) ++ [length (heap (il_adapter st))] ->
        idIndex (col a')
        = map_set (VStr docId) (length (data (col (il_adapter st))))
                  (idIndex (col (il_adapter st))) ->
        NoDup (map fst (idIndex (col a'))) /\ ids_truthy a').
    { intros a' Hheap Hdata Hix. split.
      - rewrite Hix. now apply NoDup_keys_map_set.
      - intros p d v Hd Hid. apply doc_at_Some in Hd.
        destruct Hd as [h' [Hn ->]]. rewrite Hdata in Hn. rewrite Hheap in Hid.
        destruct (Nat.lt_ge_cases p (length (data (col (il_adapter st)))))
          as [Hlt|Hge].
        + rewrite nth_error_app1 in Hn by exact Hlt.
          unfold deref in Hid. rewrite app_nth1 in Hid
            by (apply (proj1 Hwf); eapply nth_error_In; exact Hn).
          apply (Htruthy p (deref (heap (il_adapter st)) h') v); [|exact Hid].
          apply doc_at_Some. eauto.
        + rewrite nth_error_app2 in Hn by exact Hge.
          destruct (p - length (data (col (il_adapter st)))) as [|j];
            [|destruct j; discriminate].
          injection Hn as <-. unfold deref in Hid.
          rewrite app_nth2, Nat.sub_diag in Hid by lia. cbn [nth] in Hid.
          unfold stamp_created in Hid. rewrite !lookup_obj_set in Hid.
          simpl in Hid. rewrite ?String.eqb_refl in Hid.
          injection Hid as <-. exact Hdt. }
    destruct thrown' as [e|]; injection Hstep as <- <-; cbn [il_adapter];
      apply Hgoal; reflexivity.
Qed.

Lemma insert_loop_sound (docs : list document) :
  forall st st' thrown,
    Forall keys_distinct docs -> Forall clean_id docs ->
    sound st.(il_adapter) ->
    insert_loop_run now prefix generated useSequentialIds docs st = (st', thrown) ->
    sound st'.(il_adapter).
Proof.
  induction docs as [|doc docs IH]; intros st st' thrown Hkeys Hclean Hs Hrun.
  - simpl in Hrun. now injection Hrun as <- _.
  - inversion Hkeys as [|? ? Hk Hks]; subst.
    inversion Hclean as [|? ? Hc Hcs]; subst.
    simpl in Hrun.
    destruct (insert_step now prefix generated useSequentialIds st doc)
      as [st1 thrown1] eqn:Hstep.
    pose proof (insert_step_sound st Hk Hc Hs Hstep) as Hs1.
    destruct thrown1 as [e|]; simpl in Hrun.
    + now injection Hrun as <- _.
    + exact (IH _ _ _ Hks Hcs Hs1 Hrun).
Qed.
End InsertSound.

Lemma touched_sound (st : insert_loop) :
  sound st.(il_adapter) -> sound (touched st).
Proof.
  intros [Hwf [Hnd Htruthy]]. split; [now apply touched_well_formed|]. split.
  - now rewrite touched_idIndex.
  - intros p d v Hd. rewrite touched_doc_at in Hd. exact (Htruthy p d v Hd).
Qed.

(** X20.  insert keeps the state sound, also when it stops on an exception:
    the handles stay valid, idIndex stays exact and without a repeated
    key, and the ids stay truthy. *)
Theorem insert_keeps_idIndex_exact
        (now prefix generated : string) (a : adapter) (docs : list document) :
  generated <> "" ->
  Forall keys_distinct docs -> Forall clean_id docs ->
  sound a ->
  sound (fst (insert now prefix generated a docs)).
Proof.
  intros Hgen Hkeys Hclean Hs. unfold insert.
  destruct (insert_loop_run _ _ _ _ _ _) as [st thrown] eqn:Hrun.
  assert (Hst : sound (il_adapter st)).
  { eapply insert_loop_sound;
      [exact Hgen | exact Hkeys | exact Hclean | | exact Hrun].
    exact Hs. }
  destruct thrown; cbn [fst]; [exact Hst | now apply touched_sound].
Qed.

(* ------------------------------------------------------------------ *)
(** ** update *)

Section UpdateSpec.
Context {rt : JsRuntime}.
Variables (now : string) (filters u : value) (q : document -> bool).

Lemma existsb_eqb_In (h : nat) (l : list nat) :
  existsb (Nat.eqb h) l = true <-> In h l.
Proof.
  rewrite existsb_exists. split.
  - intros [x [Hin E]]. apply Nat.eqb_eq in E. now subst.
  - intros Hin. exists h. split; [exact Hin | apply Nat.eqb_refl].
Qed.

Lemma update_loop_spec (todo : list handle) :
  forall hp acc,
    NoDup todo ->
    (forall h, In h todo -> h < length hp) ->
    (forall h, In h todo ->
       matchesFilter (VObj (deref hp h)) filters = Ok (q (deref hp h))) ->
    (forall h, In h todo -> q (deref hp h) = true ->
       snd (applyUpdateToDoc now (deref hp h) (Some u)) = None) ->
    exists hp',
      update_loop now filters u todo hp acc
      = ((hp', acc ++ filter (fun h => q (deref hp h)) todo), None)
      /\ length hp' = length hp
      /\ forall h, deref hp' h
                   = if existsb (Nat.eqb h) todo && q (deref hp h)
                     then updated_document now u (deref hp h)
                     else deref hp h.
Proof.
  induction todo as [|h rest IH]; intros hp acc Hnd Hvalid Hq Hok.
  - exists hp. cbn [update_loop filter existsb andb]. rewrite app_nil_r. auto.
  - inversion Hnd as [|? ? Hnotin Hnd']; subst.
    cbn [update_loop]. unfold matches. rewrite (Hq h) by (now left).
    destruct (q (deref hp h)) eqn:Hqh.
    + pose proof (Hok h (or_introl eq_refl) Hqh) as Hnone.
      destruct (applyUpdateToDoc now (deref hp h) (Some u)) as [doc' thrown] eqn:Happ.
      cbn [snd] in Hnone. subst thrown.
      set (hp1 := list_set h (obj_set "updatedAt" (VStr now) doc') hp).
      assert (Hsame : forall h', h' <> h -> deref hp1 h' = deref hp h').
      { intros h' Hne. unfold deref, hp1. apply nth_list_set_other. congruence. }
      assert (Hrest : forall h', In h' rest -> deref hp1 h' = deref hp h').
      { intros h' Hin. apply Hsame. intros ->. contradiction. }
      destruct (IH hp1 (acc ++ [h]) Hnd') as [hp' [Hrun [Hlen Hderef]]].
      * intros h' Hin. unfold hp1. rewrite length_list_set.
        apply Hvalid. now right.
      * intros h' Hin. rewrite Hrest by exact Hin. apply Hq. now right.
      * intros h' Hin. rewrite Hrest by exact Hin. apply Hok. now right.
      * exists hp'. split; [|split].
        -- assert (Hfe : filter (fun h => q (deref hp1 h)) rest
                         = filter (fun h => q (deref hp h)) rest)
             by (apply filter_ext_in; intros h' Hin; now rewrite Hrest).
           rewrite Hrun, Hfe. cbn [filter]. rewrite Hqh, <- app_assoc.
           reflexivity.
        -- rewrite Hlen. unfold hp1. apply length_list_set.
        -- intros h0. rewrite Hderef. cbn [existsb].
           destruct (Nat.eqb_spec h0 h) as [->|Hne].
           ++ assert (E : existsb (Nat.eqb h) rest = false).
              { destruct (existsb (Nat.eqb h) rest) eqn:E; [|reflexivity].
                apply existsb_eqb_In in E. contradiction. }
              rewrite E. cbn [andb orb]. rewrite Hqh.
              unfold deref at 1, hp1. rewrite nth_list_set_same
                by (apply Hvalid; now left).
              unfold updated_document. now rewrite Happ.
           ++ cbn [orb]. now rewrite (Hsame h0 Hne).
    + destruct (IH hp acc Hnd') as [hp' [Hrun [Hlen Hderef]]].
      * intros h' Hin. apply Hvalid. now right.
      * intros h' Hin. apply Hq. now right.
      * intros h' Hin. apply Hok. now right.
      * exists hp'. split; [|split; [exact Hlen|]].
        -- rewrite Hrun. cbn [filter]. now rewrite Hqh.
        -- intros h0. rewrite Hderef. cbn [existsb].
           destruct (Nat.eqb_spec h0 h) as [->|Hne]; [|reflexivity].
           cbn [orb]. rewrite Hqh, andb_false_r.
           destruct (existsb (Nat.eqb h) rest); reflexivity.
Qed.
End UpdateSpec.

Section UpdateProperties2.
Context {rt : JsRuntime}.

(** X21.  update changes the documents that match the filter, each as
    applyUpdateToDoc changes it, and no other; [data] and the order of the
    documents stay; [updatedCount] is the number of documents that
    matched, and the answer is 404 when none did.  Stated for an update
    that stores scalars under plain field names, which leaves the
    documents without a shared array or object. *)
Theorem update_changes_the_matching_documents
        (now : string) (a : adapter) (filters : value)
        (ops : option value) (u : value) (returnType : string) (maxReturn : nat)
        (q : document -> bool) :
  NoDup a.(col).(data) ->
  handles_valid a ->
  normalizedUpdate ops = Ok u ->
  simple_update u = true ->
  (forall d, In d (documents a) -> matchesFilter (VObj d) filters = Ok (q d)) ->
  (forall d, In d (documents a) -> q d = true ->
     snd (applyUpdateToDoc now d (Some u)) = None) ->
  let a' := fst (update now a filters ops returnType maxReturn) in
  documents a'
  = map (fun d => if q d then updated_document now u d else d) (documents a)
  /\ a'.(col).(data) = a.(col).(data)
  /\ match filter q (documents a) with
     | [] => snd (update now a filters ops returnType maxReturn)
             = envelope false VNull
                 (error_info "No documents matched the filters" 404)
     | matched =>
         exists report,
           snd (update now a filters ops returnType maxReturn)
           = envelope true (VObj report) VNull
           /\ lookup "updatedCount" report
              = Some (VNum (Z.of_nat (length matched)))
     end.
Proof.
  intros Hnd Hvalid Hnorm Hsimple Hq Hok a'. subst a'. unfold update. rewrite Hnorm.
  assert (Hin_docs : forall h, In h (data (col a)) ->
                       In (deref (heap a) h) (documents a)).
  { intros h Hin. unfold documents. now apply in_map. }
  destruct (@update_loop_spec rt now filters u q (data (col a)) (heap a) [] Hnd)
    as [hp' [Hrun [Hlen Hderef]]].
  - exact Hvalid.
  - intros h Hin. now apply Hq, Hin_docs.
  - intros h Hin. now apply Hok, Hin_docs.
  - rewrite Hrun. cbn [app].
    assert (Hdocs : map (deref hp') (data (col a))
                    = map (fun d => if q d then updated_document now u d else d)
                          (documents a)).
    { unfold documents. rewrite map_map. apply map_ext_in. intros h Hin.
      rewrite Hderef.
      assert (E : existsb (Nat.eqb h) (data (col a)) = true)
        by now apply existsb_eqb_In.
      now rewrite E. }
    assert (Hlenf : length (filter (fun h => q (deref (heap a) h)) (data (col a)))
                    = length (filter q (documents a))).
    { unfold documents. now rewrite <- map_filter_deref, length_map. }
    destruct (filter (fun h => q (deref (heap a) h)) (data (col a)))
      as [|h0 hs] eqn:Hf.
    + cbn [fst snd]. split; [exact Hdocs|]. split; [reflexivity|].
      destruct (filter q (documents a)); [reflexivity | discriminate].
    + cbn [fst snd]. split; [exact Hdocs|]. split; [reflexivity|].
      destruct (filter q (documents a)) as [|d ds] eqn:Hfd; [discriminate|].
      eexists. split; [reflexivity|]. unfold update_response.
      simpl in Hlenf. injection Hlenf as Hl. simpl. now rewrite Hl.
Qed.
End UpdateProperties2.

(* ------------------------------------------------------------------ *)
(** ** The properties of the adapter on a collection of three documents *)

Lemma three_documents_sound : sound three_documents.
Proof.
  unfold three_documents, insert.
  destruct (insert_loop_run _ _ _ _ _ _) as [st thrown] eqn:Hrun.
  assert (Hst : sound (il_adapter st)).
  { eapply (@insert_loop_sound "t0" "p" "g"); [ | | | | exact Hrun].
    - discriminate.
    - repeat constructor; simpl; intuition discriminate.
    - repeat constructor; intros v [= <-] _; discriminate.
    - exact new_adapter_sound. }
  destruct thrown; cbn [fst]; [exact Hst | now apply touched_sound].
Qed.

Lemma three_documents_x (d : document) :
  In d (documents three_documents) ->
  matchesFilter (rt := example_runtime) (VObj d) (x_is 1)
  = Ok (match lookup "x" d with Some (VNum 1) => true | _ => false end).
Proof. intros [<-|[<-|[<-|[]]]]; reflexivity. Qed.

Lemma query_cache_bounded_witness :
  length (queryCache (fst (find (rt := example_runtime) three_documents (x_is 1))))
  <= cacheSize
  /\ length (queryCache (fst (count (rt := example_runtime) three_documents (x_is 1))))
     <= cacheSize.
Proof.
  apply (@query_cache_bounded example_runtime three_documents (x_is 1)).
  apply Nat.le_0_l.
Defined.

Lemma find_total_is_count_witness :
  (exists docs,
      docs <> []
      /\ snd (find (rt := example_runtime) three_documents (x_is 1))
         = find_envelope true (VArr docs) (length docs) VNull
      /\ snd (count (rt := example_runtime) three_documents (x_is 1))
         = envelope true (VNum (Z.of_nat (length docs))) VNull)
  \/ (snd (find (rt := example_runtime) three_documents (x_is 1))
      = find_envelope false (VArr []) 0
          (error_info "No documents found matching the criteria" 404)
      /\ snd (count (rt := example_runtime) three_documents (x_is 1))
         = envelope true (VNum 0) VNull)
  \/ (exists e,
         snd (find (rt := example_runtime) three_documents (x_is 1))
         = find_failure e
         /\ snd (count (rt := example_runtime) three_documents (x_is 1))
            = failure e "Failed to count documents" 500).
Proof.
  apply (@find_total_is_count example_runtime three_documents (x_is 1)).
  reflexivity.
Defined.

Lemma find_returns_the_matching_documents_witness :
  snd (find (rt := example_runtime) three_documents (x_is 1))
  = find_envelope true
      (VArr [VObj [("id", VStr "a"); ("x", VNum 1); ("createdAt", VStr "t0")];
             VObj [("id", VStr "c"); ("x", VNum 1); ("createdAt", VStr "t0")]])
      2 VNull.
Proof.
  apply (@find_returns_the_matching_documents example_runtime three_documents
           (x_is 1)
           (fun d => match lookup "x" d with Some (VNum 1) => true | _ => false end)).
  - reflexivity.
  - reflexivity.
  - reflexivity.
  - exact three_documents_x.
Defined.

Lemma findById_finds_exactly_witness :
  findById three_documents (VStr "b")
  = envelope true
      (VObj [("id", VStr "b"); ("x", VNum 2); ("createdAt", VStr "t0")]) VNull
  /\ findById three_documents (VStr "z")
     = envelope false VNull (error_info "Document not found" 404).
Proof.
  pose proof (@findById_finds_exactly three_documents (VStr "b")
                (proj1 three_documents_sound)) as Hb.
  pose proof (@findById_finds_exactly three_documents (VStr "z")
                (proj1 three_documents_sound)) as Hz.
  split.
  - apply (proj1 Hb 1); reflexivity.
  - apply (proj2 Hz). intros [|[|[|[|i]]]] d Hd Hid; try discriminate;
      injection Hd as <-; discriminate.
Defined.

Lemma insert_then_findById_witness :
  let a' := fst (insert "t1" "p" "g" three_documents [[("name", VStr "Bob")]]) in
  exists d,
    findById a' (VStr "g") = envelope true (VObj d) VNull
    /\ lookup "id" d = Some (VStr "g")
    /\ carries d [("name", VStr "Bob")].
Proof.
  cbv zeta.
  apply (@insert_then_findById "t1" "p" "g" three_documents
           (fst (insert "t1" "p" "g" three_documents [[("name", VStr "Bob")]]))
           [("name", VStr "Bob")]
           [("insertedCount", VNum 1); ("updatedCount", VNum 0);
            ("insertedIds", VArr [VStr "g"])]).
  - exact (proj1 three_documents_sound).
  - repeat constructor; simpl; intuition discriminate.
  - intros v Hv. discriminate Hv.
  - reflexivity.
Defined.

Lemma delete_removes_the_matching_documents_witness :
  documents (fst (delete (rt := example_runtime) three_documents (x_is 1)))
  = [[("id", VStr "b"); ("x", VNum 2); ("createdAt", VStr "t0")]]
  /\ snd (delete (rt := example_runtime) three_documents (x_is 1))
     = envelope true (VObj [("deletedCount", VNum 2)]) VNull.
Proof.
  apply (@delete_removes_the_matching_documents example_runtime three_documents
           (x_is 1)
           (fun d => match lookup "x" d with Some (VNum 1) => true | _ => false end)).
  exact three_documents_x.
Defined.

Lemma delete_keeps_idIndex_exact_witness :
  sound (fst (delete (rt := example_runtime) three_documents (x_is 1))).
Proof.
  apply (@delete_keeps_idIndex_exact example_runtime three_documents (x_is 1)).
  exact three_documents_sound.
Defined.

Lemma deleteById_removes_the_document_witness :
  let a' := fst (deleteById three_documents (VStr "a")) in
  sound a'
  /\ (exists pre d post,
         documents three_documents = pre ++ d :: post
         /\ lookup "id" d = Some (VStr "a")
         /\ documents a' = pre ++ post)
  /\ findById a' (VStr "a")
     = envelope false VNull (error_info "Document not found" 404)
  /\ (forall i d v,
         doc_at three_documents i = Some d -> lookup "id" d = Some v ->
         v <> VStr "a" ->
         findById a' v = envelope true (VObj d) VNull).
Proof.
  apply (@deleteById_removes_the_document three_documents (VStr "a")).
  - exact three_documents_sound.
  - reflexivity.
Defined.

Lemma insert_keeps_idIndex_exact_witness :
  sound (fst (insert "t1" "p" "g" three_documents
                [[("id", VNum 7)]; [("name", VStr "Bob")]])).
Proof.
  apply (@insert_keeps_idIndex_exact "t1" "p" "g" three_documents
           [[("id", VNum 7)]; [("name", VStr "Bob")]]).
  - discriminate.
  - repeat constructor; simpl; intuition discriminate.
  - repeat constructor.
    + intros v [= <-] _. discriminate.
    + intros v H. discriminate.
  - exact three_documents_sound.
Defined.

Lemma update_changes_the_matching_documents_witness :
  let u := VObj [("$set", VObj [("x", VNum 5)])] in
  let a' := fst (update (rt := example_runtime) "t1" three_documents (x_is 1)
                   (Some u) "count" 50) in
  documents a'
  = map (fun d => if match lookup "x" d with Some (VNum 1) => true | _ => false end
                  then updated_document (rt := example_runtime) "t1" u d
                  else d)
        (documents three_documents)
  /\ a'.(col).(data) = three_documents.(col).(data)
  /\ exists report,
       snd (update (rt := example_runtime) "t1" three_documents (x_is 1)
              (Some u) "count" 50)
       = envelope true (VObj report) VNull
       /\ lookup "updatedCount" report = Some (VNum 2).
Proof.
  cbv zeta.
  apply (@update_changes_the_matching_documents example_runtime "t1"
           three_documents (x_is 1)
           (Some (VObj [("$set", VObj [("x", VNum 5)])]))
           (VObj [("$set", VObj [("x", VNum 5)])]) "count" 50
           (fun d => match lookup "x" d with Some (VNum 1) => true | _ => false end)).
  - repeat constructor; simpl; intuition discriminate.
  - exact (proj1 (proj1 three_documents_sound)).
  - reflexivity.
  - reflexivity.
  - exact three_documents_x.
  - intros d [<-|[<-|[<-|[]]]]; intros; reflexivity.
Defined.

(* ================================================================== *)
(** * Collection names *)

Lemma name_char_not_special (c : ascii) :
  name_char c = true ->
  Ascii.eqb c "." = false
  /\ (Ascii.eqb c "/" || Ascii.eqb c backslash) = false
  /\ regex_space c = false
  /\ reserved_char c = false.
Proof.
  destruct c as [[|] [|] [|] [|] [|] [|] [|] [|]]; vm_compute;
    intros H; try discriminate; repeat split.
Qed.

Lemma string_includes_dots (s : string) :
  forallb name_char (list_ascii_of_string s) = true ->
  string_includes ".." s = false.
Proof.
  induction s as [|c s IH]; intros H; [reflexivity|].
  simpl in H. apply andb_prop in H. destruct H as [Hc Hs].
  cbn [string_includes]. rewrite IH by exact Hs.
  destruct (name_char_not_special c Hc) as [Hdot _].
  cbn [String.prefix].
  destruct (Ascii.ascii_dec "." c) as [<-|Hne]; [|reflexivity].
  vm_compute in Hdot. discriminate.
Qed.

Lemma letter_is_name_char (c : ascii) :
  is_letter c = true -> name_char c = true /\ bad_start c = false.
Proof.
  destruct c as [[|] [|] [|] [|] [|] [|] [|] [|]]; vm_compute;
    intros H; try discriminate; split; reflexivity.
Qed.

Lemma name_char_good_start (c : ascii) :
  name_char c = true -> bad_start c = false -> is_letter c = true.
Proof.
  destruct c as [[|] [|] [|] [|] [|] [|] [|] [|]]; vm_compute;
    intros H1 H2; try discriminate; reflexivity.
Qed.

(** A string of name characters matches none of [invalidPatterns]. *)
Lemma invalidPatterns_unreachable (s : string) :
  validNameRegex s = true ->
  existsb (fun pattern => pattern s) invalidPatterns = false.
Proof.
  unfold validNameRegex. intros H. apply andb_prop in H. destruct H as [_ H].
  assert (Hall : forall p, (forall c, name_char c = true -> p c = false) ->
                   existsb p (list_ascii_of_string s) = false).
  { intros p Hp. clear -H Hp. induction s as [|c s IH]; [reflexivity|].
    simpl in H. apply andb_prop in H. destruct H as [Hc Hs].
    simpl. now rewrite (Hp c Hc), IH. }
  unfold invalidPatterns. cbn [existsb].
  rewrite string_includes_dots by exact H.
  rewrite !Hall by (intros c Hc; now destruct (name_char_not_special c Hc)
                                     as [? [? [? ?]]]).
  destruct s as [|c s]; [reflexivity|].
  simpl in H. apply andb_prop in H. destruct H as [Hc _].
  destruct (name_char_not_special c Hc) as [Hdot _].
  destruct c as [[|] [|] [|] [|] [|] [|] [|] [|]]; try reflexivity.
  vm_compute in Hdot. discriminate.
Qed.

(** X22.  The names that are accepted: the strings of 1 to 64 letters, digits,
    underscores and hyphens that begin with a letter, and nothing else. *)
Theorem collection_name_accepted_iff (name : option value) :
  _validateCollectionName name = Ok true
  <-> exists c s,
        name = Some (VStr (String c s))
        /\ is_letter c = true
        /\ forallb name_char (list_ascii_of_string s) = true
        /\ String.length s < 64.
Proof.
  split.
  - destruct name as [[| | |s| |]|]; try discriminate.
    unfold _validateCollectionName.
    destruct s as [|c s]; [discriminate|].
    change (truthy (VStr (String c s))) with true. cbn [negb].
    destruct (Nat.ltb_spec (String.length (String c s)) 1) as [H1|H1];
      [discriminate|].
    destruct (Nat.ltb_spec 64 (String.length (String c s))) as [H64|H64];
      [discriminate|].
    destruct (validNameRegex (String c s)) eqn:Hv; [|discriminate].
    cbn [negb starts_badly].
    destruct (bad_start c) eqn:Hb; [discriminate|].
    intros _. unfold validNameRegex in Hv. simpl in Hv.
    apply andb_prop in Hv. destruct Hv as [Hc Hs].
    exists c, s. split; [reflexivity|]. split; [|split; [exact Hs|]].
    + now apply name_char_good_start.
    + simpl in H64. lia.
  - intros [c [s [-> [Hc [Hs Hlen]]]]].
    destruct (letter_is_name_char c Hc) as [Hn Hb].
    assert (Hv : validNameRegex (String c s) = true).
    { unfold validNameRegex. simpl. now rewrite Hn, Hs. }
    unfold _validateCollectionName.
    change (truthy (VStr (String c s))) with true. cbn [negb].
    destruct (Nat.ltb_spec (String.length (String c s)) 1) as [H1|H1];
      [simpl in H1; lia|].
    destruct (Nat.ltb_spec 64 (String.length (String c s))) as [H64|H64];
      [simpl in H64; lia|].
    rewrite Hv. cbn [negb starts_badly]. rewrite Hb.
    now rewrite invalidPatterns_unreachable.
Qed.

(** A name that is rejected is rejected for one of four reasons: it is
    not a string or is empty, is too long, has a character outside the
    class, or starts with a digit, an underscore or a hyphen.  The check
    of the length against 1 and the loop over [invalidPatterns] reject
    nothing: what they test has been excluded before. *)
Theorem collection_name_rejections (name : option value) :
  _validateCollectionName name = Ok true
  \/ _validateCollectionName name = Throw (Error (not_a_string_message name))
  \/ exists s,
       name = Some (VStr s)
       /\ (_validateCollectionName name = Throw (Error (too_long_message s))
           \/ _validateCollectionName name = Throw (Error (invalid_name_message s))
           \/ _validateCollectionName name
              = Throw (Error "Collection name cannot start with a number, underscore or hyphen")).
Proof.
  destruct name as [[| | |s| |]|]; try (right; left; reflexivity).
  unfold _validateCollectionName.
  destruct s as [|c s]; [right; left; reflexivity|].
  change (truthy (VStr (String c s))) with true. cbn [negb].
  destruct (Nat.ltb_spec (String.length (String c s)) 1) as [H1|H1];
    [simpl in H1; lia|].
  destruct (Nat.ltb_spec 64 (String.length (String c s))) as [H64|H64];
    [right; right; eexists; split; [reflexivity|]; left; reflexivity|].
  destruct (validNameRegex (String c s)) eqn:Hv; cbn [negb];
    [|right; right; eexists; split; [reflexivity|]; right; left; reflexivity].
  destruct (starts_badly (String c s));
    [right; right; eexists; split; [reflexivity|]; right; right; reflexivity|].
  rewrite invalidPatterns_unreachable by exact Hv. left. reflexivity.
Qed.


(* ================================================================== *)
(** * The order of the fields in the saved file *)

Lemma leb_trans (a b c : string) :
  String.leb a b = true -> String.leb b c = true -> String.leb a c = true.
Proof.
  unfold String.leb. intros Hab Hbc.
  destruct (String.compare a b) eqn:Eab; try discriminate;
    destruct (String.compare b c) eqn:Ebc; try discriminate.
  - apply String.compare_eq_iff in Eab, Ebc. subst.
    pose proof (proj2 (String_as_OT.cmp_eq c c) eq_refl) as Hcc.
    unfold String_as_OT.cmp in Hcc. now rewrite Hcc.
  - apply String.compare_eq_iff in Eab. subst. now rewrite Ebc.
  - apply String.compare_eq_iff in Ebc. subst. now rewrite Eab.
  - apply String_as_OT.cmp_lt in Eab, Ebc.
    pose proof (String_as_OT.lt_trans _ _ _ Eab Ebc) as Hac.
    apply String_as_OT.cmp_lt in Hac. unfold String_as_OT.cmp in Hac.
    now rewrite Hac.
Qed.

Lemma In_insert_sorted (k x : string) (l : list string) :
  In x (insert_sorted k l) <-> x = k \/ In x l.
Proof.
  induction l as [|k' l IH]; simpl; [intuition congruence|].
  destruct (String.leb k k'); simpl; [intuition congruence|].
  rewrite IH. intuition congruence.
Qed.

Lemma In_sort_keys (x : string) (l : list string) :
  In x (sort_keys l) <-> In x l.
Proof.
  induction l as [|k l IH]; simpl; [tauto|].
  rewrite In_insert_sorted, IH. intuition congruence.
Qed.


Lemma sorted_insert (k : string) (l : list string) :
  sorted l -> sorted (insert_sorted k l).
Proof.
  induction l as [|k' l IH]; intros Hs; simpl; [tauto|].
  destruct Hs as [Hle Hs]. destruct (String.leb k k') eqn:E.
  - split; [|split; assumption].
    intros x [<-|Hin]; [exact E|]. eapply leb_trans; [exact E | now apply Hle].
  - split; [|now apply IH].
    intros x Hin. apply In_insert_sorted in Hin. destruct Hin as [->|Hin].
    + destruct (String.leb_total k k') as [H|H]; congruence.
    + now apply Hle.
Qed.

Lemma sorted_sort_keys (l : list string) : sorted (sort_keys l).
Proof.
  induction l as [|k l IH]; simpl; [exact I | now apply sorted_insert].
Qed.

Lemma insert_sorted_comm (a b : string) (l : list string) :
  sorted l ->
  insert_sorted a (insert_sorted b l) = insert_sorted b (insert_sorted a l).
Proof.
  induction l as [|k l IH]; intros Hs.
  - cbn [insert_sorted].
    destruct (String.leb a b) eqn:Eab, (String.leb b a) eqn:Eba;
      try reflexivity.
    + now rewrite (String.leb_antisym _ _ Eab Eba).
    + destruct (String.leb_total a b); congruence.
  - destruct Hs as [Hle Hs]. cbn [insert_sorted].
    destruct (String.leb b k) eqn:Ebk, (String.leb a k) eqn:Eak;
      cbn [insert_sorted]; rewrite ?Ebk, ?Eak.
    + destruct (String.leb a b) eqn:Eab, (String.leb b a) eqn:Eba;
        try reflexivity.
      * now rewrite (String.leb_antisym _ _ Eab Eba).
      * destruct (String.leb_total a b); congruence.
    + assert (Eab : String.leb a b = false).
      { destruct (String.leb a b) eqn:E; [|reflexivity].
        rewrite (leb_trans _ _ _ E Ebk) in Eak. discriminate. }
      now rewrite Eab.
    + assert (Eba : String.leb b a = false).
      { destruct (String.leb b a) eqn:E; [|reflexivity].
        rewrite (leb_trans _ _ _ E Eak) in Ebk. discriminate. }
      now rewrite Eba.
    + now rewrite IH.
Qed.

Lemma sort_keys_permutation (l1 l2 : list string) :
  Permutation l1 l2 -> sort_keys l1 = sort_keys l2.
Proof.
  induction 1 as [|x l l' _ IH|x y l|l l' l'' _ IH1 _ IH2]; simpl.
  - reflexivity.
  - now rewrite IH.
  - apply insert_sorted_comm, sorted_sort_keys.
  - congruence.
Qed.

Lemma lookup_copy_field (doc acc : document) (key k : string) :
  lookup k (copy_field doc acc key)
  = if key =? k then match lookup k doc with
                     | Some v => Some v
                     | None => lookup k acc
                     end
    else lookup k acc.
Proof.
  unfold copy_field. destruct (key =? k) eqn:E.
  - apply String.eqb_eq in E. subst key.
    destruct (lookup k doc) as [v|]; [|reflexivity].
    now rewrite lookup_obj_set, String.eqb_refl.
  - destruct (lookup key doc) as [v|]; [|reflexivity].
    now rewrite lookup_obj_set, E.
Qed.

Lemma lookup_copy_fields (doc : document) (k : string) (keys : list string) :
  forall acc,
    lookup k (fold_left (copy_field doc) keys acc)
    = if existsb (String.eqb k) keys
      then match lookup k doc with
           | Some v => Some v
           | None => lookup k acc
           end
      else lookup k acc.
Proof.
  induction keys as [|key keys IH]; intros acc; [reflexivity|].
  cbn [fold_left existsb]. rewrite IH, lookup_copy_field.
  rewrite (String.eqb_sym k key).
  destruct (key =? k), (existsb (String.eqb k) keys), (lookup k doc);
    reflexivity.
Qed.

Lemma lookup_None_iff (k : string) (fs : document) :
  lookup k fs = None <-> ~ In k (map fst fs).
Proof.
  split; [|apply lookup_not_in].
  induction fs as [|[k0 v0] fs IH]; simpl; [tauto|].
  destruct (k0 =? k) eqn:E; [discriminate|].
  apply String.eqb_neq in E. intros H [H0|H0]; [congruence | now apply IH].
Qed.

Lemma existsb_eqb_string (k : string) (l : list string) :
  existsb (String.eqb k) l = true <-> In k l.
Proof.
  rewrite existsb_exists. split.
  - intros [x [Hin E]]. apply String.eqb_eq in E. now subst.
  - intros Hin. exists k. split; [exact Hin | apply String.eqb_refl].
Qed.

(** X23.  Reordering loses nothing and changes nothing: every field of the
    document is in the reordered document with the same value, and the
    reordered document has no other field. *)
Theorem reorder_keeps_every_field (doc : document) (k : string) :
  lookup k (_reorderDocumentFields doc) = lookup k doc.
Proof.
  unfold _reorderDocumentFields.
  rewrite !lookup_copy_field, lookup_copy_fields, lookup_copy_field.
  cbn [lookup].
  set (normal := sort_keys _).
  destruct (lookup k doc) as [v|] eqn:Hk.
  - destruct ("updatedAt" =? k) eqn:E1; [reflexivity|].
    destruct ("createdAt" =? k) eqn:E2; [reflexivity|].
    destruct ("id" =? k) eqn:E3;
      [destruct (existsb (String.eqb k) normal); reflexivity|].
    assert (Hin : existsb (String.eqb k) normal = true).
    { apply existsb_eqb_string. subst normal. apply In_sort_keys.
      apply filter_In. split.
      - destruct (in_dec string_dec k (map fst doc)) as [H|H]; [exact H|].
        apply lookup_None_iff in H. congruence.
      - cbn [reservedFields existsb]. rewrite (String.eqb_sym k "id"), E3.
        rewrite (String.eqb_sym k "createdAt"), E2.
        rewrite (String.eqb_sym k "updatedAt"), E1. reflexivity. }
    now rewrite Hin.
  - destruct ("updatedAt" =? k), ("createdAt" =? k), ("id" =? k),
      (existsb (String.eqb k) normal); reflexivity.
Qed.

Lemma lookup_permutation (d1 d2 : document) (k : string) :
  keys_distinct d1 -> Permutation d1 d2 -> lookup k d1 = lookup k d2.
Proof.
  intros Hnd Hp.
  assert (Hnd2 : keys_distinct d2).
  { unfold keys_distinct in *. eapply Permutation_NoDup; [|exact Hnd].
    now apply Permutation_map. }
  assert (Hfun : forall d, keys_distinct d -> forall v,
             lookup k d = Some v <-> In (k, v) d).
  { clear. intros d. induction d as [|[k0 v0] d IH]; intros Hnd v; simpl.
    - split; [discriminate | tauto].
    - inversion Hnd as [|? ? Hnotin Hnd']; subst.
      destruct (k0 =? k) eqn:E.
      + apply String.eqb_eq in E. subst k0. split.
        * intros [= ->]. now left.
        * intros [[= ->]|Hin]; [reflexivity|]. exfalso. apply Hnotin.
          apply in_map_iff. exists (k, v). tauto.
      + rewrite IH by exact Hnd'. apply String.eqb_neq in E.
        split; [tauto|]. intros [[= -> _]|H]; [congruence | exact H]. }
  destruct (lookup k d1) as [v|] eqn:H1.
  - symmetry. apply Hfun; [exact Hnd2|].
    eapply Permutation_in; [exact Hp|]. now apply Hfun.
  - destruct (lookup k d2) as [v|] eqn:H2; [|reflexivity].
    apply Hfun in H2; [|exact Hnd2].
    apply Permutation_sym in Hp. apply (Permutation_in _ Hp) in H2.
    apply Hfun in H2; [congruence | exact Hnd].
Qed.

Lemma permutation_filter {A} (p : A -> bool) (l1 l2 : list A) :
  Permutation l1 l2 -> Permutation (filter p l1) (filter p l2).
Proof.
  induction 1 as [|x l l' _ IH|x y l|l l' l'' _ IH1 _ IH2]; simpl.
  - constructor.
  - destruct (p x); [now constructor | exact IH].
  - destruct (p x), (p y); try apply Permutation_refl. apply perm_swap.
  - eapply Permutation_trans; eassumption.
Qed.

Lemma insert_sorted_permutation (k : string) (l : list string) :
  Permutation (insert_sorted k l) (k :: l).
Proof.
  induction l as [|x l IH]; simpl; [apply Permutation_refl|].
  destruct (String.leb k x); [apply Permutation_refl|].
  eapply Permutation_trans; [apply perm_skip, IH | apply perm_swap].
Qed.

Lemma sort_keys_is_permutation (l : list string) : Permutation (sort_keys l) l.
Proof.
  induction l as [|k l IH]; simpl; [apply Permutation_refl|].
  eapply Permutation_trans; [apply insert_sorted_permutation|].
  now apply perm_skip.
Qed.

Lemma keys_copy_field_new (doc acc : document) (key : string) (v : value) :
  lookup key doc = Some v -> ~ In key (map fst acc) ->
  map fst (copy_field doc acc key) = map fst acc ++ [key].
Proof.
  intros Hv Hnew. unfold copy_field. rewrite Hv, keys_obj_set.
  destruct (existsb (String.eqb key) (map fst acc)) eqn:E; [|reflexivity].
  apply existsb_exists in E. destruct E as [x [Hin Hx]].
  apply String.eqb_eq in Hx. subst x. contradiction.
Qed.

Lemma keys_copy_field_own (doc acc : document) (key : string) :
  ~ In key (map fst acc) ->
  map fst (copy_field doc acc key) = map fst acc ++ own_key key doc.
Proof.
  intros Hnew. unfold own_key.
  destruct (lookup key doc) as [v|] eqn:Hv.
  - now apply keys_copy_field_new with (v := v).
  - unfold copy_field. rewrite Hv. now rewrite app_nil_r.
Qed.

Lemma keys_copy_fields (doc : document) (keys : list string) :
  forall acc,
    NoDup keys ->
    (forall k, In k keys -> In k (map fst doc)) ->
    (forall k, In k keys -> ~ In k (map fst acc)) ->
    map fst (fold_left (copy_field doc) keys acc) = map fst acc ++ keys.
Proof.
  induction keys as [|key keys IH]; intros acc Hnd Hin Hnew.
  - now rewrite app_nil_r.
  - inversion Hnd as [|? ? Hk Hnd']; subst. cbn [fold_left].
    destruct (lookup key doc) as [v|] eqn:Hv.
    + rewrite IH.
      * rewrite (keys_copy_field_new doc acc key Hv) by (apply Hnew; now left).
        now rewrite <- app_assoc.
      * exact Hnd'.
      * intros k Hk'. apply Hin. now right.
      * intros k Hk'.
        rewrite (keys_copy_field_new doc acc key Hv) by (apply Hnew; now left).
        rewrite in_app_iff. intros [H|[<-|[]]].
        -- exact (Hnew k (or_intror Hk') H).
        -- contradiction.
    + exfalso. apply lookup_None_iff in Hv. apply Hv, Hin. now left.
Qed.

Lemma In_own_key (k key : string) (d : document) :
  In k (own_key key d) -> k = key.
Proof.
  unfold own_key. destruct (lookup key d); simpl; [|tauto].
  intros [<-|[]]. reflexivity.
Qed.

(** The order of the fields of the reordered document *)
Lemma reorder_keys (d : document) :
  keys_distinct d ->
  exists normal,
    map fst (_reorderDocumentFields d)
    = own_key "id" d ++ normal ++ own_key "createdAt" d ++ own_key "updatedAt" d
    /\ sorted normal
    /\ forall k, In k normal <-> (In k (map fst d) /\ ~ In k reservedFields).
Proof.
  intros Hnd.
  set (normal := sort_keys
                   (filter (fun key => negb (existsb (String.eqb key) reservedFields))
                           (map fst d))).
  assert (Hmem : forall k, In k normal <-> (In k (map fst d) /\ ~ In k reservedFields)).
  { intros k. unfold normal. rewrite In_sort_keys, filter_In, negb_true_iff.
    split; intros [H1 H2]; (split; [exact H1|]).
    - intros Hr. rewrite <- existsb_eqb_string in Hr. congruence.
    - destruct (existsb (String.eqb k) reservedFields) eqn:E; [|reflexivity].
      rewrite existsb_eqb_string in E. contradiction. }
  assert (Hndn : NoDup normal).
  { unfold normal.
    eapply Permutation_NoDup;
      [apply Permutation_sym, sort_keys_is_permutation|].
    apply NoDup_filter. exact Hnd. }
  exists normal. split; [|split; [apply sorted_sort_keys | exact Hmem]].
  unfold _reorderDocumentFields. fold normal.
  assert (H0 : map fst (copy_field d [] "id") = own_key "id" d).
  { rewrite keys_copy_field_own by (simpl; tauto). reflexivity. }
  assert (H1 : map fst (fold_left (copy_field d) normal (copy_field d [] "id"))
               = own_key "id" d ++ normal).
  { rewrite keys_copy_fields.
    - now rewrite H0.
    - exact Hndn.
    - intros k Hk. now apply Hmem.
    - intros k Hk. rewrite H0. intros Hin. apply In_own_key in Hin. subst k.
      apply Hmem in Hk. destruct Hk as [_ Hk]. apply Hk. simpl. tauto. }
  assert (H2 : map fst (copy_field d
                          (fold_left (copy_field d) normal (copy_field d [] "id"))
                          "createdAt")
               = own_key "id" d ++ normal ++ own_key "createdAt" d).
  { rewrite keys_copy_field_own.
    - rewrite H1. now rewrite <- app_assoc.
    - rewrite H1, in_app_iff. intros [Hin|Hin].
      + apply In_own_key in Hin. discriminate.
      + apply Hmem in Hin. destruct Hin as [_ Hk]. apply Hk. simpl. tauto. }
  rewrite keys_copy_field_own.
  - rewrite H2. now rewrite <- !app_assoc.
  - rewrite H2, !in_app_iff. intros [Hin|[Hin|Hin]].
    + apply In_own_key in Hin. discriminate.
    + apply Hmem in Hin. destruct Hin as [_ Hk]. apply Hk. simpl. tauto.
    + apply In_own_key in Hin. discriminate.
Qed.

(** X24.  The reordered document is a canonical form: two documents with the
    same fields, whatever the order in which the fields were set, are
    reordered to the same document.  When no key reads as an array index
    (such keys an object lists first), the order is: [id], then the other
    fields sorted by their names, then [createdAt] and [updatedAt]. *)
Theorem reorder_is_canonical (d1 d2 : document) :
  keys_distinct d1 -> Permutation d1 d2 ->
  _reorderDocumentFields d1 = _reorderDocumentFields d2
  /\ ((forall k, In k (map fst d1) -> canonical_index k = None) ->
      exists normal,
        map fst (_reorderDocumentFields d1)
        = own_key "id" d1 ++ normal
          ++ own_key "createdAt" d1 ++ own_key "updatedAt" d1
        /\ sorted normal
        /\ forall k, In k normal <-> (In k (map fst d1) /\ ~ In k reservedFields)).
Proof.
  intros Hnd Hp. split.
  - assert (Hl : forall k, lookup k d1 = lookup k d2)
      by (intros k; now apply lookup_permutation).
    assert (Hcopy : forall acc key, copy_field d1 acc key = copy_field d2 acc key)
      by (intros acc key; unfold copy_field; now rewrite Hl).
    unfold _reorderDocumentFields.
    rewrite (sort_keys_permutation
               (permutation_filter _ (Permutation_map fst Hp))).
    rewrite !Hcopy. f_equal.
    generalize (copy_field d2 [] "id").
    induction (sort_keys _) as [|key keys IH]; intros acc; [reflexivity|].
    cbn [fold_left]. now rewrite Hcopy, IH.
  - intros _. now apply reorder_keys.
Qed.


(* ================================================================== *)
(** * createIndex builds a consistent index *)


Lemma index_entries_cons (k : value) (child : index_node)
      (cs : list (value * index_node)) :
  index_entries (Level ((k, child) :: cs))
  = tag k (index_entries child) ++ index_entries (Level cs).
Proof. reflexivity. Qed.

Lemma shaped_cons (n : nat) (k : value) (c : index_node)
      (cs : list (value * index_node)) :
  shaped (S n) (Level ((k, c) :: cs)) <-> shaped n c /\ shaped (S n) (Level cs).
Proof. reflexivity. Qed.

Lemma shaped_map_get (n : nat) (v : value) (cs : list (value * index_node))
      (c : index_node) :
  shaped (S n) (Level cs) -> map_get v cs = Some c -> shaped n c.
Proof.
  induction cs as [|[k0 c0] cs IH]; [intros _ H; discriminate|].
  rewrite shaped_cons. intros [H0 Hcs]. cbn [map_get].
  destruct (strict_eq k0 v); [now intros [= <-] | now apply IH].
Qed.

Lemma shaped_map_set (n : nat) (v : value) (cs : list (value * index_node))
      (c : index_node) :
  shaped (S n) (Level cs) -> shaped n c -> shaped (S n) (Level (map_set v c cs)).
Proof.
  induction cs as [|[k0 c0] cs IH]; intros Hcs Hc.
  - cbn [map_set]. apply shaped_cons. split; [exact Hc | exact I].
  - destruct (proj1 (shaped_cons _ _ _ _) Hcs) as [H0 Hcs']. cbn [map_set].
    destruct (strict_eq k0 v); apply shaped_cons; split; auto.
Qed.

(** Replacing the child under [v] (or adding one) changes the entries
    under [v] only. *)
Lemma entries_map_set (v : value) (cs : list (value * index_node))
      (child' : index_node) (X : list (list value * nat)) :
  Permutation (index_entries child')
              (X ++ match map_get v cs with
                    | Some c => index_entries c
                    | None => []
                    end) ->
  Permutation (index_entries (Level (map_set v child' cs)))
              (tag v X ++ index_entries (Level cs)).
Proof.
  induction cs as [|[k0 c0] cs IH]; intros Hp.
  - cbn [map_get map_set] in *. rewrite index_entries_cons.
    apply Permutation_app_tail. unfold tag. apply Permutation_map.
    now rewrite app_nil_r in Hp.
  - cbn [map_get map_set] in *. destruct (strict_eq k0 v) eqn:E.
    + apply strict_eq_true_iff in E. destruct E as [-> _].
      rewrite !index_entries_cons, app_assoc.
      apply Permutation_app_tail. unfold tag. rewrite <- map_app.
      now apply Permutation_map.
    + rewrite !index_entries_cons.
      eapply Permutation_trans;
        [apply Permutation_app_head; apply IH; exact Hp|].
      rewrite !app_assoc. apply Permutation_app_tail. apply Permutation_app_comm.
Qed.

Lemma all_some_map_Some {A} (l : list (option A)) (ks : list A) :
  all_some l = Some ks <-> l = map Some ks.
Proof.
  revert ks. induction l as [|[x|] l IH]; intros ks; simpl.
  - split; [intros [= <-]; reflexivity | destruct ks; [reflexivity | discriminate]].
  - destruct (all_some l) as [ks'|] eqn:E; simpl.
    + split.
      * intros [= <-]. simpl. f_equal. now apply IH.
      * destruct ks as [|k ks]; [discriminate|]. simpl. intros [= -> H].
        apply IH in H. now injection H as ->.
    + split; [discriminate|]. destruct ks as [|k ks]; [discriminate|].
      simpl. intros [= -> H]. apply IH in H. discriminate.
  - split; [discriminate|]. destruct ks; discriminate.
Qed.

(** The walk of one document into an index of the right shape: it does
    not throw, keeps the shape, and files the document under its key
    tuple when it has every field, and not at all otherwise. *)
Lemma index_add_spec (docIdx : nat) (keys : list (option value)) :
  forall node,
    shaped (length keys) node ->
    exists node' completed,
      index_add node keys docIdx = ((node', completed), None)
      /\ shaped (length keys) node'
      /\ Permutation (index_entries node')
           (match all_some keys with
            | Some ks => [(ks, docIdx)]
            | None => []
            end ++ index_entries node).
Proof.
  induction keys as [|[v|] keys IH]; intros node Hshape.
  - destruct node as [ps|cs]; [|destruct Hshape].
    exists (Positions (ps ++ [docIdx])), true. split; [reflexivity|].
    split; [reflexivity|]. cbn [all_some index_entries].
    rewrite map_app. cbn [map app]. apply Permutation_sym, Permutation_cons_append.
  - destruct node as [ps|cs]; [discriminate|]. cbn [length] in Hshape.
    cbn [index_add].
    set (child := match map_get v cs with
                  | Some c => c
                  | None => match keys with
                            | [] => Positions []
                            | _ :: _ => Level []
                            end
                  end).
    assert (Hchild : shaped (length keys) child).
    { subst child. destruct (map_get v cs) as [c|] eqn:Hget.
      - eapply shaped_map_get; eassumption.
      - destruct keys; [reflexivity | exact I]. }
    assert (Hentries : index_entries child
                       = match map_get v cs with
                         | Some c => index_entries c
                         | None => []
                         end).
    { subst child. destruct (map_get v cs); [reflexivity|].
      destruct keys; reflexivity. }
    destruct (IH child Hchild) as [child' [completed [Hadd [Hshape' Hperm]]]].
    rewrite Hadd. exists (Level (map_set v child' cs)), completed.
    split; [reflexivity|]. split; [now apply shaped_map_set|].
    cbn [all_some]. rewrite Hentries in Hperm.
    apply entries_map_set in Hperm.
    destruct (all_some keys) as [ks|]; exact Hperm.
  - exists node, false. split; [reflexivity|]. split; [exact Hshape|].
    apply Permutation_refl.
Qed.

Lemma index_scan_spec (fields : list string) (hp : list document)
      (l : list handle) :
  forall idx node,
    shaped (length fields) node ->
    exists node',
      index_scan fields hp l idx node = (node', None)
      /\ shaped (length fields) node'
      /\ Permutation (index_entries node')
                     (filed fields hp l idx ++ index_entries node).
Proof.
  induction l as [|h l IH]; intros idx node Hshape.
  - exists node. split; [reflexivity|]. split; [exact Hshape|].
    apply Permutation_refl.
  - cbn [index_scan filed].
    assert (Hlen : length (doc_keys (deref hp h) fields) = length fields)
      by (unfold doc_keys; apply length_map).
    rewrite <- Hlen in Hshape.
    destruct (index_add_spec idx _ _ Hshape)
      as [node1 [completed [Hadd [Hshape1 Hperm1]]]].
    rewrite Hadd. rewrite Hlen in Hshape1.
    destruct (IH (S idx) node1 Hshape1) as [node' [Hscan [Hshape' Hperm']]].
    exists node'. split; [exact Hscan|]. split; [exact Hshape'|].
    eapply Permutation_trans; [exact Hperm'|].
    eapply Permutation_trans;
      [apply Permutation_app_head; exact Hperm1|].
    rewrite !app_assoc. apply Permutation_app_tail. apply Permutation_app_comm.
Qed.

Lemma In_filed (fields : list string) (hp : list document) (l : list handle)
      (ks : list value) (p : nat) :
  forall idx,
    In (ks, p) (filed fields hp l idx)
    <-> exists j h, p = idx + j /\ nth_error l j = Some h
                    /\ doc_keys (deref hp h) fields = map Some ks.
Proof.
  induction l as [|h l IH]; intros idx; cbn [filed].
  - split; [intros [] | intros [[|j] [h [_ [H _]]]]; discriminate].
  - rewrite in_app_iff, IH. split.
    + intros [Hin | [j [h' [-> [Hn Hk]]]]].
      * destruct (all_some (doc_keys (deref hp h) fields)) as [ks'|] eqn:E;
          [|destruct Hin].
        destruct Hin as [[= <- <-]|[]]. exists 0, h.
        split; [lia|]. split; [reflexivity|]. now apply all_some_map_Some.
      * exists (S j), h'. split; [lia|]. split; assumption.
    + intros [[|j] [h' [-> [Hn Hk]]]].
      * left. injection Hn as <-. apply all_some_map_Some in Hk.
        rewrite Hk, Nat.add_0_r. now left.
      * right. exists j, h'. split; [lia|]. split; assumption.
Qed.

Lemma NoDup_filed (fields : list string) (hp : list document) (l : list handle) :
  forall idx, NoDup (filed fields hp l idx).
Proof.
  induction l as [|h l IH]; intros idx; cbn [filed]; [constructor|].
  destruct (all_some (doc_keys (deref hp h) fields)) as [ks|]; [|apply IH].
  cbn [app]. constructor; [|apply IH].
  intros Hin. apply In_filed in Hin. destruct Hin as [j [h' [Hp _]]]. lia.
Qed.

Lemma nth_error_unique {A} (l : list A) (x : A) :
  NoDup l -> In x l ->
  exists n, nth_error l n = Some x
            /\ forall m, nth_error l m = Some x -> m = n.
Proof.
  intros Hnd Hin. apply In_nth_error in Hin. destruct Hin as [n Hn].
  exists n. split; [exact Hn|]. intros m Hm.
  rewrite NoDup_nth_error in Hnd. symmetry. apply Hnd; [|congruence].
  apply nth_error_Some. congruence.
Qed.

(** X25.  createIndex builds an index that is consistent with the collection:
    every document that has all the fields of the index is filed exactly
    once, under its key tuple and at its position, and the index has no
    other entry; the documents are left as they were; and the same
    definition is refused with code 409 from then on. *)
Theorem createIndex_builds_a_consistent_index
        (a a' : adapter) (indexDef report : value) :
  createIndex a indexDef = (a', envelope true report VNull) ->
  a'.(heap) = a.(heap)
  /\ a'.(col).(data) = a.(col).(data)
  /\ (exists name ix,
         a'.(col).(indexes) = a.(col).(indexes) ++ [(name, ix)]
         /\ index_consistent a' ix)
  /\ createIndex a' indexDef
     = (a', envelope false VNull (error_info "Index already exists" 409)).
Proof.
  intros H. unfold createIndex in H.
  assert (Hmain :
    indexDef <> VNull ->
    (let entries := own_entries indexDef in
     let fields := map fst entries in
     let orders := map snd entries in
     if (length fields =? 0)%nat then
       (a, envelope false VNull (error_info "Index definition cannot be empty" 400))
     else if negb (forallb is_order orders) then
       (a, envelope false VNull (error_info "Index order must be 1 or -1" 400))
     else if existsb (fun e => fst e =? indexKey entries) (indexes (col a)) then
       (a, envelope false VNull (error_info "Index already exists" 409))
     else
       match index_scan fields (heap a) (data (col a)) 0 (Level []) with
       | (_, Some e) => (a, failure e "Failed to create index" 500)
       | (m, None) =>
           let ix := {| ix_fields := fields; ix_orders := orders; ix_map := m |} in
           (with_col a (set_indexes (col a) (indexes (col a) ++ [(indexKey entries, ix)])),
            envelope true
              (VObj [("fields", VArr (map VStr fields));
                     ("orders", VArr orders);
                     ("size", VNum (Z.of_nat (node_size m)))])
              VNull)
       end) = (a', envelope true report VNull) ->
    heap a' = heap a
    /\ data (col a') = data (col a)
    /\ (exists name ix,
           indexes (col a') = indexes (col a) ++ [(name, ix)]
           /\ index_consistent a' ix)
    /\ createIndex a' indexDef
       = (a', envelope false VNull (error_info "Index already exists" 409))).
  { clear H. intros Hnull. cbv zeta.
    set (entries := own_entries indexDef).
    destruct (length (map fst entries) =? 0)%nat eqn:Hlen; [discriminate|].
    destruct (forallb is_order (map snd entries)) eqn:Hord; [|discriminate].
    cbn [negb].
    destruct (existsb (fun e => fst e =? indexKey entries) (indexes (col a)));
      [discriminate|].
    assert (Hshape : shaped (length (map fst entries)) (Level [])).
    { destruct (length (map fst entries)); [discriminate | exact I]. }
    destruct (index_scan_spec (map fst entries) (heap a) (data (col a)) 0 _ Hshape)
      as [m [Hscan [_ Hperm]]].
    rewrite Hscan. intros [= <- _]. cbn [heap col data indexes with_col set_indexes].
    split; [reflexivity|]. split; [reflexivity|]. split.
    - eexists _, _. split; [reflexivity|].
      cbn [index_entries app] in Hperm. rewrite app_nil_r in Hperm.
      unfold index_consistent. cbn [ix_map ix_fields]. split.
      + intros i d ks Hd Hk. apply doc_at_Some in Hd.
        destruct Hd as [h [Hn ->]]. cbn [heap col data with_col set_indexes] in *.
        apply nth_error_unique.
        * eapply Permutation_NoDup;
            [apply Permutation_sym; exact Hperm | apply NoDup_filed].
        * eapply Permutation_in; [apply Permutation_sym; exact Hperm|].
          apply In_filed. exists i, h. auto.
      + intros ks p Hin. apply (Permutation_in _ Hperm) in Hin.
        apply In_filed in Hin. destruct Hin as [j [h [-> [Hn Hk]]]].
        exists (deref (heap a) h). split; [|exact Hk].
        apply doc_at_Some. exists h. auto.
    - unfold createIndex. destruct indexDef; try contradiction;
        fold entries; rewrite Hlen, Hord; cbn [negb];
        cbn [col indexes with_col set_indexes];
        rewrite existsb_app; cbn [existsb fst];
        rewrite String.eqb_refl, orb_true_r; reflexivity. }
  destruct indexDef; try (apply Hmain; [discriminate | exact H]).
  discriminate.
Qed.

(* ------------------------------------------------------------------ *)
(** ** updateById *)

Section UpdateById.
Context {rt : JsRuntime}.

Lemma findIndex_id_none_docs (a : adapter) (id : value) :
  (forall i d, doc_at a i = Some d -> lookup "id" d <> Some id) ->
  findIndex_id a.(heap) id a.(col).(data) 0 = None.
Proof.
  intros Hnone. apply findIndex_id_none. intros Hin.
  apply In_defined_ids in Hin. destruct Hin as [h [Hin Hid]].
  apply In_nth_error in Hin. destruct Hin as [i Hi].
  apply (Hnone i (deref (heap a) h)); [|exact Hid].
  apply doc_at_Some. eauto.
Qed.

(** X26.  updateById applies the update to the document that has the id and
    to no other, and answers with it; when no document has the id it
    answers 404 and changes nothing.  Stated for an update that stores
    scalars under plain field names. *)
Theorem updateById_changes_the_document
        (now : string) (a : adapter) (id : value) (ops : option value)
        (returnType : string) :
  well_formed a -> NoDup a.(col).(data) ->
  (forall u, ops = Some u -> simple_update u = true) ->
  (forall i d d',
      doc_at a i = Some d -> lookup "id" d = Some id ->
      applyUpdateToDoc now d ops = (d', None) ->
      let a' := fst (updateById now a id ops returnType) in
      doc_at a' i = Some d'
      /\ (forall j, j <> i -> doc_at a' j = doc_at a j)
      /\ snd (updateById now a id ops returnType)
         = envelope true
             (VObj ([("updatedCount", VNum 1); ("updatedId", id)]
                    ++ (if returnType =? "document"
                        then [("document", VObj d')] else [])))
             VNull)
  /\ ((forall i d, doc_at a i = Some d -> lookup "id" d <> Some id) ->
      updateById now a id ops returnType
      = (a, envelope false VNull (error_info "Document not found" 404))).
Proof.
  intros Hwf Hnd Hsimple. pose proof Hwf as [Hvalid [Hex1 Hex2]]. split.
  - intros i d d' Hd Hid Happ a'. subst a'. unfold updateById.
    rewrite (Hex1 i d id Hd Hid).
    apply doc_at_Some in Hd. destruct Hd as [h [Hn ->]].
    rewrite Hn, Happ. cbn [fst snd].
    assert (Hh : h < length (heap a))
      by (apply Hvalid; eapply nth_error_In; exact Hn).
    split; [|split; [|reflexivity]].
    + apply doc_at_Some. exists h. cbn [col heap data with_col with_heap mark_dirty].
      split; [exact Hn|]. unfold deref. now rewrite nth_list_set_same.
    + intros j Hj. unfold doc_at.
      cbn [col heap data with_col with_heap mark_dirty].
      destruct (nth_error (data (col a)) j) as [h'|] eqn:Hn'; [|reflexivity].
      cbn [option_map]. f_equal. unfold deref. apply nth_list_set_other.
      intros ->. apply Hj. rewrite NoDup_nth_error in Hnd. apply Hnd; [|congruence].
      apply nth_error_Some. congruence.
  - intros Hnone. unfold updateById.
    destruct (map_get id (idIndex (col a))) as [i|] eqn:Hget.
    + apply map_get_In in Hget. destruct (Hex2 _ _ Hget) as [d [Hd Hid]].
      exfalso. exact (Hnone i d Hd Hid).
    + now rewrite findIndex_id_none_docs.
Qed.
End UpdateById.

(* ------------------------------------------------------------------ *)
(** ** Instances *)

Lemma reorder_is_canonical_witness :
  let d := [("name", VStr "n"); ("id", VStr "a"); ("age", VNum 3)] in
  _reorderDocumentFields d
  = _reorderDocumentFields
      [("id", VStr "a"); ("age", VNum 3); ("name", VStr "n")]
  /\ exists normal,
       map fst (_reorderDocumentFields d)
       = own_key "id" d ++ normal ++ own_key "createdAt" d ++ own_key "updatedAt" d
       /\ sorted normal
       /\ forall k, In k normal <-> (In k (map fst d) /\ ~ In k reservedFields).
Proof.
  cbv zeta.
  pose proof (@reorder_is_canonical
                [("name", VStr "n"); ("id", VStr "a"); ("age", VNum 3)]
                [("id", VStr "a"); ("age", VNum 3); ("name", VStr "n")]) as H.
  destruct H as [Hsame Horder].
  - repeat constructor; simpl; intuition discriminate.
  - apply Permutation_sym.
    apply (Permutation_cons_app [("name", VStr "n")] [("age", VNum 3)]
             ("id", VStr "a")).
    apply (Permutation_cons_app [("name", VStr "n")] [] ("age", VNum 3)).
    apply Permutation_refl.
  - split; [exact Hsame|]. apply Horder.
    intros k [<-|[<-|[<-|[]]]]; reflexivity.
Defined.

Lemma createIndex_builds_a_consistent_index_witness :
  let a := three_documents in
  let indexDef := VObj [("x", VNum 1)] in
  let a' := fst (createIndex a indexDef) in
  a'.(heap) = a.(heap)
  /\ a'.(col).(data) = a.(col).(data)
  /\ (exists name ix,
         a'.(col).(indexes) = a.(col).(indexes) ++ [(name, ix)]
         /\ index_consistent a' ix)
  /\ createIndex a' indexDef
     = (a', envelope false VNull (error_info "Index already exists" 409)).
Proof.
  cbv zeta.
  apply (@createIndex_builds_a_consistent_index three_documents
           (fst (createIndex three_documents (VObj [("x", VNum 1)])))
           (VObj [("x", VNum 1)])
           (VObj [("fields", VArr [VStr "x"]); ("orders", VArr [VNum 1]);
                  ("size", VNum 2)])).
  reflexivity.
Defined.

Lemma updateById_changes_the_document_witness :
  let a := three_documents in
  let ops := Some (VObj [("$set", VObj [("x", VNum 3)])]) in
  let d' := [("id", VStr "b"); ("x", VNum 3);
             ("createdAt", VStr "t0"); ("updatedAt", VStr "t1")] in
  let a' := fst (updateById (rt := example_runtime) "t1" a (VStr "b") ops "document") in
  (doc_at a' 1 = Some d'
   /\ (forall j, j <> 1 -> doc_at a' j = doc_at a j)
   /\ snd (updateById (rt := example_runtime) "t1" a (VStr "b") ops "document")
      = envelope true
          (VObj [("updatedCount", VNum 1); ("updatedId", VStr "b");
                 ("document", VObj d')])
          VNull)
  /\ updateById (rt := example_runtime) "t1" a (VStr "z") ops "document"
     = (a, envelope false VNull (error_info "Document not found" 404)).
Proof.
  cbv zeta.
  pose proof (@updateById_changes_the_document example_runtime "t1"
                three_documents) as H.
  split.
  - apply (proj1 (H (VStr "b")
                    (Some (VObj [("$set", VObj [("x", VNum 3)])])) "document"
                    (proj1 three_documents_sound)
                    ltac:(repeat constructor; simpl; intuition discriminate)
                    ltac:(intros u [= <-]; reflexivity))
                 1
                 [("id", VStr "b"); ("x", VNum 2); ("createdAt", VStr "t0")]
                 [("id", VStr "b"); ("x", VNum 3);
                  ("createdAt", VStr "t0"); ("updatedAt", VStr "t1")]);
      reflexivity.
  - apply (proj2 (H (VStr "z")
                    (Some (VObj [("$set", VObj [("x", VNum 3)])])) "document"
                    (proj1 three_documents_sound)
                    ltac:(repeat constructor; simpl; intuition discriminate)
                    ltac:(intros u [= <-]; reflexivity))).
    intros [|[|[|[|i]]]] d Hd; try discriminate Hd;
      injection Hd as <-; discriminate.
Defined.

(* ================================================================== *)
(** * Skip, limit and pages *)

Lemma firstn_plus {A} (n m : nat) (l : list A) :
  firstn (n + m) l = firstn n l ++ firstn m (skipn n l).
Proof.
  revert l. induction n as [|n IH]; intros l; [reflexivity|].
  destruct l as [|x l]; simpl.
  - now rewrite firstn_nil.
  - now rewrite IH.
Qed.

Lemma pages_concat {A} (size k : nat) (l : list A) :
  concat (map (fun p => page_slice size p l) (seq 1 k)) = firstn (k * size) l.
Proof.
  induction k as [|k IH]; [reflexivity|].
  rewrite seq_S, map_app, concat_app, IH. cbn [map concat].
  rewrite app_nil_r. unfold page_slice.
  replace (1 + k - 1) with k by lia.
  replace (S k * size) with (k * size + size) by lia.
  now rewrite firstn_plus.
Qed.

Lemma ceil_div_covers (n size : Z) :
  (0 < size)%Z -> (n <= ceil_div n size * size)%Z.
Proof.
  intros Hs. unfold ceil_div.
  pose proof (Z.div_mod (n + size - 1) size ltac:(lia)) as Hdm.
  pose proof (Z.mod_pos_bound (n + size - 1) size Hs) as Hb.
  nia.
Qed.

Lemma ceil_div_pos (n size : Z) :
  (0 < size)%Z -> (0 < n)%Z -> (0 < ceil_div n size)%Z.
Proof.
  intros Hs Hn. unfold ceil_div.
  apply Z.div_str_pos. lia.
Qed.

Lemma page_param_pos (x : option Z) (fallback : Z) :
  (1 <= page_param x fallback)%Z.
Proof. unfold page_param. lia. Qed.

Lemma page_slice_map {A B} (f : A -> B) (size p : nat) (l : list A) :
  page_slice size p (map f l) = map f (page_slice size p l).
Proof. unfold page_slice. now rewrite skipn_map, firstn_map. Qed.

Section PagingFacts.
Context {rt : JsRuntime}.

Lemma find_success_inv (a a1 : adapter) (filters : value)
      (docs : list value) (n : nat) :
  find a filters = (a1, find_envelope true (VArr docs) n VNull) ->
  check_filters filters = Ok tt
  /\ validateFilter filters = Ok tt
  /\ exists r,
       applyFilters a a.(col).(data) filters = (a1, Ok r)
       /\ docs = map (fun h => VObj (deref a1.(heap) h)) r
       /\ n = length r
       /\ n <> 0.
Proof.
  unfold find. intros H.
  destruct (check_filters filters) as [[]|e]; [|discriminate].
  destruct (validateFilter filters) as [[]|e]; [|discriminate].
  destruct (applyFilters a (data (col a)) filters) as [a' [r|e]];
    [|discriminate].
  destruct (length r =? 0)%nat eqn:Hz; [discriminate|].
  apply Nat.eqb_neq in Hz.
  unfold find_envelope in H.
  injection H as Ha Hdocs Hn. apply Nat2Z.inj in Hn. subst a'.
  repeat split; trivial. exists r. repeat split; congruence.
Qed.

Lemma modelled_Some (bound n : Z) :
  (Z.abs n <= bound)%Z -> modelled bound (Some n) = true.
Proof. intros H. now apply Z.leb_le. Qed.

Lemma find_with_success
      (a a1 : adapter) (filters : value) (docs : list value) (n : nat)
      (skip limit : Z) :
  find a filters = (a1, find_envelope true (VArr docs) n VNull) ->
  (0 <= skip <= 2 ^ 52)%Z -> (0 <= limit <= 2 ^ 52)%Z ->
  exists pagination,
    find_with a filters (Some skip) (Some limit)
    = Some (a1, VObj ([("success", VBool true);
                       ("data", VArr (if (limit =? 0)%Z
                                      then skipn (Z.to_nat skip) docs
                                      else firstn (Z.to_nat limit)
                                             (skipn (Z.to_nat skip) docs)));
                       ("total", VNum (Z.of_nat n));
                       ("error", VNull)] ++ pagination)).
Proof.
  intros H Hs Hl.
  apply find_success_inv in H.
  destruct H as [Hc [Hv [r [Hr [-> [-> Hn]]]]]].
  apply Nat.eqb_neq in Hn.
  unfold find_with.
  rewrite !modelled_Some by lia. cbn [andb negb].
  rewrite Hc, Hv, Hr.
  unfold skip_stage, limit_stage. cbn [truthy bind].
  destruct (Z.eqb_spec skip 0) as [->|Hs0]; cbn [negb bind].
  - destruct (Z.eqb_spec limit 0) as [->|Hl0]; cbn [negb bind].
    + rewrite Hn. eexists. reflexivity.
    + destruct (Z.ltb_spec limit 0) as [?|_]; [lia|]. rewrite Hn.
      eexists. cbn [Z.to_nat skipn]. rewrite firstn_map. reflexivity.
  - destruct (Z.ltb_spec skip 0) as [?|_]; [lia|]. cbn [bind].
    destruct (Z.eqb_spec limit 0) as [->|Hl0]; cbn [negb bind].
    + rewrite Hn. eexists. rewrite skipn_map. reflexivity.
    + destruct (Z.ltb_spec limit 0) as [?|_]; [lia|]. rewrite Hn.
      eexists. rewrite skipn_map, firstn_map. reflexivity.
Qed.

(** X27.  find with skip and limit returns the slice of what find returns
    without them: [skip] documents are left out at the front and at most
    [limit] are returned, a limit of 0 being no limit; [total] stays the
    number of all the documents that match.  A negative skip or limit is
    answered with code 500.  Stated for a skip and a limit of magnitude
    at most 2^52. *)
Theorem find_with_returns_the_slice
        (a a1 : adapter) (filters : value) (docs : list value) (n : nat)
        (skip limit : Z) :
  find a filters = (a1, find_envelope true (VArr docs) n VNull) ->
  (Z.abs skip <= 2 ^ 52)%Z -> (Z.abs limit <= 2 ^ 52)%Z ->
  ((0 <= skip)%Z -> (0 <= limit)%Z ->
   exists pagination,
     find_with a filters (Some skip) (Some limit)
     = Some (a1, VObj ([("success", VBool true);
                        ("data", VArr (if (limit =? 0)%Z
                                       then skipn (Z.to_nat skip) docs
                                       else firstn (Z.to_nat limit)
                                              (skipn (Z.to_nat skip) docs)));
                        ("total", VNum (Z.of_nat n));
                        ("error", VNull)] ++ pagination)))
  /\ ((skip < 0)%Z ->
      find_with a filters (Some skip) (Some limit)
      = Some (a1, find_failure (Error "Skip cannot be negative")))
  /\ ((0 <= skip)%Z -> (limit < 0)%Z ->
      find_with a filters (Some skip) (Some limit)
      = Some (a1, find_failure (Error "Limit cannot be negative")))
  /\ find_with a filters None None = Some (find a filters).
Proof.
  intros H Hsb Hlb. pose proof H as Hfind.
  apply find_success_inv in H.
  destruct H as [Hc [Hv [r [Hr [-> [-> Hn]]]]]].
  apply Nat.eqb_neq in Hn.
  split; [|split; [|split]].
  - intros Hs Hl. eapply find_with_success; [eassumption | lia | lia].
  - intros Hs. unfold find_with.
    rewrite !modelled_Some by lia. cbn [andb negb].
    rewrite Hc, Hv, Hr.
    unfold skip_stage. cbn [truthy].
    destruct (Z.eqb_spec skip 0) as [->|Hs0]; [lia|]. cbn [negb].
    destruct (Z.ltb_spec skip 0) as [_|?]; [reflexivity|lia].
  - intros Hs Hl. unfold find_with.
    rewrite !modelled_Some by lia. cbn [andb negb].
    rewrite Hc, Hv, Hr.
    unfold skip_stage, limit_stage. cbn [truthy].
    assert (El : (limit =? 0)%Z = false) by (apply Z.eqb_neq; lia).
    assert (Ell : (limit <? 0)%Z = true) by (apply Z.ltb_lt; lia).
    destruct (Z.eqb_spec skip 0) as [->|Hs0]; cbn [negb bind].
    + now rewrite El, Ell.
    + destruct (Z.ltb_spec skip 0) as [?|_]; [lia|]. cbn [bind negb].
      now rewrite El, Ell.
  - unfold find_with, find. cbn [modelled andb negb].
    rewrite Hc, Hv, Hr. cbn [skip_stage limit_stage bind].
    rewrite Hn. cbn [find_pagination]. now rewrite app_nil_r.
Qed.

Lemma page_param_bound (bound fallback : Z) (x : option Z) :
  (1 <= bound)%Z -> (fallback <= bound)%Z ->
  modelled bound x = true -> (page_param x fallback <= bound)%Z.
Proof.
  intros H1 Hf Hx. unfold page_param.
  destruct x as [n|]; [|lia].
  apply Z.leb_le in Hx. destruct (truthy (VNum n)); lia.
Qed.

(** X28.  paginate returns page [P] of size [L] of what find returns, where
    [P] and [L] are the page and the limit asked for (at least 1; 1 and
    10 when absent or 0): the documents from position [(P - 1) * L] on,
    at most [L] of them, with [total] the number of all the documents
    that match.  The answer is a success as long as [P] is at most the
    number of pages, and the pages, one after the other, are the whole
    result.  Stated for a page and a limit of magnitude at most 2^26. *)
Theorem paginate_returns_the_page
        (a a1 : adapter) (filters : value) (docs : list value) (n : nat)
        (page limit : option Z) :
  find a filters = (a1, find_envelope true (VArr docs) n VNull) ->
  modelled (2 ^ 26) page = true ->
  modelled (2 ^ 26) limit = true ->
  let P := Z.to_nat (page_param page 1) in
  let L := Z.to_nat (page_param limit 10) in
  let pages := Z.to_nat (ceil_div (Z.of_nat n) (page_param limit 10)) in
  (exists pagination,
      paginate a filters page limit
      = Some (a1, VObj [("success", VBool (P <=? pages)%nat);
                        ("data", VArr (page_slice L P docs));
                        ("total", VNum (Z.of_nat n));
                        ("pagination", VObj pagination);
                        ("error",
                         if (P <=? pages)%nat then VNull
                         else error_info
                                (out_of_range_message (Z.of_nat P) (Z.of_nat pages))
                                404)])
      /\ lookup "totalPages" pagination = Some (VNum (Z.of_nat pages)))
  /\ concat (map (fun p => page_slice L p docs) (seq 1 pages)) = docs.
Proof.
  intros H Hmp Hml P L pages. subst P L pages.
  pose proof (page_param_pos page 1) as HP.
  pose proof (page_param_pos limit 10) as HL.
  pose proof (@page_param_bound (2 ^ 26) 1 page ltac:(lia) ltac:(lia) Hmp) as HPb.
  pose proof (@page_param_bound (2 ^ 26) 10 limit ltac:(lia) ltac:(lia) Hml) as HLb.
  set (P := page_param page 1) in *. set (L := page_param limit 10) in *.
  pose proof H as Hinv. apply find_success_inv in Hinv.
  destruct Hinv as [_ [_ [r [_ [Hdocs [Hlen Hn0]]]]]].
  assert (Hpages : (0 < ceil_div (Z.of_nat n) L)%Z)
    by (apply ceil_div_pos; lia).
  assert (Hcover : (Z.of_nat n <= ceil_div (Z.of_nat n) L * L)%Z)
    by (apply ceil_div_covers; lia).
  assert (Hskip : (0 <= (P - 1) * L <= 2 ^ 52)%Z).
  { split; [nia|].
    replace (2 ^ 52)%Z with (2 ^ 26 * 2 ^ 26)%Z by reflexivity. nia. }
  split.
  - destruct (@find_with_success a a1 filters docs n ((P - 1) * L)%Z L H
                Hskip ltac:(lia)) as [pg Hfw].
    unfold paginate. rewrite Hmp, Hml. cbn [andb negb].
    fold P. fold L. rewrite Hfw.
    assert (E0 : (L =? 0)%Z = false) by (apply Z.eqb_neq; lia).
    rewrite E0. simpl.
    assert (En : (0 <? Z.of_nat n)%Z = true) by (apply Z.ltb_lt; lia).
    assert (En0 : (Z.of_nat n =? 0)%Z = false) by (apply Z.eqb_neq; lia).
    rewrite En, En0.
    assert (Ep : (0 <? ceil_div (Z.of_nat n) L)%Z = true)
      by (apply Z.ltb_lt; lia).
    rewrite Ep, andb_true_r.
    assert (Eslice :
      firstn (Z.to_nat L) (skipn (Z.to_nat ((P - 1) * L)) docs)
      = page_slice (Z.to_nat L) (Z.to_nat P) docs).
    { unfold page_slice. do 2 f_equal.
      rewrite Z2Nat.inj_mul by lia. rewrite Z2Nat.inj_sub by lia.
      reflexivity. }
    rewrite Eslice.
    rewrite !Z2Nat.id by lia.
    destruct (Z.ltb_spec (ceil_div (Z.of_nat n) L) P) as [Hlt|Hge].
    + assert (E : (Z.to_nat P <=? Z.to_nat (ceil_div (Z.of_nat n) L))%nat = false)
        by (apply Nat.leb_gt; lia).
      rewrite E. eexists. split; reflexivity.
    + assert (E : (Z.to_nat P <=? Z.to_nat (ceil_div (Z.of_nat n) L))%nat = true)
        by (apply Nat.leb_le; lia).
      rewrite E. eexists. split; reflexivity.
  - rewrite pages_concat. apply firstn_all2.
    assert (Hd : length docs = n).
    { rewrite Hdocs, Hlen. now rewrite length_map. }
    rewrite Hd. nia.
Qed.
End PagingFacts.

Lemma find_with_returns_the_slice_witness :
  let a1 := fst (find (rt := example_runtime) three_documents (VObj [])) in
  let docs := map VObj (documents three_documents) in
  (exists pagination,
      find_with (rt := example_runtime) three_documents (VObj []) (Some 1%Z) (Some 1%Z)
      = Some (a1, VObj ([("success", VBool true);
                         ("data", VArr (firstn 1 (skipn 1 docs)));
                         ("total", VNum 3);
                         ("error", VNull)] ++ pagination)))
  /\ find_with (rt := example_runtime) three_documents (VObj []) (Some (-1)%Z) (Some 1%Z)
     = Some (a1, find_failure (Error "Skip cannot be negative")).
Proof.
  cbv zeta.
  pose proof (@find_with_returns_the_slice example_runtime three_documents
                (fst (find (rt := example_runtime) three_documents (VObj [])))
                (VObj []) (map VObj (documents three_documents)) 3) as H.
  split.
  - exact (proj1 (H 1%Z 1%Z eq_refl ltac:(simpl; lia) ltac:(simpl; lia))
                 ltac:(lia) ltac:(lia)).
  - exact (proj1 (proj2 (H (-1)%Z 1%Z eq_refl ltac:(simpl; lia) ltac:(simpl; lia)))
                 ltac:(lia)).
Defined.

Lemma paginate_returns_the_page_witness :
  let a1 := fst (find (rt := example_runtime) three_documents (VObj [])) in
  let docs := map VObj (documents three_documents) in
  (exists pagination,
      paginate (rt := example_runtime) three_documents (VObj []) (Some 2%Z) (Some 2%Z)
      = Some (a1, VObj [("success", VBool true);
                        ("data", VArr (page_slice 2 2 docs));
                        ("total", VNum 3);
                        ("pagination", VObj pagination);
                        ("error", VNull)])
      /\ lookup "totalPages" pagination = Some (VNum 2))
  /\ concat (map (fun p => page_slice 2 p docs) (seq 1 2)) = docs.
Proof.
  cbv zeta.
  exact (@paginate_returns_the_page example_runtime three_documents
           (fst (find (rt := example_runtime) three_documents (VObj [])))
           (VObj []) (map VObj (documents three_documents)) 3
           (Some 2%Z) (Some 2%Z) eq_refl eq_refl eq_refl).
Defined.
(* ================================================================== *)
(** * From the methods of a collection to the methods of the adapter *)

Lemma split_slash_aux_segment (p cur rest : string) :
  slash_free p = true ->
  split_slash_aux cur (p ++ String "/" rest)
  = (cur ++ p)%string :: split_slash_aux "" rest.
Proof.
  revert cur. induction p as [|c p IH]; intros cur Hp; simpl.
  - now rewrite append_empty_r.
  - unfold slash_free in Hp. simpl in Hp.
    apply andb_prop in Hp. destruct Hp as [Hc Hp].
    apply negb_true_iff in Hc. rewrite Hc.
    rewrite IH by exact Hp. now rewrite append_assoc.
Qed.

Lemma split_slash_aux_last (p cur : string) :
  slash_free p = true -> split_slash_aux cur p = [(cur ++ p)%string].
Proof.
  revert cur. induction p as [|c p IH]; intros cur Hp; simpl.
  - now rewrite append_empty_r.
  - unfold slash_free in Hp. simpl in Hp.
    apply andb_prop in Hp. destruct Hp as [Hc Hp].
    apply negb_true_iff in Hc. rewrite Hc.
    rewrite IH by exact Hp. now rewrite append_assoc.
Qed.

(** A name that was accepted is not empty and has no slash. *)
Lemma valid_name_plain (name : string) :
  _validateCollectionName (Some (VStr name)) = Ok true ->
  (name =? "") = false /\ slash_free name = true.
Proof.
  unfold _validateCollectionName.
  destruct name as [|c s]; [discriminate|].
  change (truthy (VStr (String c s))) with true. cbn [negb].
  destruct (String.length (String c s) <? 1)%nat; [discriminate|].
  destruct (64 <? String.length (String c s))%nat; [discriminate|].
  destruct (validNameRegex (String c s)) eqn:Hv; [|discriminate].
  intros _. split; [reflexivity|].
  unfold validNameRegex in Hv. apply andb_prop in Hv. destruct Hv as [_ Hv].
  unfold slash_free.
  induction (list_ascii_of_string (String c s)) as [|x l IH]; [reflexivity|].
  simpl in Hv. apply andb_prop in Hv. destruct Hv as [Hx Hl].
  simpl. rewrite (IH Hl), andb_true_r.
  destruct (name_char_not_special x Hx) as [_ [Hs _]].
  apply orb_false_iff in Hs. destruct Hs as [Hs _]. now rewrite Hs.
Qed.

Lemma endpoint_parts_collection (name : string) :
  _validateCollectionName (Some (VStr name)) = Ok true ->
  endpoint_parts ("/collections/" ++ name) = ["collections"; name].
Proof.
  intros Hv. apply valid_name_plain in Hv. destruct Hv as [Hne Hsf].
  unfold endpoint_parts. simpl.
  rewrite split_slash_aux_last by exact Hsf. simpl. now rewrite Hne.
Qed.

Lemma endpoint_parts_by_id (name s : string) :
  _validateCollectionName (Some (VStr name)) = Ok true ->
  slash_free s = true ->
  endpoint_parts ("/collections/" ++ name ++ "/" ++ s)
  = ["collections"; name] ++ (if s =? "" then [] else [s]).
Proof.
  intros Hv Hs. apply valid_name_plain in Hv. destruct Hv as [Hne Hsf].
  unfold endpoint_parts. simpl.
  rewrite split_slash_aux_segment by exact Hsf.
  rewrite split_slash_aux_last by exact Hs. simpl. rewrite Hne.
  now destruct (s =? "").
Qed.

(** X29.  The calls of a collection that name a document by its id reach the
    method of the adapter with that id, with three exceptions: the ids
    [count] and [paginate] are read as the names of the operations by
    findById, and deleteById of the id [drop] drops the collection.
    Stated for ids that are non-empty strings without a slash. *)
Theorem by_id_requests_reach_the_document
        (name s : string) (options update : value) :
  _validateCollectionName (Some (VStr name)) = Ok true ->
  (s =? "") = false -> slash_free s = true ->
  Collection_findById name (VStr s) options
  = Ok (Some name,
        if s =? "count" then call_count (VObj [("options", options)])
        else if s =? "paginate" then call_paginate None (Some options)
        else call_findById s)
  /\ Collection_updateById name (VStr s) update
     = Ok (Some name, call_updateById s (VObj [("update", update)]))
  /\ Collection_deleteById name (VStr s)
     = Ok (Some name,
           if s =? "drop" then call_dropCollection else call_deleteById s).
Proof.
  intros Hv Hne Hs.
  pose proof (@endpoint_parts_by_id name s Hv Hs) as Hparts. rewrite Hne in Hparts.
  unfold Collection_findById, Collection_updateById, Collection_deleteById,
    request.
  cbn [js_String truthy]. rewrite Hne, Hparts.
  simpl.
  repeat split.
  - destruct (s =? "count"); [reflexivity|].
    destruct (s =? "paginate"); reflexivity.
  - destruct (s =? "drop"); reflexivity.
Qed.

Lemma filter_r_all_false {A} (f : A -> result bool) (l : list A) :
  (forall x, f x = Ok false) -> filter_r f l = Ok [].
Proof.
  intros Hf. induction l as [|x l IH]; simpl; [reflexivity|].
  rewrite Hf, IH. reflexivity.
Qed.

Section Drop.
Context {rt : JsRuntime}.

(** X30.  The drop of a collection is a delete with the empty filter, not a
    dropCollection: it removes every document and answers with their
    number (with code 404 when there was none), and it leaves the
    secondary indexes of the collection as they were. *)
Theorem drop_removes_the_documents_only (name : string) (a : adapter) :
  _validateCollectionName (Some (VStr name)) = Ok true ->
  exists payload,
    Collection_drop name = Ok (Some name, call_delete payload)
    /\ filters_of payload = Ok (VObj [])
    /\ (fst (delete a (VObj []))).(col).(data) = []
    /\ (fst (delete a (VObj []))).(col).(indexes) = a.(col).(indexes)
    /\ snd (delete a (VObj []))
       = match a.(col).(data) with
         | [] => envelope false VNull
                   (error_info "No documents matched the filters" 404)
         | _ :: _ =>
             envelope true
               (VObj [("deletedCount",
                       VNum (Z.of_nat (length a.(col).(data))))]) VNull
         end.
Proof.
  intros Hv. exists (VObj []).
  split.
  { unfold Collection_drop, request.
    rewrite (@endpoint_parts_collection name Hv). reflexivity. }
  split; [reflexivity|].
  unfold delete.
  rewrite filter_r_all_true
    by (intros h; apply no_filter_matches; reflexivity).
  rewrite filter_r_all_false
    by (intros h; unfold matches; rewrite no_filter_matches by reflexivity;
        reflexivity).
  cbn [length]. rewrite Nat.sub_0_r.
  destruct (data (col a)) as [|h l] eqn:Hd.
  - repeat split.
  - cbn [length]. change (0 <? S (length l))%nat with true.
    repeat split.
Qed.
End Drop.

Lemma by_id_requests_reach_the_document_witness :
  Collection_findById "users" (VStr "u1") (VObj [])
  = Ok (Some "users", call_findById "u1")
  /\ Collection_updateById "users" (VStr "u1") (VObj [("x", VNum 1)])
     = Ok (Some "users",
           call_updateById "u1" (VObj [("update", VObj [("x", VNum 1)])]))
  /\ Collection_deleteById "users" (VStr "u1")
     = Ok (Some "users", call_deleteById "u1").
Proof.
  exact (@by_id_requests_reach_the_document "users" "u1" (VObj [])
           (VObj [("x", VNum 1)]) eq_refl eq_refl eq_refl).
Defined.

Lemma drop_removes_the_documents_only_witness :
  exists payload,
    Collection_drop "users" = Ok (Some "users", call_delete payload)
    /\ filters_of payload = Ok (VObj [])
    /\ (fst (delete (rt := example_runtime) three_documents (VObj []))).(col).(data) = []
    /\ (fst (delete (rt := example_runtime) three_documents (VObj []))).(col).(indexes)
       = three_documents.(col).(indexes)
    /\ snd (delete (rt := example_runtime) three_documents (VObj []))
       = envelope true (VObj [("deletedCount", VNum 3)]) VNull.
Proof.
  exact (@drop_removes_the_documents_only example_runtime "users"
           three_documents eq_refl).
Defined.
